(** * kubesync: a distributed mutex backed by Kubernetes leases

    A shallow embedding of [mutex.go], [kubesync.go] and the [sleep]/[now]
    helpers, together with the properties of the lock life cycle
    ([Lock], [Extend], [Unlock]).

    Layout: Go primitives, the lease record, the lease store the package
    talks to, a small monad of store/clock/context operations in which the
    three methods are written, its sequential and interleaved semantics,
    and then the theorems. *)

From Stdlib Require Import ZArith Lia List.
From Stdlib Require Import Floats.SpecFloat.
From stdpp Require Import base option gmap strings list fin_maps.

Local Open Scope Z_scope.

(* ===================================================================== *)
(** * Go primitives *)
(* ===================================================================== *)

(** [int32]: a value of Go's [int32] is kept as a [Z] in
    [-2^31, 2^31); arithmetic on it wraps around. *)
Definition int32_min : Z := - 2 ^ 31.
Definition int32_max : Z := 2 ^ 31 - 1.
Definition int32_wrap (z : Z) : Z := (z + 2 ^ 31) mod 2 ^ 32 - 2 ^ 31.
Definition is_int32 (z : Z) : Prop := int32_min <= z <= int32_max.

(** [float64]: IEEE 754 binary64, through the Standard Library's
    executable specification. *)
Definition float64 : Type := spec_float.
Definition f64_prec : Z := 53.
Definition f64_emax : Z := 1024.
Definition f64_add : float64 -> float64 -> float64 := SFadd f64_prec f64_emax.
Definition f64_div : float64 -> float64 -> float64 := SFdiv f64_prec f64_emax.

(** [float64(n)] for an integer [n] (round to nearest, ties to even). *)
Definition float64_of_int (n : Z) : float64 :=
  binary_normalize f64_prec f64_emax n 0 false.

(** [int32(f)] for a float [f]: truncation toward zero. The Go
    specification leaves the result open when the value does not fit;
    amd64 (CVTTSD2SL) yields the smallest [int32], which is what is
    written here. *)
Definition int32_of_float64 (f : float64) : Z :=
  match f with
  | S754_zero _ => 0
  | S754_finite s m e =>
      let mag := if 0 <=? e then Z.pos m * 2 ^ e else Z.pos m / 2 ^ (- e) in
      let v := if s then - mag else mag in
      if (int32_min <=? v) && (v <=? int32_max) then v else int32_min
  | S754_infinity _ | S754_nan => int32_min
  end.

Module math.
(** [math.Round]: nearest integer, halves away from zero. *)
Definition Round (x : float64) : float64 :=
  match x with
  | S754_finite s m e =>
      if 0 <=? e then x
      else
        let n := (Z.pos m + 2 ^ (- e - 1)) / 2 ^ (- e) in
        match n with
        | Z.pos p => binary_round f64_prec f64_emax s p 0
        | _ => S754_zero s
        end
  | _ => x
  end.
End math.

Module time.
(** [time.Duration] is an [int64] count of nanoseconds. *)
Definition Duration : Type := Z.
Definition Nanosecond : Duration := 1.
Definition Millisecond : Duration := 1000000.
Definition Second : Duration := 1000000000.

(** [Duration.Seconds]:
    [sec := d / Second; nsec := d % Second;
     return float64(sec) + float64(nsec)/1e9]. *)
Definition Seconds (d : Duration) : float64 :=
  let sec := Z.quot d Second in
  let nsec := Z.rem d Second in
  f64_add (float64_of_int sec)
          (f64_div (float64_of_int nsec) (float64_of_int 1000000000)).

(** [time.Time] / [metav1.MicroTime]: [now] strips the monotonic reading
    ([.UTC()]), so an instant is its wall-clock reading, kept here as
    nanoseconds since the Unix epoch. *)
Definition Time : Type := Z.
Definition Add (t : Time) (d : Duration) : Time := t + d.
Definition After (t u : Time) : bool := u <? t.
End time.

(** [context.Context.Err()] is [nil] until the token fires, and one of
    these two errors from then on. *)
Inductive ContextError : Type := Canceled | DeadlineExceeded.

(* ===================================================================== *)
(** * The lease record ([coordinationv1.Lease]) *)
(* ===================================================================== *)

(** The fields of [coordinationv1.LeaseSpec] the package reads or writes;
    every one of them is a pointer in Go, hence [option]. *)
Record LeaseSpec : Type := {
  HolderIdentity : option string;
  LeaseDurationSeconds : option Z;      (* *int32 *)
  AcquireTime : option time.Time;       (* *metav1.MicroTime *)
  RenewTime : option time.Time;         (* *metav1.MicroTime *)
  LeaseTransitions : option Z           (* *int32 *)
}.

Record ObjectMeta : Type := {
  Name : string;
  Namespace : string;
  Labels : list (string * string);
  ResourceVersion : N
}.

Record Lease : Type := { Meta : ObjectMeta; Spec : LeaseSpec }.

(** [coordinationv1.LeaseSpec{}] *)
Definition empty_spec : LeaseSpec :=
  {| HolderIdentity := None; LeaseDurationSeconds := None;
     AcquireTime := None; RenewTime := None; LeaseTransitions := None |}.

Definition with_spec (l : Lease) (s : LeaseSpec) : Lease :=
  {| Meta := Meta l; Spec := s |}.

(* ===================================================================== *)
(** * Errors *)
(* ===================================================================== *)

(** What the store's calls fail with ([kerrors] status reasons). *)
Inductive StatusError : Type :=
| AlreadyExists
| NotFound
| Conflict
| OtherFailure.

Definition IsAlreadyExists (e : StatusError) : bool :=
  match e with AlreadyExists => true | _ => false end.

(** The (lease, err) pair a store call returns. *)
Inductive CallResult : Type :=
| Ok (l : Lease)
| Fail (e : StatusError).

(** The errors the methods of [Mutex] return; [None] is Go's [nil]. *)
Inductive error : Type :=
| ErrNotLocked
| ErrLockedByAnother
| ErrCreateLease (namespace name : string) (cause : StatusError)
| ErrGetLease (namespace name : string) (cause : StatusError)
| ErrNoDuration
| ErrExtendUpdate (cause : StatusError)
| ErrUnlockUpdate (cause : StatusError)
| ErrContext (e : ContextError).

(* ===================================================================== *)
(** * The lease store *)
(* ===================================================================== *)

(** What the store keeps under a (namespace, name) key. *)
Record Stored : Type := {
  s_labels : list (string * string);
  s_version : N;
  s_spec : LeaseSpec
}.

(** The calls a client has issued, in order (the fake clientset records
    them the same way). *)
Inductive Action : Type :=
| ActCreate (ns : string) (l : Lease)
| ActGet (ns name : string)
| ActUpdate (ns : string) (l : Lease).

(** The world outside the process: the cluster's leases, the wall clock,
    and the record of the calls made so far. *)
Record World : Type := {
  leases : gmap (string * string) Stored;
  clock : time.Time;
  actions : list Action
}.

Definition set_leases (w : World) (ls : gmap (string * string) Stored) : World :=
  {| leases := ls; clock := clock w; actions := actions w |}.
Definition set_clock (w : World) (t : time.Time) : World :=
  {| leases := leases w; clock := t; actions := actions w |}.
Definition record (w : World) (a : Action) : World :=
  {| leases := leases w; clock := clock w; actions := actions w ++ [a] |}.

(** The object a [Get] hands out for a stored record. *)
Definition lease_of (ns name : string) (s : Stored) : Lease :=
  {| Meta := {| Name := name; Namespace := ns; Labels := s_labels s;
                ResourceVersion := s_version s |};
     Spec := s_spec s |}.

(** The record kept for an object. *)
Definition stored_of (l : Lease) : Stored :=
  {| s_labels := Labels (Meta l);
     s_version := ResourceVersion (Meta l);
     s_spec := Spec l |}.

(** A successful write puts the object it returns in the store. *)
Definition commit (ns : string) (r : CallResult) (w : World) : World :=
  match r with
  | Ok l => set_leases w (<[(ns, Name (Meta l)) := stored_of l]> (leases w))
  | Fail _ => w
  end.

Definition set_version (l : Lease) (v : N) : Lease :=
  {| Meta := {| Name := Name (Meta l); Namespace := Namespace (Meta l);
                Labels := Labels (Meta l); ResourceVersion := v |};
     Spec := Spec l |}.

Definition in_namespace (ns : string) (l : Lease) : Lease :=
  {| Meta := {| Name := Name (Meta l); Namespace := ns;
                Labels := Labels (Meta l);
                ResourceVersion := ResourceVersion (Meta l) |};
     Spec := Spec l |}.

(** Modelled from the spec: the lease-store contract of the external
    client ([LeaseInterface.Create]): creation succeeds, or fails with
    "already exists", or with another error (here an injected [fault]). *)
Definition create_result (ns : string) (l : Lease)
    (fault : option StatusError) (w : World) : CallResult :=
  match fault with
  | Some e => Fail e
  | None =>
      match leases w !! (ns, Name (Meta l)) with
      | Some _ => Fail AlreadyExists
      | None => Ok (in_namespace ns (set_version l 1))
      end
  end.

Definition store_create (ns : string) (l : Lease) (fault : option StatusError)
    (w : World) : CallResult * World :=
  let r := create_result ns l fault w in
  (r, commit ns r (record w (ActCreate ns l))).

(** Modelled from the spec: [LeaseInterface.Get] returns the current
    record with its version marker, or a not-found or other error. *)
Definition get_result (ns name : string) (fault : option StatusError)
    (w : World) : CallResult :=
  match fault with
  | Some e => Fail e
  | None =>
      match leases w !! (ns, name) with
      | Some s => Ok (lease_of ns name s)
      | None => Fail NotFound
      end
  end.

Definition store_get (ns name : string) (fault : option StatusError)
    (w : World) : CallResult * World :=
  (get_result ns name fault w, record w (ActGet ns name)).

(** Modelled from the spec: [LeaseInterface.Update] succeeds only if the
    version marker of the submitted record still matches the store's
    current version, and fails with a conflict otherwise. *)
Definition update_result (ns : string) (l : Lease)
    (fault : option StatusError) (w : World) : CallResult :=
  match fault with
  | Some e => Fail e
  | None =>
      match leases w !! (ns, Name (Meta l)) with
      | None => Fail NotFound
      | Some s =>
          if decide (s_version s = ResourceVersion (Meta l))
          then Ok (in_namespace ns (set_version l (N.succ (s_version s))))
          else Fail Conflict
      end
  end.

Definition store_update (ns : string) (l : Lease) (fault : option StatusError)
    (w : World) : CallResult * World :=
  let r := update_result ns l fault w in
  (r, commit ns r (record w (ActUpdate ns l))).

(* ===================================================================== *)
(** * Syncer and Mutex *)
(* ===================================================================== *)

(** [Syncer]: its Kubernetes client [k] is the handle on the [World] that
    the semantics below threads through; the two strings remain. *)
Record Syncer : Type := {
  syncer_namespace : string;
  syncer_uniqueID : string
}.

(** [New(k, namespace, instanceID)]; [uuid] stands for the value of
    [uuid.NewUUID()]. *)
Definition New (namespace instanceID uuid : string) : Syncer :=
  {| syncer_namespace := namespace;
     syncer_uniqueID := instanceID +:+ "-" +:+ uuid |}.

(** [Mutex]: [lease] is the lease client, [k.CoordinationV1().Leases(ns)],
    that is the namespace its calls address. *)
Record Mutex : Type := {
  lease : string;
  name : string;
  namespace : string;
  uniqueID : string;
  retryDur : time.Duration;
  expiration : time.Duration
}.

Definition NewMutex (s : Syncer) (name : string) : Mutex :=
  {| lease := syncer_namespace s;
     name := name;
     namespace := syncer_namespace s;
     retryDur := 250 * time.Millisecond;
     uniqueID := syncer_uniqueID s;
     expiration := 10 * time.Second |}.

(** The key of the record a mutex names. *)
Definition key (m : Mutex) : string * string := (lease m, name m).

(* ===================================================================== *)
(** * Programs over the store, the clock and the context *)
(* ===================================================================== *)

(** A method body up to its next [return], [continue] or [break]: a tree
    of the calls it makes to the outside, each with its continuation. *)
Inductive Prog (A : Type) : Type :=
| Ret (a : A)
| DoCreate (client : string) (l : Lease) (k : CallResult -> Prog A)
| DoGet (client name : string) (k : CallResult -> Prog A)
| DoUpdate (client : string) (l : Lease) (k : CallResult -> Prog A)
| DoNow (k : time.Time -> Prog A)
| DoSleep (d : time.Duration) (k : option ContextError -> Prog A)
| DoCtxErr (k : option ContextError -> Prog A).

Arguments Ret {A} a.
Arguments DoCreate {A} client l k.
Arguments DoGet {A} client name k.
Arguments DoUpdate {A} client l k.
Arguments DoNow {A} k.
Arguments DoSleep {A} d k.
Arguments DoCtxErr {A} k.

Fixpoint prog_bind {A B : Type} (f : A -> Prog B) (p : Prog A) : Prog B :=
  match p with
  | Ret a => f a
  | DoCreate c l k => DoCreate c l (fun r => prog_bind f (k r))
  | DoGet c n k => DoGet c n (fun r => prog_bind f (k r))
  | DoUpdate c l k => DoUpdate c l (fun r => prog_bind f (k r))
  | DoNow k => DoNow (fun t => prog_bind f (k t))
  | DoSleep d k => DoSleep d (fun e => prog_bind f (k e))
  | DoCtxErr k => DoCtxErr (fun e => prog_bind f (k e))
  end.

#[export] Instance prog_ret : MRet Prog := fun A a => Ret a.
#[export] Instance prog_mbind : MBind Prog := fun A B f p => prog_bind f p.

(** [m.lease.Create(ctx, l, opts)], [m.lease.Get(ctx, name, opts)],
    [m.lease.Update(ctx, l, opts)] *)
Definition Create (client : string) (l : Lease) : Prog CallResult :=
  DoCreate client l Ret.
Definition Get (client name : string) : Prog CallResult :=
  DoGet client name Ret.
Definition Update (client : string) (l : Lease) : Prog CallResult :=
  DoUpdate client l Ret.

(** [now()]: [metav1.NewMicroTime(time.Now().UTC())]. *)
Definition now : Prog time.Time := DoNow Ret.

(** [sleep(ctx, d)]: its body is the [select] between [ctx.Done()] and
    [time.After(d)], whose outcome [on_sleep] below decides. *)
Definition sleep (d : time.Duration) : Prog (option ContextError) :=
  DoSleep d Ret.

(** [ctx.Err()] *)
Definition ctx_Err : Prog (option ContextError) := DoCtxErr Ret.

(** How a piece of a method ends: it returns from the method, or it
    reaches the head of the [for] loop (again). *)
Inductive Ctl : Type :=
| Return (err : option error)
| Continue.

(* ===================================================================== *)
(** * mutex.go *)
(* ===================================================================== *)

(** The object [lock] passes to [Create]. *)
Definition new_lease (m : Mutex) : Lease :=
  {| Meta := {| Name := name m; Namespace := namespace m;
                Labels := [("kubesync.jaredallard.github.com/lock", "true")];
                ResourceVersion := 0 |};
     Spec := empty_spec |}.

(** [int32(math.Round(m.expiration.Seconds()))] *)
Definition ttl_seconds (m : Mutex) : Z :=
  int32_of_float64 (math.Round (time.Seconds (expiration m))).

(** When the lease expires: [lastUpdatedTime.Add(leaseDur)], where
    [leaseDur] is the lease's duration in seconds times [time.Second] and
    [lastUpdatedTime] is the renew time if it exists, otherwise the
    acquire time. *)
Definition lease_expiry (dur : Z) (acq : time.Time) (renew : option time.Time)
    : time.Time :=
  let leaseDur := dur * time.Second in
  let lastUpdatedTime := match renew with Some r => r | None => acq end in
  time.Add lastUpdatedTime leaseDur.

(** The lease after the assignments that claim it (lines 161-171); [t] is
    what [now()] returned. [RenewTime] is not assigned. *)
Definition claim_spec (m : Mutex) (t : time.Time) (s : LeaseSpec) : LeaseSpec :=
  let leaseTransitions :=
    match LeaseTransitions s with Some n => n | None => 0 end in
  let leaseTransitions := int32_wrap (leaseTransitions + 1) in
  {| HolderIdentity := Some (uniqueID m);
     LeaseDurationSeconds := Some (ttl_seconds m);
     AcquireTime := Some t;
     RenewTime := RenewTime s;
     LeaseTransitions := Some leaseTransitions |}.

Definition claim (m : Mutex) (t : time.Time) (l : Lease) : Lease :=
  with_spec l (claim_spec m t (Spec l)).

(** [return ctx.Err()] (line 186). *)
Definition lock_exit_err : Prog Ctl :=
  e ← ctx_Err;
  mret (Return (ErrContext <$> e)).

(** After the loop (lines 185-189). *)
Definition lock_exit : Prog Ctl :=
  e ← ctx_Err;
  match e with
  | Some _ => lock_exit_err
  | None => mret (Return None)
  end.

(** [if err := sleep(ctx, m.retryDur); err != nil { return err }] and
    then the next iteration (lines 154-157 and 181-183). *)
Definition lock_retry (m : Mutex) : Prog Ctl :=
  e ← sleep (retryDur m);
  match e with
  | Some c => mret (Return (Some (ErrContext c)))
  | None => mret Continue
  end.

(** Submit the update (lines 173-183). *)
Definition lock_update (m : Mutex) (l : Lease) : Prog Ctl :=
  r ← Update (lease m) l;
  match r with
  | Ok _ => lock_exit
  | Fail _ => lock_retry m
  end.

(** Claim the lease (lines 161-171). *)
Definition lock_claim (m : Mutex) (l : Lease) : Prog Ctl :=
  t ← now;
  lock_update m (claim m t l).

(** The fetched lease in hand (lines 135-159). *)
Definition lock_fetched (m : Mutex) (l : Lease) : Prog Ctl :=
  match HolderIdentity (Spec l) with
  | Some _ =>
      match LeaseDurationSeconds (Spec l), AcquireTime (Spec l) with
      | Some dur, Some acq =>
          t ← now;
          if time.After (lease_expiry dur acq (RenewTime (Spec l))) t
          then lock_retry m
          else lock_claim m l
      | _, _ => mret (Return (Some ErrNoDuration))
      end
  | None => lock_claim m l
  end.

(** Fetch the lease (lines 130-133). *)
Definition lock_get (m : Mutex) : Prog Ctl :=
  r ← Get (lease m) (name m);
  match r with
  | Fail err => mret (Return (Some (ErrGetLease (namespace m) (name m) err)))
  | Ok l => lock_fetched m l
  end.

(** One turn of [for ctx.Err() == nil { ... }] (lines 129-184). *)
Definition lock_iter (m : Mutex) : Prog Ctl :=
  e ← ctx_Err;
  match e with
  | Some _ => lock_exit
  | None => lock_get m
  end.

(** Before the loop (lines 111-126). *)
Definition lock_create (m : Mutex) : Prog Ctl :=
  r ← Create (lease m) (new_lease m);
  match r with
  | Fail err =>
      if IsAlreadyExists err then mret Continue
      else mret (Return (Some (ErrCreateLease (namespace m) (name m) err)))
  | Ok _ => mret Continue
  end.

(** A method: what it does up to its loop, and one turn of the loop. *)
Record Routine : Type := { entry : Prog Ctl; body : Prog Ctl }.

Definition lock (m : Mutex) : Routine :=
  {| entry := lock_create m; body := lock_iter m |}.

Definition Lock (m : Mutex) : Routine := lock m.

(** [lease.Spec.RenewTime = now()] (line 213). *)
Definition renew_spec (t : time.Time) (s : LeaseSpec) : LeaseSpec :=
  {| HolderIdentity := HolderIdentity s;
     LeaseDurationSeconds := LeaseDurationSeconds s;
     AcquireTime := AcquireTime s;
     RenewTime := Some t;
     LeaseTransitions := LeaseTransitions s |}.

(** The four assignments of [nil] (lines 242-245); [LeaseTransitions] is
    left alone. *)
Definition release_spec (s : LeaseSpec) : LeaseSpec :=
  {| HolderIdentity := None;
     LeaseDurationSeconds := None;
     AcquireTime := None;
     RenewTime := None;
     LeaseTransitions := LeaseTransitions s |}.

Definition Extend (m : Mutex) : Prog (option error) :=
  r ← Get (lease m) (name m);
  match r with
  | Fail _ => mret (Some ErrNotLocked)
  | Ok l =>
      match HolderIdentity (Spec l) with
      | None => mret (Some ErrNotLocked)
      | Some holder =>
          if decide (holder ≠ uniqueID m) then mret (Some ErrLockedByAnother)
          else
            t ← now;
            r ← Update (lease m) (with_spec l (renew_spec t (Spec l)));
            match r with
            | Fail err => mret (Some (ErrExtendUpdate err))
            | Ok _ => mret None
            end
      end
  end.

(** Unlock the lease and submit it (lines 240-250). *)
Definition unlock_update (m : Mutex) (l : Lease) : Prog (option error) :=
  r ← Update (lease m) (with_spec l (release_spec (Spec l)));
  match r with
  | Fail err => mret (Some (ErrUnlockUpdate err))
  | Ok _ => mret None
  end.

Definition Unlock (m : Mutex) : Prog (option error) :=
  r ← Get (lease m) (name m);
  match r with
  | Fail _ => mret (Some ErrNotLocked)
  | Ok l =>
      match HolderIdentity (Spec l) with
      | None => mret (Some ErrNotLocked)
      | Some holder =>
          if decide (holder ≠ uniqueID m) then mret (Some ErrLockedByAnother)
          else unlock_update m l
      end
  end.

(** A method without a loop, as a routine. *)
Definition once (p : Prog (option error)) : Routine :=
  {| entry := e ← p; mret (Return e); body := mret (Return None) |}.

(* ===================================================================== *)
(** * Semantics *)
(* ===================================================================== *)

(** What the outside contributes to one call: the time that passes
    before it takes effect, whether the store call fails for a reason of
    its own, and whether the cancellation token fires by then. *)
Record Input : Type := {
  elapsed : N;
  fault : option StatusError;
  cancel : option ContextError
}.

Definition idle : Input := {| elapsed := 0; fault := None; cancel := None |}.

(** What a running call carries besides its code: the state of its
    context ([ctx.Err()]) and the time its last call returned. *)
Record Local : Type := {
  ctx : option ContextError;
  since : time.Time
}.

Definition arrive (i : Input) (w : World) : World :=
  set_clock w (clock w + Z.of_N (elapsed i)).

(** A fired token stays fired. *)
Definition fire (i : Input) (c : option ContextError) : option ContextError :=
  match c with
  | Some e => Some e
  | None => cancel i
  end.

Definition at_time (c : option ContextError) (w : World) : Local :=
  {| ctx := c; since := clock w |}.

Definition on_create (client : string) (l : Lease) (i : Input) (loc : Local)
    (w : World) : CallResult * Local * World :=
  let rw := store_create client l (fault i) (arrive i w) in
  (rw.1, at_time (fire i (ctx loc)) rw.2, rw.2).

Definition on_get (client name : string) (i : Input) (loc : Local)
    (w : World) : CallResult * Local * World :=
  let rw := store_get client name (fault i) (arrive i w) in
  (rw.1, at_time (fire i (ctx loc)) rw.2, rw.2).

Definition on_update (client : string) (l : Lease) (i : Input) (loc : Local)
    (w : World) : CallResult * Local * World :=
  let rw := store_update client l (fault i) (arrive i w) in
  (rw.1, at_time (fire i (ctx loc)) rw.2, rw.2).

Definition on_now (i : Input) (loc : Local) (w : World)
    : time.Time * Local * World :=
  let w' := arrive i w in
  (clock w', at_time (fire i (ctx loc)) w', w').

Definition on_ctx_err (i : Input) (loc : Local) (w : World)
    : option ContextError * Local * World :=
  let w' := arrive i w in
  (fire i (ctx loc), at_time (fire i (ctx loc)) w', w').

(** The [select] of [sleep]: the token's error if the token has fired,
    otherwise [nil] once [d] has passed since the sleep began. (When both
    channels are ready Go picks either; returning [nil] then leads to the
    loop condition, which reads the same fired token.) *)
Definition on_sleep (d : time.Duration) (i : Input) (loc : Local) (w : World)
    : option ContextError * Local * World :=
  let w' := arrive i w in
  match fire i (ctx loc) with
  | Some e => (Some e, at_time (Some e) w', w')
  | None =>
      let w'' := set_clock w' (Z.max (clock w') (since loc + d)) in
      (None, at_time None w'', w'')
  end.

(** One call of a program against the world. *)
Definition prog_step {A : Type} (p : Prog A) (i : Input) (loc : Local)
    (w : World) : Prog A * Local * World :=
  match p with
  | Ret a => (Ret a, loc, w)
  | DoCreate c l k => let o := on_create c l i loc w in (k o.1.1, o.1.2, o.2)
  | DoGet c n k => let o := on_get c n i loc w in (k o.1.1, o.1.2, o.2)
  | DoUpdate c l k => let o := on_update c l i loc w in (k o.1.1, o.1.2, o.2)
  | DoNow k => let o := on_now i loc w in (k o.1.1, o.1.2, o.2)
  | DoSleep d k => let o := on_sleep d i loc w in (k o.1.1, o.1.2, o.2)
  | DoCtxErr k => let o := on_ctx_err i loc w in (k o.1.1, o.1.2, o.2)
  end.

(** A program run to its end, alone: the [n]-th call it makes takes the
    [n]-th input ([idle] when the list is exhausted). *)
Fixpoint run {A : Type} (p : Prog A) (ins : list Input) (loc : Local)
    (w : World) : A * list Input * Local * World :=
  match p with
  | Ret a => (a, ins, loc, w)
  | DoCreate c l k =>
      let o := on_create c l (hd idle ins) loc w in
      run (k o.1.1) (tl ins) o.1.2 o.2
  | DoGet c n k =>
      let o := on_get c n (hd idle ins) loc w in
      run (k o.1.1) (tl ins) o.1.2 o.2
  | DoUpdate c l k =>
      let o := on_update c l (hd idle ins) loc w in
      run (k o.1.1) (tl ins) o.1.2 o.2
  | DoNow k =>
      let o := on_now (hd idle ins) loc w in
      run (k o.1.1) (tl ins) o.1.2 o.2
  | DoSleep d k =>
      let o := on_sleep d (hd idle ins) loc w in
      run (k o.1.1) (tl ins) o.1.2 o.2
  | DoCtxErr k =>
      let o := on_ctx_err (hd idle ins) loc w in
      run (k o.1.1) (tl ins) o.1.2 o.2
  end.

(** The [for] loop, for at most [fuel] turns; [None] when the loop is
    still turning after that many. *)
Fixpoint loop (fuel : nat) (b : Prog Ctl) (ins : list Input) (loc : Local)
    (w : World) : option (option error) * list Input * Local * World :=
  match fuel with
  | O => (None, ins, loc, w)
  | S n =>
      let o := run b ins loc w in
      match o.1.1.1 with
      | Return e => (Some e, o.1.1.2, o.1.2, o.2)
      | Continue => loop n b o.1.1.2 o.1.2 o.2
      end
  end.

(** A whole method call, alone in the world. *)
Definition call (fuel : nat) (r : Routine) (ins : list Input) (loc : Local)
    (w : World) : option (option error) * list Input * Local * World :=
  let o := run (entry r) ins loc w in
  match o.1.1.1 with
  | Return e => (Some e, o.1.1.2, o.1.2, o.2)
  | Continue => loop fuel (body r) o.1.1.2 o.1.2 o.2
  end.

(** ** Several calls at once *)

(** A call in progress. *)
Record Thread : Type := {
  routine : Routine;
  code : Prog Ctl;
  local : Local
}.

Definition spawn (r : Routine) (loc : Local) : Thread :=
  {| routine := r; code := entry r; local := loc |}.

(** At the head of the loop the code to run is the loop's body. *)
Definition resume (t : Thread) : Prog Ctl :=
  match code t with
  | Ret Continue => body (routine t)
  | p => p
  end.

Definition thread_step (i : Input) (t : Thread) (w : World) : Thread * World :=
  let o := prog_step (resume t) i (local t) w in
  ({| routine := routine t; code := o.1.1; local := o.1.2 |}, o.2).

(** What the call returned, once it has. *)
Definition returned (t : Thread) : option (option error) :=
  match code t with
  | Ret (Return e) => Some e
  | _ => None
  end.

(** Calls running against one store; an event lets one of them make its
    next call to the outside. *)
Record System : Type := { world : World; threads : list Thread }.

Definition Event : Type := nat * Input.

Definition sys_step (s : System) (ev : Event) : System :=
  match threads s !! ev.1 with
  | None => s
  | Some t =>
      let o := thread_step ev.2 t (world s) in
      {| world := o.2; threads := <[ev.1 := o.1]> (threads s) |}
  end.

Definition exec (evs : list Event) (s : System) : System :=
  foldl sys_step s evs.

Definition boot (w : World) (calls : list (Routine * Local)) : System :=
  {| world := w; threads := map (fun c => spawn c.1 c.2) calls |}.

(** ** Reading a record *)

(** The lease is held and its expiration time is after [t]. *)
Definition held_at (s : LeaseSpec) (t : time.Time) : bool :=
  match HolderIdentity s, LeaseDurationSeconds s, AcquireTime s with
  | Some _, Some dur, Some acq =>
      time.After (lease_expiry dur acq (RenewTime s)) t
  | _, _, _ => false
  end.

(** The spec of the record stored for [m], if there is one. *)
Definition spec_of (m : Mutex) (w : World) : option LeaseSpec :=
  s_spec <$> leases w !! key m.

(** The updates among a list of calls. *)
Definition updates (l : list Action) : list Lease :=
  omap (fun a => match a with ActUpdate _ l => Some l | _ => None end) l.

(** No failure of the store's own and no cancellation. *)
Definition benign (i : Input) : Prop := fault i = None ∧ cancel i = None.

(** [n] whole seconds is a nearest whole number of seconds to [d]. *)
Definition nearest_second (d : time.Duration) (n : Z) : Prop :=
  2 * Z.abs (n * time.Second - d) <= time.Second.

(** ** The store over time *)

(** From [w] to [w']: the clock has not gone back, and every record is
    still there, either as it was or under a later version. *)
Definition advances (w w' : World) : Prop :=
  clock w <= clock w' ∧
  ∀ k s, leases w !! k = Some s →
    ∃ s', leases w' !! k = Some s' ∧ (s' = s ∨ (s_version s < s_version s')%N).

(** [l] is a lease fetched for [m]: the store still holds it as fetched,
    or has moved to a later version. *)
Definition fresh (m : Mutex) (l : Lease) (w : World) : Prop :=
  Name (Meta l) = name m ∧
  ∃ s, leases w !! key m = Some s ∧
    ((ResourceVersion (Meta l) < s_version s)%N ∨
     (s_version s = ResourceVersion (Meta l) ∧ s_spec s = Spec l)).

(** Where a [lock] call can be, and what is known there about the lease
    it has in hand and about its token. *)
Inductive lock_at (m : Mutex) (w : World) (loc : Local) : Prog Ctl → Prop :=
| at_create : lock_at m w loc (lock_create m)
| at_head : lock_at m w loc (Ret Continue)
| at_get : lock_at m w loc (lock_get m)
| at_fetched l : fresh m l w → lock_at m w loc (lock_fetched m l)
| at_claim l :
    fresh m l w → held_at (Spec l) (clock w) = false →
    lock_at m w loc (lock_claim m l)
| at_update l t :
    fresh m l w → held_at (Spec l) (clock w) = false →
    lock_at m w loc (lock_update m (claim m t l))
| at_retry : lock_at m w loc (lock_retry m)
| at_exit : lock_at m w loc lock_exit
| at_exit_err : ctx loc ≠ None → lock_at m w loc lock_exit_err
| at_return e : lock_at m w loc (Ret (Return e)).

(** A thread that runs [lock] is at such a place. *)
Definition lock_ok (w : World) (t : Thread) : Prop :=
  ∀ m, routine t = lock m → lock_at m w (local t) (code t).

(** The call is on its way to returning [nil], or has: it is past the
    loop with its token live, or it has returned [nil]. *)
Definition won (t : Thread) : Prop :=
  (code t = lock_exit ∧ ctx (local t) = None) ∨ returned t = Some None.

(** In going from [w] to [w'] the record of [m] was replaced by a claim
    of [m]: the record replaced was not held with its expiration time
    after the clock of [w'], and the new one names [m] as holder. *)
Definition claim_landed (m : Mutex) (w w' : World) : Prop :=
  ∃ rec rec',
    leases w !! key m = Some rec ∧
    held_at (s_spec rec) (clock w') = false ∧
    leases w' !! key m = Some rec' ∧
    s_version rec' = N.succ (s_version rec) ∧
    HolderIdentity (s_spec rec') = Some (uniqueID m) ∧
    LeaseTransitions (s_spec rec') =
      Some (int32_wrap (default 0 (LeaseTransitions (s_spec rec)) + 1)).

(** Where an [Unlock] call can be: at its start, about to submit the
    update of a lease it fetched and found to be its own, or done. *)
Inductive unlock_at (m : Mutex) (w : World) : Prog Ctl → Prop :=
| ua_start : unlock_at m w (entry (once (Unlock m)))
| ua_update l :
    fresh m l w → HolderIdentity (Spec l) = Some (uniqueID m) →
    unlock_at m w (e ← unlock_update m l; mret (Return e))
| ua_return e : unlock_at m w (Ret (Return e)).

Definition unlock_ok (w : World) (t : Thread) : Prop :=
  ∀ m, routine t = once (Unlock m) → unlock_at m w (code t).

(** ** What a run of [lock] does to the world *)

(** The record [Lock] finds for [m], or else the one it creates. *)
Definition found (m : Mutex) (w : World) : Stored :=
  default {| s_labels := Labels (Meta (new_lease m)); s_version := 1;
             s_spec := empty_spec |}
          (leases w !! key m).

(** A record [Lock] can take at [t]: unheld, or held with its duration and
    acquire time set and its expiration time not after [t]. *)
Definition claimable (s : LeaseSpec) (t : time.Time) : Prop :=
  match HolderIdentity s with
  | None => True
  | Some _ =>
      match LeaseDurationSeconds s, AcquireTime s with
      | Some dur, Some acq => lease_expiry dur acq (RenewTime s) <= t
      | _, _ => False
      end
  end.

(** From [w] to [w'] the record [s] of [m], which could be taken at [t],
    has been claimed for [m] at [t]; nothing else in the store has
    changed. *)
Definition claimed (m : Mutex) (s : Stored) (t : time.Time) (w w' : World)
    : Prop :=
  leases w !! key m = Some s ∧
  claimable (s_spec s) t ∧
  clock w <= t <= clock w' ∧
  leases w' =
    <[key m := {| s_labels := s_labels s;
                  s_version := N.succ (s_version s);
                  s_spec := claim_spec m t (s_spec s) |}]> (leases w).

(** A piece of [lock] either leaves the store alone and does not report
    success, or claims the lease and returns [nil] or the context's
    error. *)
Definition claims_or_not (m : Mutex) (w : World)
    (o : Ctl * list Input * Local * World) : Prop :=
  clock w <= clock o.2 ∧
  ((leases o.2 = leases w ∧ o.1.1.1 ≠ Return None) ∨
   (∃ s t, claimed m s t w o.2 ∧
      (o.1.1.1 = Return None ∨ ∃ c, o.1.1.1 = Return (Some (ErrContext c))))).

(** What the ownership checks shared by [Extend] and [Unlock] (lines
    197-210 and 225-238) decide. *)
Definition checked (m : Mutex) (ins : list Input) (w : World)
    (o : option error * list Input * Local * World) : Prop :=
  (o.1.1.1 = Some ErrNotLocked ↔
     leases w !! key m = None ∨
     fault (hd idle ins) ≠ None ∨
     ∃ s, leases w !! key m = Some s ∧ HolderIdentity (s_spec s) = None) ∧
  (o.1.1.1 = Some ErrLockedByAnother ↔
     fault (hd idle ins) = None ∧
     ∃ s h, leases w !! key m = Some s ∧
            HolderIdentity (s_spec s) = Some h ∧ h ≠ uniqueID m) ∧
  (o.1.1.1 = Some ErrNotLocked ∨ o.1.1.1 = Some ErrLockedByAnother →
     leases o.2 = leases w ∧
     actions o.2 = actions w ++ [ActGet (lease m) (name m)]).

(* ===================================================================== *)
(** * Sample worlds *)
(* ===================================================================== *)

(** Processes contending for one lock, as in the package's tests. *)
Definition alice : Mutex := NewMutex (New "default" "host-a" "1f0e") "im-a-lock".
Definition bob : Mutex := NewMutex (New "default" "host-b" "77c2") "im-a-lock".
Definition carol : Mutex := NewMutex (New "default" "host-c" "90ab") "im-a-lock".

(** A call starting at [t] with a live, respectively a fired, token. *)
Definition live_at (t : time.Time) : Local := {| ctx := None; since := t |}.
Definition cancelled_at (t : time.Time) : Local :=
  {| ctx := Some Canceled; since := t |}.

(** An input that only lets time pass. *)
Definition wait (d : time.Duration) : Input :=
  {| elapsed := Z.to_N d; fault := None; cancel := None |}.

(** An input with which the token fires. *)
Definition cancelling : Input :=
  {| elapsed := 0; fault := None; cancel := Some Canceled |}.

(** A cluster at time [t] holding at most the record of that lock. *)
Definition cluster (t : time.Time) (rec : option Stored) : World :=
  {| leases := match rec with
               | Some s => {[ ("default", "im-a-lock") := s ]}
               | None => ∅
               end;
     clock := t; actions := [] |}.

(** An unlocked record that has changed hands [n] times. *)
Definition unheld (n : Z) : Stored :=
  {| s_labels := []; s_version := 4;
     s_spec := {| HolderIdentity := None; LeaseDurationSeconds := None;
                  AcquireTime := None; RenewTime := None;
                  LeaseTransitions := Some n |} |}.

(** A record held by [h] for ten seconds from [acq], renewed at [renew]. *)
Definition held_by (h : string) (acq : time.Time) (renew : option time.Time)
    (n : Z) : Stored :=
  {| s_labels := []; s_version := 4;
     s_spec := {| HolderIdentity := Some h; LeaseDurationSeconds := Some 10;
                  AcquireTime := Some acq; RenewTime := renew;
                  LeaseTransitions := Some n |} |}.

(** Alice and Bob call [Lock] at the same time. *)
Definition contenders : list (Routine * Local) :=
  [(Lock alice, live_at 0); (Lock bob, live_at 0)].

(** Alice's call runs to its end; Bob's call then finds the record,
    fetches it eleven seconds later, reads the clock for the expiry check
    and again for the claim, and is about to submit its update. *)
Definition takeover : list Event :=
  replicate 6 (0%nat, idle) ++
  [(1%nat, idle); (1%nat, idle); (1%nat, wait (11 * time.Second));
   (1%nat, idle); (1%nat, idle)].

(** A lease taken at 0 s, renewed at 5 s, and left behind by its holder:
    it expires at 15 s. *)
Definition stale : Stored :=
  held_by "host-z-0000" 0 (Some (5 * time.Second)) 1.

(** A lease taken at 0 s and left behind, on a record that has changed
    hands as often as an [int32] can count. *)
Definition worn : Stored := held_by "host-z-0000" 0 None 2147483647.

(** ** The two semantics side by side *)

(** [n] steps of a program alone, taking its inputs in order. *)
Fixpoint drive {A : Type} (n : nat) (p : Prog A) (ins : list Input)
    (loc : Local) (w : World) : Prog A * list Input * Local * World :=
  match n with
  | O => (p, ins, loc, w)
  | S n' =>
      match p with
      | Ret _ => (p, ins, loc, w)
      | _ =>
          let o := prog_step p (hd idle ins) loc w in
          drive n' o.1.1 (tl ins) o.1.2 o.2
      end
  end.

(* ===================================================================== *)
(** * Further pieces and predicates *)
(* ===================================================================== *)

(** [Extend] from its update on (lines 215-219); [t] is what [now()]
    returned. *)
Definition extend_update (m : Mutex) (l : Lease) (t : time.Time)
    : Prog (option error) :=
  r ← Update (lease m) (with_spec l (renew_spec t (Spec l)));
  match r with
  | Fail err => mret (Some (ErrExtendUpdate err))
  | Ok _ => mret None
  end.

(** [Extend] from its reading of the clock on (lines 212-219). *)
Definition extend_renew (m : Mutex) (l : Lease) : Prog (option error) :=
  t ← now;
  extend_update m l t.

(** Where an [Extend] call can be: at its start, about to read the clock
    or about to submit the update of a lease it fetched and found to be
    its own, or done. *)
Inductive extend_at (m : Mutex) (w : World) : Prog Ctl → Prop :=
| ea_start : extend_at m w (entry (once (Extend m)))
| ea_renew l :
    fresh m l w → HolderIdentity (Spec l) = Some (uniqueID m) →
    extend_at m w (e ← extend_renew m l; mret (Return e))
| ea_update l t :
    fresh m l w → HolderIdentity (Spec l) = Some (uniqueID m) →
    t <= clock w →
    extend_at m w (e ← extend_update m l t; mret (Return e))
| ea_return e : extend_at m w (Ret (Return e)).

Definition extend_ok (w : World) (t : Thread) : Prop :=
  ∀ m, routine t = once (Extend m) → extend_at m w (code t).

(** The lease is held, with its duration and acquire time set, and
    expires at [e]. *)
Definition held_until (s : LeaseSpec) (e : time.Time) : Prop :=
  ∃ h dur acq,
    HolderIdentity s = Some h ∧ LeaseDurationSeconds s = Some dur ∧
    AcquireTime s = Some acq ∧ e = lease_expiry dur acq (RenewTime s).

(** The errors [lock] has [return] statements for. *)
Definition lock_error (m : Mutex) (e : error) : Prop :=
  match e with
  | ErrCreateLease ns n cause =>
      ns = namespace m ∧ n = name m ∧ IsAlreadyExists cause = false
  | ErrGetLease ns n _ => ns = namespace m ∧ n = name m
  | ErrNoDuration => True
  | ErrContext _ => True
  | _ => False
  end.

(** The three methods of a mutex, as routines. *)
Definition method_of (m : Mutex) (r : Routine) : Prop :=
  r = Lock m ∨ r = once (Extend m) ∨ r = once (Unlock m).

(** Bob's process has a second lock, under another name. *)
Definition bob_other : Mutex :=
  NewMutex (New "default" "host-b" "77c2") "another-lock".

(** No call to the store fails for a reason of its own. *)
Definition faultless (ins : list Input) : Prop :=
  Forall (fun i => fault i = None) ins.

(** A record that names a holder has a duration and an acquire time. *)
Definition well_formed (s : LeaseSpec) : Prop :=
  HolderIdentity s ≠ None →
  LeaseDurationSeconds s ≠ None ∧ AcquireTime s ≠ None.

Definition store_well_formed (w : World) : Prop :=
  ∀ k rec, leases w !! k = Some rec → well_formed (s_spec rec).

(** Every call is a method of some mutex. *)
Definition only_methods (calls : list (Routine * Local)) : Prop :=
  ∀ tid r loc, calls !! tid = Some (r, loc) → ∃ m, method_of m r.

(* ===================================================================== *)
(** * Properties *)
(* ===================================================================== *)

#[local] Set Warnings "-clear-no-such-hyp".

(** ** The store's calls *)

Lemma get_result_Ok ns n f w l :
  get_result ns n f w = Ok l ↔
  f = None ∧ ∃ s, leases w !! (ns, n) = Some s ∧ l = lease_of ns n s.
Proof.
  unfold get_result. destruct f; [naive_solver|].
  destruct (leases w !! (ns, n)); naive_solver.
Qed.

Lemma get_result_Fail ns n f w e :
  get_result ns n f w = Fail e →
  f ≠ None ∨ leases w !! (ns, n) = None.
Proof.
  unfold get_result. destruct f; [naive_solver|].
  destruct (leases w !! (ns, n)); naive_solver.
Qed.

Lemma update_result_Ok ns l f w l' :
  update_result ns l f w = Ok l' ↔
  f = None ∧ ∃ s, leases w !! (ns, Name (Meta l)) = Some s ∧
    s_version s = ResourceVersion (Meta l) ∧
    l' = in_namespace ns (set_version l (N.succ (s_version s))).
Proof.
  unfold update_result. destruct f; [naive_solver|].
  destruct (leases w !! (ns, Name (Meta l))) as [s|]; [|naive_solver].
  destruct (decide _); naive_solver.
Qed.

Lemma create_result_Ok ns l f w l' :
  create_result ns l f w = Ok l' ↔
  f = None ∧ leases w !! (ns, Name (Meta l)) = None ∧
  l' = in_namespace ns (set_version l 1).
Proof.
  unfold create_result. destruct f; [naive_solver|].
  destruct (leases w !! (ns, Name (Meta l))); naive_solver.
Qed.

Lemma updates_app l1 l2 : updates (l1 ++ l2) = updates l1 ++ updates l2.
Proof. unfold updates. apply omap_app. Qed.

(** ** Time and versions only move forward *)

Lemma advances_refl w : advances w w.
Proof. split; [lia|]. intros k s Hk. exists s. auto. Qed.

Lemma advances_trans w1 w2 w3 :
  advances w1 w2 → advances w2 w3 → advances w1 w3.
Proof.
  intros [Hc1 H1] [Hc2 H2]. split; [lia|].
  intros k s Hk. destruct (H1 k s Hk) as (s' & Hk' & Hs').
  destruct (H2 k s' Hk') as (s'' & Hk'' & Hs''). exists s''. split; [done|].
  destruct Hs' as [->|Hlt], Hs'' as [->|Hlt']; auto; right; lia.
Qed.

Lemma advances_same_leases w w' :
  leases w' = leases w → clock w <= clock w' → advances w w'.
Proof.
  intros Hl Hc. split; [done|]. intros k s Hk. exists s. rewrite Hl. auto.
Qed.

Lemma arrive_clock i w : clock w <= clock (arrive i w).
Proof. simpl. lia. Qed.

Lemma commit_advances ns r w f l :
  (r = create_result ns l f w ∨ r = update_result ns l f w) →
  advances w (commit ns r w).
Proof.
  intros Hr. destruct r as [l'|e]; simpl; [|apply advances_refl].
  split; [simpl; lia|]. intros k s Hk. simpl.
  destruct (decide (k = (ns, Name (Meta l')))) as [->|Hne].
  - rewrite lookup_insert_eq. eexists; split; [done|].
    destruct Hr as [Hr|Hr]; symmetry in Hr.
    + apply create_result_Ok in Hr as (_ & Hnone & ->). simpl in Hk. congruence.
    + apply update_result_Ok in Hr as (_ & s0 & Hs0 & Hv & ->). simpl in *.
      right. assert (s0 = s) as -> by congruence. lia.
  - rewrite lookup_insert_ne by done. eauto.
Qed.

Lemma prog_step_advances {A} (p : Prog A) i loc w :
  advances w (prog_step p i loc w).2.
Proof.
  destruct p; simpl; try apply advances_refl.
  - eapply advances_trans; [|eapply advances_trans];
      [| |eapply (commit_advances client (create_result client l (fault i) (arrive i w)) _ (fault i) l)].
    + apply (advances_same_leases w (arrive i w)); [done|apply arrive_clock].
    + apply advances_same_leases; simpl; [done|lia].
    + left. reflexivity.
  - apply advances_same_leases; simpl; [done|lia].
  - eapply advances_trans; [|eapply advances_trans];
      [| |eapply (commit_advances client (update_result client l (fault i) (arrive i w)) _ (fault i) l)].
    + apply (advances_same_leases w (arrive i w)); [done|apply arrive_clock].
    + apply advances_same_leases; simpl; [done|lia].
    + right. reflexivity.
  - apply advances_same_leases; simpl; [done|lia].
  - unfold on_sleep. destruct (fire i (ctx loc)); simpl;
      apply advances_same_leases; simpl; try done; lia.
  - apply advances_same_leases; simpl; [done|lia].
Qed.

Lemma thread_step_advances i t w : advances w (thread_step i t w).2.
Proof. unfold thread_step. simpl. apply prog_step_advances. Qed.

Lemma held_at_later s t t' : t <= t' → held_at s t = false → held_at s t' = false.
Proof.
  unfold held_at, time.After. intros Ht.
  destruct (HolderIdentity s), (LeaseDurationSeconds s), (AcquireTime s); try done.
  rewrite !Z.ltb_ge. lia.
Qed.

Lemma fresh_advances m l w w' : advances w w' → fresh m l w → fresh m l w'.
Proof.
  intros [_ Hadv] [Hn (s & Hs & Hv)]. split; [done|].
  destruct (Hadv _ _ Hs) as (s' & Hs' & Hs2). exists s'. split; [done|].
  destruct Hs2 as [->|Hlt]; [done|].
  left. destruct Hv as [Hv|[Hv _]]; lia.
Qed.

Lemma lock_at_advances m w w' loc p :
  advances w w' → lock_at m w loc p → lock_at m w' loc p.
Proof.
  intros Hadv Hat. destruct Hat; try (constructor; done).
  - constructor. by eapply fresh_advances.
  - constructor; [by eapply fresh_advances|].
    eapply held_at_later; [apply Hadv|done].
  - constructor; [by eapply fresh_advances|].
    eapply held_at_later; [apply Hadv|done].
Qed.

(** ** A [lock] call, step by step *)

Lemma fresh_fetched m s w i a :
  leases w !! key m = Some s →
  fresh m (lease_of (lease m) (name m) s) (record (arrive i w) a).
Proof.
  intros Hs. split; [done|]. exists s. split; [done|]. right. done.
Qed.

Lemma lock_step_at m w i t :
  routine t = lock m → lock_at m w (local t) (code t) →
  lock_at m (thread_step i t w).2 (local (thread_step i t w).1)
    (code (thread_step i t w).1).
Proof.
  intros Hr Hat. unfold thread_step, resume. rewrite Hr.
  assert (Hadv := @prog_step_advances Ctl).
  remember (code t) as p eqn:Hp. clear Hp.
  destruct Hat as [ | | |l Hf|l Hf Hh|l tc Hf Hh| | |Hx|e]; simpl.
  - destruct (create_result _ _ _ _) as [l'|e]; simpl; [constructor|].
    destruct (IsAlreadyExists e); constructor.
  - destruct (fire i (ctx (local t))); constructor.
  - destruct (get_result _ _ _ _) as [l|e] eqn:Hg; simpl; [|constructor].
    apply get_result_Ok in Hg as (_ & s & Hs & ->).
    constructor. by apply fresh_fetched.
  - specialize (Hadv (lock_fetched m l) i (local t) w).
    unfold lock_fetched in *. unfold held_at in *.
    destruct (HolderIdentity (Spec l)) as [h|] eqn:Hh.
    + destruct (LeaseDurationSeconds (Spec l)) as [dur|] eqn:Hd;
        [destruct (AcquireTime (Spec l)) as [acq|] eqn:Ha|]; simpl in *;
        try constructor.
      destruct (time.After _ _) eqn:Hafter; [constructor|].
      constructor; [by eapply fresh_advances|].
      unfold held_at. by rewrite Hh, Hd, Ha.
    + simpl in *. constructor; [by eapply fresh_advances|].
      unfold held_at. by rewrite Hh.
  - specialize (Hadv (lock_claim m l) i (local t) w). simpl in Hadv.
    constructor; [by eapply fresh_advances|].
    eapply held_at_later; [|done]. simpl. lia.
  - destruct (update_result _ _ _ _); constructor.
  - unfold on_sleep. destruct (fire i (ctx (local t))); simpl; constructor.
  - destruct (fire i (ctx (local t))); constructor. done.
  - constructor.
  - constructor.
Qed.

Lemma lock_step_lands m w i t rec :
  routine t = lock m → lock_at m w (local t) (code t) →
  leases w !! key m = Some rec →
  leases (thread_step i t w).2 !! key m ≠ Some rec →
  held_at (s_spec rec) (clock (thread_step i t w).2) = false.
Proof.
  intros Hr Hat Hrec. unfold thread_step, resume. rewrite Hr.
  remember (code t) as p eqn:Hp. clear Hp.
  destruct Hat as [ | | |l Hf|l Hf Hh|l tc Hf Hh| | |Hx|e]; simpl;
    try (intros Hne; exfalso; by apply Hne).
  - destruct (create_result _ _ _ _) as [l'|e] eqn:Hc; simpl;
      [|intros Hne; exfalso; by apply Hne].
    apply create_result_Ok in Hc as (_ & Hnone & _). simpl in Hnone.
    unfold key in Hrec. congruence.
  - unfold lock_fetched.
    destruct (HolderIdentity (Spec l)); simpl;
      [destruct (LeaseDurationSeconds (Spec l));
         [destruct (AcquireTime (Spec l))|]|]; simpl;
      intros Hne; exfalso; by apply Hne.
  - destruct Hf as [Hn (s & Hs & Hv)].
    destruct (update_result _ _ _ _) as [l'|e] eqn:Hu; simpl;
      [|intros Hne; exfalso; by apply Hne].
    intros _.
    apply update_result_Ok in Hu as (_ & s0 & Hs0 & Hv0 & _). simpl in *.
    rewrite Hn in Hs0. unfold key in *.
    assert (s0 = rec) as -> by congruence.
    assert (s = rec) as -> by congruence.
    destruct Hv as [Hv|[_ Hv]]; [lia|]. rewrite Hv.
    eapply held_at_later; [|done]. lia.
  - unfold on_sleep. destruct (fire i (ctx (local t))); simpl;
      intros Hne; exfalso; by apply Hne.
Qed.

(** The only step by which a [lock] call gets past the loop with its
    token live is an update that the store accepted. *)
Lemma lock_step_won m w i t :
  routine t = lock m → lock_at m w (local t) (code t) →
  won (thread_step i t w).1 →
  won t ∨ claim_landed m w (thread_step i t w).2.
Proof.
  intros Hr Hat. unfold won, returned, thread_step, resume. rewrite Hr.
  destruct Hat as [ | | |l Hf|l Hf Hh|l tc Hf Hh| | |Hx|e]; simpl.
  - destruct (create_result _ _ _ _) as [l'|e]; simpl;
      [|destruct (IsAlreadyExists e)]; intros [[? ?]|?]; done.
  - destruct (fire i (ctx (local t))); intros [[? ?]|?]; done.
  - destruct (get_result _ _ _ _) as [l|e]; simpl; [|intros [[? ?]|?]; done].
    unfold lock_fetched.
    destruct (HolderIdentity (Spec l)); simpl;
      [destruct (LeaseDurationSeconds (Spec l));
         [destruct (AcquireTime (Spec l))|]|]; simpl;
      intros [[? ?]|?]; done.
  - unfold lock_fetched.
    destruct (HolderIdentity (Spec l)); simpl;
      [destruct (LeaseDurationSeconds (Spec l));
         [destruct (AcquireTime (Spec l));
            [simpl; destruct (time.After _ _)|]|]|]; simpl;
      intros [[? ?]|?]; done.
  - intros [[? ?]|?]; done.
  - destruct Hf as [Hn (s & Hs & Hv)].
    destruct (update_result _ _ _ _) as [l'|e] eqn:Hu; simpl;
      [|intros [[? ?]|?]; done].
    intros _. right.
    pose proof Hu as Hu'.
    apply update_result_Ok in Hu' as (_ & s0 & Hs0 & Hv0 & Hl'). simpl in *.
    rewrite Hn in Hs0. unfold key in *.
    assert (s0 = s) as -> by congruence.
    destruct Hv as [Hv|[_ Hv]]; [lia|].
    exists s, (stored_of l'). split_and!; try done.
    + rewrite Hv. eapply held_at_later; [|done]. simpl. lia.
    + subst l'. simpl. rewrite Hn. by rewrite lookup_insert_eq.
    + by subst l'.
    + by subst l'.
    + subst l'. simpl. rewrite Hv. by destruct (LeaseTransitions (Spec l)).
  - unfold on_sleep. destruct (fire i (ctx (local t))); simpl;
      intros [[? ?]|?]; done.
  - destruct (ctx (local t)) as [c|] eqn:Hctx; simpl.
    + intros [[? ?]|?]; done.
    + intros _. left. by left.
  - destruct (ctx (local t)) as [c|] eqn:Hctx; [|done]. simpl.
    intros [[? ?]|?]; done.
  - intros Hw. by left.
Qed.

(** A [lock] call that finds the lease held and unexpired goes to sleep
    and leaves the store as it is. *)
Lemma lock_step_held m w i t l :
  code t = lock_fetched m l →
  held_at (Spec l) (clock (arrive i w)) = true →
  code (thread_step i t w).1 = lock_retry m ∧
  leases (thread_step i t w).2 = leases w ∧
  actions (thread_step i t w).2 = actions w.
Proof.
  intros Hc Hheld. unfold thread_step, resume. rewrite Hc.
  unfold lock_fetched, held_at in *.
  destruct (HolderIdentity (Spec l)); [|done].
  destruct (LeaseDurationSeconds (Spec l)); [|done].
  destruct (AcquireTime (Spec l)); [|done].
  simpl in *. by rewrite Hheld.
Qed.

(** A sleeping [lock] call whose token is live wakes up at the head of the
    loop. *)
Lemma lock_step_retry m w i t :
  code t = lock_retry m → fire i (ctx (local t)) = None →
  code (thread_step i t w).1 = Ret Continue ∧
  leases (thread_step i t w).2 = leases w.
Proof.
  intros Hc Hfire. unfold thread_step, resume. rewrite Hc.
  unfold lock_retry. simpl. unfold on_sleep. by rewrite Hfire.
Qed.

(** ** An [Unlock] call, step by step *)

Lemma unlock_at_advances m w w' p :
  advances w w' → unlock_at m w p → unlock_at m w' p.
Proof.
  intros Hadv Hat. destruct Hat; try (constructor; fail).
  constructor; [by eapply fresh_advances|done].
Qed.

Lemma unlock_step_at m w i t :
  routine t = once (Unlock m) → unlock_at m w (code t) →
  unlock_at m (thread_step i t w).2 (code (thread_step i t w).1).
Proof.
  intros Hr Hat. unfold thread_step, resume.
  remember (code t) as p eqn:Hp. clear Hp.
  destruct Hat as [|l Hf Hh|e]; simpl.
  - destruct (get_result _ _ _ _) as [l|e] eqn:Hg; simpl; [|constructor].
    apply get_result_Ok in Hg as (_ & s & Hs & ->). simpl.
    destruct (HolderIdentity (s_spec s)) as [h|] eqn:Hh; simpl; [|constructor].
    destruct (decide (h ≠ uniqueID m)) as [|Heq]; simpl; [constructor|].
    apply dec_stable in Heq. subst h.
    apply (ua_update m _ (lease_of (lease m) (name m) s));
      [by apply fresh_fetched|done].
  - destruct (update_result _ _ _ _); constructor.
  - constructor.
Qed.

Lemma unlock_step_lands m w i t rec :
  unlock_at m w (code t) →
  leases w !! key m = Some rec →
  leases (thread_step i t w).2 !! key m ≠ Some rec →
  HolderIdentity (s_spec rec) = Some (uniqueID m).
Proof.
  intros Hat Hrec. unfold thread_step, resume.
  remember (code t) as p eqn:Hp. clear Hp.
  destruct Hat as [|l [Hn (s & Hs & Hv)] Hh|e]; simpl;
    try (intros Hne; exfalso; by apply Hne).
  destruct (update_result _ _ _ _) as [l'|e] eqn:Hu; simpl;
    [|intros Hne; exfalso; by apply Hne].
  intros _.
  apply update_result_Ok in Hu as (_ & s0 & Hs0 & Hv0 & _). simpl in *.
  rewrite Hn in Hs0. unfold key in *.
  assert (s0 = rec) as -> by congruence.
  assert (s = rec) as -> by congruence.
  destruct Hv as [Hv|[_ Hv]]; [lia|]. by rewrite Hv.
Qed.

(** ** Several calls at once *)

Lemma exec_app evs1 evs2 s : exec (evs1 ++ evs2) s = exec evs2 (exec evs1 s).
Proof. unfold exec. apply foldl_app. Qed.

(** A thread keeps the routine it was started with. *)
Lemma exec_routine w calls evs tid c :
  calls !! tid = Some c →
  ∃ t, threads (exec evs (boot w calls)) !! tid = Some t ∧ routine t = c.1.
Proof.
  intros Hcall. induction evs as [|ev evs IH] using rev_ind.
  - exists (spawn c.1 c.2). split; [|reflexivity]. simpl.
    by rewrite list_lookup_fmap, Hcall.
  - destruct IH as (t0 & Ht0 & Hr0). rewrite exec_app. simpl.
    unfold sys_step.
    destruct (threads (exec evs (boot w calls)) !! ev.1) as [t1|] eqn:Ht1;
      [|eauto].
    simpl. destruct (decide (tid = ev.1)) as [->|Hne].
    + rewrite list_lookup_insert_eq by (by eapply lookup_lt_Some).
      eexists. split; [done|]. simpl. congruence.
    + rewrite list_lookup_insert_ne by done. eauto.
Qed.

Section Invariant.
(** A property of a thread in a world that holds when the thread
    starts, survives the thread's own steps, and survives whatever
    else happens to the world, holds of every thread at all times. *)
Variable I : World → Thread → Prop.
Hypothesis I_spawn : ∀ w r loc, I w (spawn r loc).
Hypothesis I_step : ∀ w i t, I w t → I (thread_step i t w).2 (thread_step i t w).1.
Hypothesis I_advances : ∀ w w' t, advances w w' → I w t → I w' t.

Definition all_threads (s : System) : Prop :=
  ∀ tid t, threads s !! tid = Some t → I (world s) t.

Lemma boot_inv w calls : all_threads (boot w calls).
Proof.
  intros tid t Ht. simpl in Ht. rewrite list_lookup_fmap in Ht.
  destruct (calls !! tid) as [c|]; [|done]. simpl in Ht.
  injection Ht as <-. apply I_spawn.
Qed.

Lemma sys_step_inv s ev : all_threads s → all_threads (sys_step s ev).
Proof.
  intros Hok. unfold sys_step.
  destruct (threads s !! ev.1) as [t0|] eqn:Ht0; [|done].
  intros tid t Ht. simpl in *.
  destruct (decide (tid = ev.1)) as [->|Hne].
  - rewrite list_lookup_insert_eq in Ht by (by eapply lookup_lt_Some).
    injection Ht as <-. apply I_step. by eapply Hok.
  - rewrite list_lookup_insert_ne in Ht by done.
    eapply I_advances; [apply thread_step_advances|]. by eapply Hok.
Qed.

Lemma exec_inv evs s : all_threads s → all_threads (exec evs s).
Proof.
  revert s. induction evs as [|ev evs IH]; intros s Hok; [done|].
  simpl. apply IH. by apply sys_step_inv.
Qed.
End Invariant.

Lemma lock_ok_always w calls evs :
  all_threads lock_ok (exec evs (boot w calls)).
Proof.
  apply exec_inv, boot_inv.
  - intros w0 i t Hok m Hr. apply lock_step_at; [done|]. by apply Hok.
  - intros w0 w' t Hadv Hok m Hr. eapply lock_at_advances; [done|]. by apply Hok.
  - intros w0 r loc m Hr. simpl in *. rewrite Hr. constructor.
Qed.

Lemma unlock_ok_always w calls evs :
  all_threads unlock_ok (exec evs (boot w calls)).
Proof.
  apply exec_inv, boot_inv.
  - intros w0 i t Hok m Hr. apply unlock_step_at; [done|]. by apply Hok.
  - intros w0 w' t Hadv Hok m Hr. eapply unlock_at_advances; [done|].
    by apply Hok.
  - intros w0 r loc m Hr. simpl in *. rewrite Hr. constructor.
Qed.

(** A [Lock] that is past its loop with its token live got there by an
    update that the store accepted, at some step of its own. *)
Lemma exec_won w calls evs tid m loc t :
  calls !! tid = Some (Lock m, loc) →
  threads (exec evs (boot w calls)) !! tid = Some t → won t →
  ∃ evs1 j evs2, evs = evs1 ++ (tid, j) :: evs2 ∧
    claim_landed m (world (exec evs1 (boot w calls)))
      (world (sys_step (exec evs1 (boot w calls)) (tid, j))).
Proof.
  intros Hcall. revert t.
  induction evs as [|ev evs IH] using rev_ind; intros t Ht Hwon.
  - simpl in Ht. rewrite list_lookup_fmap, Hcall in Ht.
    injection Ht as <-. by destruct Hwon as [[? ?]|?].
  - rewrite exec_app in Ht. simpl in Ht.
    assert (Hkeep : ∀ t0, threads (exec evs (boot w calls)) !! tid = Some t0 →
              won t0 →
              ∃ evs1 j evs2, evs ++ [ev] = evs1 ++ (tid, j) :: evs2 ∧
                claim_landed m (world (exec evs1 (boot w calls)))
                  (world (sys_step (exec evs1 (boot w calls)) (tid, j)))).
    { intros t0 Ht0 Hw0.
      destruct (IH t0 Ht0 Hw0) as (evs1 & j & evs2 & -> & Hl).
      exists evs1, j, (evs2 ++ [ev]). split; [|done].
      by rewrite <- app_assoc. }
    unfold sys_step in Ht.
    destruct (threads (exec evs (boot w calls)) !! ev.1) as [t1|] eqn:Ht1;
      [|by eapply Hkeep].
    simpl in Ht. destruct (decide (tid = ev.1)) as [->|Hne].
    + rewrite list_lookup_insert_eq in Ht by (by eapply lookup_lt_Some).
      injection Ht as <-.
      destruct (exec_routine w calls evs ev.1 _ Hcall) as (t0 & Ht0 & Hr0).
      rewrite Ht1 in Ht0. injection Ht0 as <-. simpl in Hr0.
      destruct (lock_step_won m (world (exec evs (boot w calls))) ev.2 t1 Hr0)
        as [Hw|Hl]; [|done|by eapply Hkeep|].
      { eapply lock_ok_always; eauto. }
      exists evs, ev.2, []. split; [by destruct ev|].
      unfold sys_step. simpl. by rewrite Ht1.
    + rewrite list_lookup_insert_ne in Ht by done. by eapply Hkeep.
Qed.

(** ** The two semantics agree *)

Lemma drive_run {A} (p : Prog A) ins loc w :
  ∃ n, drive n p ins loc w
       = (Ret (run p ins loc w).1.1.1, (run p ins loc w).1.1.2,
          (run p ins loc w).1.2, (run p ins loc w).2).
Proof.
  revert ins loc w.
  induction p as [a|c l k IH|c n k IH|c l k IH|k IH|d k IH|k IH];
    intros ins loc w.
  - exists 0%nat. reflexivity.
  - destruct (IH (on_create c l (hd idle ins) loc w).1.1 (tl ins)
                (on_create c l (hd idle ins) loc w).1.2
                (on_create c l (hd idle ins) loc w).2) as [n Hn].
    exists (S n). exact Hn.
  - destruct (IH (on_get c n (hd idle ins) loc w).1.1 (tl ins)
                (on_get c n (hd idle ins) loc w).1.2
                (on_get c n (hd idle ins) loc w).2) as [k' Hn].
    exists (S k'). exact Hn.
  - destruct (IH (on_update c l (hd idle ins) loc w).1.1 (tl ins)
                (on_update c l (hd idle ins) loc w).1.2
                (on_update c l (hd idle ins) loc w).2) as [n Hn].
    exists (S n). exact Hn.
  - destruct (IH (on_now (hd idle ins) loc w).1.1 (tl ins)
                (on_now (hd idle ins) loc w).1.2
                (on_now (hd idle ins) loc w).2) as [n Hn].
    exists (S n). exact Hn.
  - destruct (IH (on_sleep d (hd idle ins) loc w).1.1 (tl ins)
                (on_sleep d (hd idle ins) loc w).1.2
                (on_sleep d (hd idle ins) loc w).2) as [n Hn].
    exists (S n). exact Hn.
  - destruct (IH (on_ctx_err (hd idle ins) loc w).1.1 (tl ins)
                (on_ctx_err (hd idle ins) loc w).1.2
                (on_ctx_err (hd idle ins) loc w).2) as [n Hn].
    exists (S n). exact Hn.
Qed.

(** ** The pieces of [lock], run alone *)

Lemma run_lock_exit_err ins loc w :
  run lock_exit_err ins loc w =
  let o := on_ctx_err (hd idle ins) loc w in
  (Return (ErrContext <$> o.1.1), tl ins, o.1.2, o.2).
Proof. reflexivity. Qed.

Lemma run_lock_exit ins loc w :
  run lock_exit ins loc w =
  let o := on_ctx_err (hd idle ins) loc w in
  match o.1.1 with
  | Some _ => run lock_exit_err (tl ins) o.1.2 o.2
  | None => (Return None, tl ins, o.1.2, o.2)
  end.
Proof.
  unfold lock_exit. simpl. by destruct (fire (hd idle ins) (ctx loc)).
Qed.

Lemma run_lock_retry m ins loc w :
  run (lock_retry m) ins loc w =
  let o := on_sleep (retryDur m) (hd idle ins) loc w in
  (match o.1.1 with
   | Some c => Return (Some (ErrContext c))
   | None => Continue
   end, tl ins, o.1.2, o.2).
Proof.
  unfold lock_retry. simpl.
  by destruct (on_sleep (retryDur m) (hd idle ins) loc w).1.1.
Qed.

Lemma run_lock_update m l ins loc w :
  run (lock_update m l) ins loc w =
  let o := on_update (lease m) l (hd idle ins) loc w in
  match o.1.1 with
  | Ok _ => run lock_exit (tl ins) o.1.2 o.2
  | Fail _ => run (lock_retry m) (tl ins) o.1.2 o.2
  end.
Proof.
  unfold lock_update. simpl. by destruct (update_result _ _ _ _).
Qed.

Lemma run_lock_claim m l ins loc w :
  run (lock_claim m l) ins loc w =
  let o := on_now (hd idle ins) loc w in
  run (lock_update m (claim m o.1.1 l)) (tl ins) o.1.2 o.2.
Proof. reflexivity. Qed.

Lemma run_lock_fetched m l ins loc w :
  run (lock_fetched m l) ins loc w =
  match HolderIdentity (Spec l) with
  | Some _ =>
      match LeaseDurationSeconds (Spec l), AcquireTime (Spec l) with
      | Some dur, Some acq =>
          let o := on_now (hd idle ins) loc w in
          if time.After (lease_expiry dur acq (RenewTime (Spec l))) o.1.1
          then run (lock_retry m) (tl ins) o.1.2 o.2
          else run (lock_claim m l) (tl ins) o.1.2 o.2
      | _, _ => (Return (Some ErrNoDuration), ins, loc, w)
      end
  | None => run (lock_claim m l) ins loc w
  end.
Proof.
  unfold lock_fetched.
  destruct (HolderIdentity (Spec l)); [|done].
  destruct (LeaseDurationSeconds (Spec l)); [|done].
  destruct (AcquireTime (Spec l)); [|done].
  simpl. by destruct (time.After _ _).
Qed.

Lemma run_lock_get m ins loc w :
  run (lock_get m) ins loc w =
  let o := on_get (lease m) (name m) (hd idle ins) loc w in
  match o.1.1 with
  | Ok l => run (lock_fetched m l) (tl ins) o.1.2 o.2
  | Fail err =>
      (Return (Some (ErrGetLease (namespace m) (name m) err)),
       tl ins, o.1.2, o.2)
  end.
Proof.
  unfold lock_get. simpl. by destruct (get_result _ _ _ _).
Qed.

Lemma run_lock_iter m ins loc w :
  run (lock_iter m) ins loc w =
  let o := on_ctx_err (hd idle ins) loc w in
  match o.1.1 with
  | Some _ => run lock_exit (tl ins) o.1.2 o.2
  | None => run (lock_get m) (tl ins) o.1.2 o.2
  end.
Proof.
  unfold lock_iter. simpl. by destruct (fire (hd idle ins) (ctx loc)).
Qed.

Lemma run_lock_create m ins loc w :
  run (lock_create m) ins loc w =
  let o := on_create (lease m) (new_lease m) (hd idle ins) loc w in
  (match o.1.1 with
   | Ok _ => Continue
   | Fail err =>
       if IsAlreadyExists err then Continue
       else Return (Some (ErrCreateLease (namespace m) (name m) err))
   end, tl ins, o.1.2, o.2).
Proof.
  unfold lock_create. simpl.
  destruct (create_result _ _ _ _) as [|e]; [done|].
  by destruct (IsAlreadyExists e).
Qed.

#[local] Opaque lock_exit lock_exit_err lock_retry lock_update lock_claim
  lock_fetched lock_get lock_iter lock_create.

Lemma claimable_later s t t' : t <= t' → claimable s t → claimable s t'.
Proof.
  unfold claimable. intros Ht.
  destruct (HolderIdentity s); [|done].
  destruct (LeaseDurationSeconds s); [|done].
  destruct (AcquireTime s); [|done]. lia.
Qed.

Lemma lock_exit_post ins loc w :
  let o := run lock_exit ins loc w in
  leases o.2 = leases w ∧ actions o.2 = actions w ∧ clock w <= clock o.2 ∧
  o.1.1.1 = Return (ErrContext <$> fire (hd idle ins) (ctx loc)).
Proof.
  rewrite run_lock_exit. simpl.
  destruct (fire (hd idle ins) (ctx loc)) as [c|] eqn:Hfire; simpl.
  - rewrite run_lock_exit_err. simpl. split_and!; try done; lia.
  - split_and!; try done; lia.
Qed.

Lemma lock_retry_post m ins loc w :
  let o := run (lock_retry m) ins loc w in
  leases o.2 = leases w ∧ actions o.2 = actions w ∧ clock w <= clock o.2 ∧
  o.1.1.1 = match fire (hd idle ins) (ctx loc) with
            | Some c => Return (Some (ErrContext c))
            | None => Continue
            end.
Proof.
  rewrite run_lock_retry. unfold on_sleep. simpl.
  destruct (fire (hd idle ins) (ctx loc)) as [c|] eqn:Hfire; simpl;
    split_and!; try done; lia.
Qed.

Lemma lock_update_post m l ins loc w :
  Name (Meta l) = name m →
  let o := run (lock_update m l) ins loc w in
  clock w <= clock o.2 ∧
  updates (actions o.2) = updates (actions w) ++ [l] ∧
  ((∃ s, leases w !! key m = Some s ∧
         s_version s = ResourceVersion (Meta l) ∧
         fault (hd idle ins) = None ∧
         leases o.2 =
           <[key m := {| s_labels := Labels (Meta l);
                         s_version := N.succ (s_version s);
                         s_spec := Spec l |}]> (leases w) ∧
         o.1.1.1 = Return (ErrContext <$>
                     fire (hd idle (tl ins)) (fire (hd idle ins) (ctx loc)))) ∨
   (leases o.2 = leases w ∧
    o.1.1.1 = match fire (hd idle (tl ins)) (fire (hd idle ins) (ctx loc)) with
              | Some c => Return (Some (ErrContext c))
              | None => Continue
              end)).
Proof.
  intros Hn. rewrite run_lock_update. simpl.
  destruct (update_result _ _ _ _) as [l'|e] eqn:Hu; simpl.
  - apply update_result_Ok in Hu as (Hf & s & Hs & Hv & ->). simpl in Hs.
    rewrite Hn in Hs.
    destruct (lock_exit_post (tl ins)
      (at_time (fire (hd idle ins) (ctx loc))
         (set_leases (record (arrive (hd idle ins) w) (ActUpdate (lease m) l))
            (<[(lease m, Name (Meta l)) :=
                 stored_of (in_namespace (lease m)
                    (set_version l (N.succ (s_version s))))]> (leases w))))
      (set_leases (record (arrive (hd idle ins) w) (ActUpdate (lease m) l))
            (<[(lease m, Name (Meta l)) :=
                 stored_of (in_namespace (lease m)
                    (set_version l (N.succ (s_version s))))]> (leases w))))
      as (Hl & Ha & Hc & Hr).
    simpl in *. split; [lia|]. split.
    { rewrite Ha, updates_app. done. }
    left. exists s. rewrite Hl, Hr, Hn. done.
  - destruct (lock_retry_post m (tl ins)
      (at_time (fire (hd idle ins) (ctx loc))
         (record (arrive (hd idle ins) w) (ActUpdate (lease m) l)))
      (record (arrive (hd idle ins) w) (ActUpdate (lease m) l)))
      as (Hl & Ha & Hc & Hr).
    simpl in *. split; [lia|]. split.
    { rewrite Ha, updates_app. done. }
    right. rewrite Hl, Hr. done.
Qed.

Lemma lock_claim_post m s ins loc w :
  leases w !! key m = Some s →
  claimable (s_spec s) (clock w) →
  claims_or_not m w (run (lock_claim m (lease_of (lease m) (name m) s)) ins loc w).
Proof.
  intros Hs Hh. rewrite run_lock_claim. simpl.
  set (t := clock w + Z.of_N (elapsed (hd idle ins))).
  destruct (lock_update_post m (claim m t (lease_of (lease m) (name m) s))
    (tl ins) (at_time (fire (hd idle ins) (ctx loc)) (arrive (hd idle ins) w))
    (arrive (hd idle ins) w)) as (Hc & _ & Hcases); [done|].
  simpl in Hc. split; [lia|].
  destruct Hcases as [(s0 & Hs0 & Hv & Hf & Hl & Hr)|[Hl Hr]].
  - right. simpl in Hs0. assert (s0 = s) as -> by congruence.
    exists s, t. split.
    + split_and!; [done| |lia|lia|done].
      eapply claimable_later; [|exact Hh]. lia.
    + rewrite Hr.
      match goal with |- context [ErrContext <$> ?x] => destruct x end;
        simpl; [right; eauto|left; done].
  - left. split; [done|]. rewrite Hr.
    match goal with |- context [match ?x with _ => _ end] => by destruct x end.
Qed.

Lemma lock_fetched_post m s ins loc w :
  leases w !! key m = Some s →
  claims_or_not m w
    (run (lock_fetched m (lease_of (lease m) (name m) s)) ins loc w).
Proof.
  intros Hs. rewrite run_lock_fetched. simpl.
  destruct (HolderIdentity (s_spec s)) as [h|] eqn:Hh.
  - destruct (LeaseDurationSeconds (s_spec s)) as [dur|] eqn:Hd;
      [destruct (AcquireTime (s_spec s)) as [acq|] eqn:Ha|];
      try (split; simpl; [lia|left; done]).
    destruct (time.After _ _) eqn:Hafter.
    + destruct (lock_retry_post m (tl ins)
        (at_time (fire (hd idle ins) (ctx loc)) (arrive (hd idle ins) w))
        (arrive (hd idle ins) w)) as (Hl & _ & Hc & Hr).
      simpl in *. split; [lia|]. left. split; [done|].
      rewrite Hr.
      match goal with |- context [match ?x with _ => _ end] => by destruct x end.
    + destruct (lock_claim_post m s (tl ins)
        (at_time (fire (hd idle ins) (ctx loc)) (arrive (hd idle ins) w))
        (arrive (hd idle ins) w)) as (Hc & Hcases); [done| |].
      { unfold claimable. rewrite Hh, Hd, Ha. simpl.
        unfold time.After in Hafter. apply Z.ltb_ge in Hafter. lia. }
      simpl in Hc. split; [lia|].
      destruct Hcases as [?|(s0 & t & (? & ? & ? & ?) & ?)]; [by left|].
      right. exists s0, t. split; [|done].
      split_and!; try done; simpl in *; try lia.
  - apply lock_claim_post; [done|]. unfold claimable. by rewrite Hh.
Qed.

Lemma lock_iter_post m ins loc w :
  claims_or_not m w (run (lock_iter m) ins loc w).
Proof.
  rewrite run_lock_iter. simpl.
  destruct (fire (hd idle ins) (ctx loc)) as [c|] eqn:Hfire.
  - destruct (lock_exit_post (tl ins) (at_time (Some c) (arrive (hd idle ins) w))
      (arrive (hd idle ins) w)) as (Hl & _ & Hc & Hr).
    simpl in *. split; [lia|]. left. split; [done|]. by rewrite Hr.
  - rewrite run_lock_get. simpl.
    destruct (get_result _ _ _ _) as [l|e] eqn:Hg; simpl.
    + apply get_result_Ok in Hg as (_ & s & Hs & ->). simpl in Hs.
      destruct (lock_fetched_post m s (tl (tl ins))
        (at_time (cancel (hd idle (tl ins)))
           (record (arrive (hd idle (tl ins)) (arrive (hd idle ins) w))
              (ActGet (lease m) (name m))))
        (record (arrive (hd idle (tl ins)) (arrive (hd idle ins) w))
              (ActGet (lease m) (name m)))) as (Hc & Hcases); [done|].
      simpl in Hc. split; [simpl; lia|].
      destruct Hcases as [?|(s0 & t & (? & ? & ? & ?) & ?)]; [by left|].
      right. exists s0, t. split; [|done].
      split_and!; try done; simpl in *; lia.
    + split; simpl; [lia|]. left. done.
Qed.

(** ** The whole loop, and the whole call *)

Lemma claimed_earlier m s t w0 w w' :
  leases w = leases w0 → clock w0 <= clock w →
  claimed m s t w w' → claimed m s t w0 w'.
Proof.
  intros Hl Hc (Hs & Hh & Ht & Hl'). rewrite Hl in Hs, Hl'.
  split_and!; try done; lia.
Qed.

Lemma loop_lock_success fuel m ins loc w ins' loc' w' :
  loop fuel (lock_iter m) ins loc w = (Some None, ins', loc', w') →
  ∃ s t, claimed m s t w w'.
Proof.
  revert ins loc w. induction fuel as [|n IH]; intros ins loc w; [done|].
  simpl. destruct (lock_iter_post m ins loc w) as [Hc Hcases].
  destruct ((run (lock_iter m) ins loc w).1.1.1) as [e|] eqn:Hres.
  - intros [= -> <- <- <-].
    destruct Hcases as [[_ Hne]|(s & t & Hcl & _)]; [done|eauto].
  - intros Hloop. apply IH in Hloop as (s & t & Hcl).
    destruct Hcases as [[Hl _]|(s0 & t0 & _ & [?|[c ?]])]; try done.
    exists s, t. by eapply claimed_earlier.
Qed.

(** What a successful [Lock] leaves in the store. *)
Lemma Lock_success fuel m ins loc w ins' loc' w' :
  call fuel (Lock m) ins loc w = (Some None, ins', loc', w') →
  ∃ t, claimed m (found m w) t
         (set_leases w (<[key m := found m w]> (leases w))) w' ∧
       clock w <= t.
Proof.
  unfold call, Lock, lock. cbn [entry body]. rewrite run_lock_create.
  cbn [fst snd on_create store_create].
  destruct (create_result _ _ _ _) as [l'|e] eqn:Hcr; cbn [commit].
  - apply create_result_Ok in Hcr as (Hf & Hnone & ->). simpl in Hnone.
    intros Hloop. apply loop_lock_success in Hloop as (s & t & Hs & Hh & Ht & Hl).
    simpl in *. unfold key in *. rewrite lookup_insert_eq in Hs.
    injection Hs as <-.
    unfold found, key. rewrite Hnone. simpl.
    exists t. split; [|lia]. split_and!; simpl; try done; try lia.
    by rewrite lookup_insert_eq.
  - destruct (IsAlreadyExists e); [|done].
    intros Hloop. apply loop_lock_success in Hloop as (s & t & Hs & Hh & Ht & Hl).
    simpl in *. unfold found. rewrite Hs. simpl.
    exists t. split; [|lia]. split_and!; simpl; try done; try lia.
    + by rewrite lookup_insert_eq.
    + by rewrite insert_insert_eq.
Qed.

Lemma Lock_success_spec fuel m ins loc w ins' loc' w' :
  call fuel (Lock m) ins loc w = (Some None, ins', loc', w') →
  ∃ t, clock w <= t <= clock w' ∧
       claimable (s_spec (found m w)) t ∧
       spec_of m w' = Some (claim_spec m t (s_spec (found m w))).
Proof.
  intros Hcall. apply Lock_success in Hcall as (t & (Hs & Hh & Ht & Hl) & Hc).
  exists t. simpl in Ht. split; [lia|]. split; [done|].
  unfold spec_of. rewrite Hl. simpl. by rewrite lookup_insert_eq.
Qed.

(** ** [Lock] takes a claimable lease *)

Lemma benign_hd ins : Forall benign ins → benign (hd idle ins).
Proof. intros [|i ins' Hi _]; [done|exact Hi]. Qed.

Lemma benign_tl ins : Forall benign ins → Forall benign (tl ins).
Proof. intros [|i ins' _ H]; [constructor|exact H]. Qed.


Lemma claimable_not_held s t : claimable s t → held_at s t = false.
Proof.
  unfold claimable, held_at, time.After.
  destruct (HolderIdentity s); [|done].
  destruct (LeaseDurationSeconds s); [|done].
  destruct (AcquireTime s); [|done]. intros H. apply Z.ltb_ge. lia.
Qed.

Lemma fire_benign i : benign i → fire i None = None.
Proof. by intros [_ Hc]. Qed.

Lemma lock_exit_result ins loc w :
  (run lock_exit ins loc w).1.1.1
  = Return (ErrContext <$> fire (hd idle ins) (ctx loc)).
Proof. apply lock_exit_post. Qed.

Lemma lock_exit_leases ins loc w : leases (run lock_exit ins loc w).2 = leases w.
Proof. apply lock_exit_post. Qed.

Lemma lock_exit_actions ins loc w :
  actions (run lock_exit ins loc w).2 = actions w.
Proof. apply lock_exit_post. Qed.

Lemma lock_claim_benign m s ins loc w :
  leases w !! key m = Some s → ctx loc = None → Forall benign ins →
  (run (lock_claim m (lease_of (lease m) (name m) s)) ins loc w).1.1.1
  = Return None.
Proof.
  intros Hs Hctx Hb.
  pose proof (benign_hd _ Hb) as H0.
  pose proof (benign_hd _ (benign_tl _ Hb)) as H1.
  pose proof (benign_hd _ (benign_tl _ (benign_tl _ Hb))) as H2.
  rewrite run_lock_claim. cbn [fst snd on_now].
  rewrite run_lock_update. cbn [fst snd on_update store_update].
  unfold update_result. rewrite (proj1 H1). simpl. unfold key in Hs. rewrite Hs.
  rewrite decide_True by done.
  rewrite lock_exit_result. simpl.
  by rewrite Hctx, !fire_benign.
Qed.

Lemma lock_fetched_benign m s ins loc w :
  leases w !! key m = Some s → ctx loc = None → Forall benign ins →
  claimable (s_spec s) (clock w) →
  (run (lock_fetched m (lease_of (lease m) (name m) s)) ins loc w).1.1.1
  = Return None.
Proof.
  intros Hs Hctx Hb Hc. rewrite run_lock_fetched. simpl.
  unfold claimable in Hc.
  destruct (HolderIdentity (s_spec s)) as [h|] eqn:Hh;
    [|by apply lock_claim_benign].
  destruct (LeaseDurationSeconds (s_spec s)) as [dur|] eqn:Hd; [|done].
  destruct (AcquireTime (s_spec s)) as [acq|] eqn:Ha; [|done].
  unfold time.After. rewrite (proj2 (Z.ltb_ge _ _)) by lia.
  apply lock_claim_benign; [done| |by apply benign_tl].
  simpl. rewrite Hctx. apply fire_benign. by apply benign_hd.
Qed.

Lemma lock_iter_benign m s ins loc w :
  leases w !! key m = Some s → ctx loc = None → Forall benign ins →
  claimable (s_spec s) (clock w) →
  (run (lock_iter m) ins loc w).1.1.1 = Return None.
Proof.
  intros Hs Hctx Hb Hc.
  pose proof (benign_hd _ Hb) as H0.
  pose proof (benign_hd _ (benign_tl _ Hb)) as H1.
  rewrite run_lock_iter. cbn [fst snd on_ctx_err].
  rewrite Hctx, fire_benign by done.
  rewrite run_lock_get. cbn [fst snd on_get store_get].
  unfold get_result. rewrite (proj1 H1). simpl. unfold key in Hs. rewrite Hs.
  apply lock_fetched_benign; [done| |by do 2 apply benign_tl|].
  - simpl. apply H1.
  - eapply claimable_later; [|exact Hc]. simpl. lia.
Qed.

Lemma lock_create_benign m ins loc w :
  fault (hd idle ins) = None →
  let o := run (lock_create m) ins loc w in
  o.1.1.1 = Continue ∧ o.1.1.2 = tl ins ∧
  ctx o.1.2 = fire (hd idle ins) (ctx loc) ∧
  leases o.2 !! key m = Some (found m w) ∧ clock w <= clock o.2.
Proof.
  intros Hf. rewrite run_lock_create. cbn [fst snd on_create store_create].
  unfold create_result, found, key. rewrite Hf. simpl.
  destruct (leases w !! (lease m, name m)) as [s|] eqn:Hs; simpl.
  - split_and!; try done; lia.
  - rewrite lookup_insert_eq. split_and!; try done; lia.
Qed.

(** With a live context and no failure on the way, one turn of the loop
    is enough for [Lock] to take a lease that can be taken. *)
Lemma Lock_takes fuel m ins loc w :
  ctx loc = None → Forall benign ins →
  claimable (s_spec (found m w)) (clock w) →
  (call (S fuel) (Lock m) ins loc w).1.1.1 = Some None.
Proof.
  intros Hctx Hb Hc.
  pose proof (benign_hd _ Hb) as H0.
  destruct (lock_create_benign m ins loc w (proj1 H0))
    as (Hres & Hins & Hctx1 & Hs1 & Hc1).
  unfold call, Lock, lock. cbn [entry body loop]. rewrite Hres.
  rewrite (lock_iter_benign m (found m w)); [done|done| | |].
  - by rewrite Hctx1, Hctx, fire_benign.
  - rewrite Hins. by apply benign_tl.
  - by eapply claimable_later.
Qed.

(** ** [Extend] and [Unlock], run alone *)

Lemma run_Extend m ins loc w :
  run (Extend m) ins loc w =
  let o := on_get (lease m) (name m) (hd idle ins) loc w in
  match o.1.1 with
  | Fail _ => (Some ErrNotLocked, tl ins, o.1.2, o.2)
  | Ok l =>
      match HolderIdentity (Spec l) with
      | None => (Some ErrNotLocked, tl ins, o.1.2, o.2)
      | Some h =>
          if decide (h ≠ uniqueID m)
          then (Some ErrLockedByAnother, tl ins, o.1.2, o.2)
          else
            let o1 := on_now (hd idle (tl ins)) o.1.2 o.2 in
            let o2 := on_update (lease m)
                        (with_spec l (renew_spec o1.1.1 (Spec l)))
                        (hd idle (tl (tl ins))) o1.1.2 o1.2 in
            (match o2.1.1 with
             | Ok _ => None
             | Fail e => Some (ErrExtendUpdate e)
             end, tl (tl (tl ins)), o2.1.2, o2.2)
      end
  end.
Proof.
  unfold Extend. simpl.
  destruct (get_result _ _ _ _) as [l|e]; [|done]. simpl.
  destruct (HolderIdentity (Spec l)) as [h|]; [|done].
  destruct (decide (h ≠ uniqueID m)); [done|]. simpl.
  by destruct (update_result _ _ _ _).
Qed.

Lemma run_Unlock m ins loc w :
  run (Unlock m) ins loc w =
  let o := on_get (lease m) (name m) (hd idle ins) loc w in
  match o.1.1 with
  | Fail _ => (Some ErrNotLocked, tl ins, o.1.2, o.2)
  | Ok l =>
      match HolderIdentity (Spec l) with
      | None => (Some ErrNotLocked, tl ins, o.1.2, o.2)
      | Some h =>
          if decide (h ≠ uniqueID m)
          then (Some ErrLockedByAnother, tl ins, o.1.2, o.2)
          else
            let o2 := on_update (lease m)
                        (with_spec l (release_spec (Spec l)))
                        (hd idle (tl ins)) o.1.2 o.2 in
            (match o2.1.1 with
             | Ok _ => None
             | Fail e => Some (ErrUnlockUpdate e)
             end, tl (tl ins), o2.1.2, o2.2)
      end
  end.
Proof.
  unfold Unlock. simpl.
  destruct (get_result _ _ _ _) as [l|e]; [|done]. simpl.
  destruct (HolderIdentity (Spec l)) as [h|]; [|done].
  destruct (decide (h ≠ uniqueID m)); [done|]. simpl.
  by destruct (update_result _ _ _ _).
Qed.

Ltac ownership_cases m w :=
  unfold checked, key; cbn [fst snd on_get store_get];
  let Hg := fresh "Hg" in
  destruct (get_result _ _ _ _) as [?l|?e] eqn:Hg;
  [ let Hf := fresh "Hf" in
    let Hs := fresh "Hs" in
    let s := fresh "s" in
    apply get_result_Ok in Hg as (Hf & s & Hs & ->); simpl in Hs;
    rewrite Hf, Hs; simpl;
    let h := fresh "h" in
    destruct (HolderIdentity (s_spec s)) as [h|] eqn:?;
    [ destruct (decide (h ≠ uniqueID m)); simpl;
      [ naive_solver
      | destruct (update_result _ _ _ _); simpl; naive_solver ]
    | simpl; naive_solver ]
  | apply get_result_Fail in Hg; simpl in *; naive_solver ].

Lemma Extend_checked m ins loc w :
  checked m ins w (run (Extend m) ins loc w).
Proof. rewrite run_Extend. ownership_cases m w. Qed.

Lemma Unlock_checked m ins loc w :
  checked m ins w (run (Unlock m) ins loc w).
Proof. rewrite run_Unlock. ownership_cases m w. Qed.

(* ===================================================================== *)
(** * The specification, sentence by sentence *)
(* ===================================================================== *)

(** C1. Mutual exclusion. Any number of calls run against one store,
    interleaved in any order, with time passing, tokens firing and store
    calls failing at will; call [tid] is a [Lock] of [m]. Whenever a step
    of that call replaces the record stored for [m], the record it
    replaces was not held with its expiration time still in the future at
    that moment: no [Lock] succeeds in taking the lease while another
    holder's lease is running. A [Lock] that has fetched a lease
    which is held and unexpired when it reads the clock leaves the store
    alone and goes to sleep; when it wakes with its token live it is
    back at the head of the loop, to poll again. And a [Lock] that has
    returned [nil] has, at one of its own steps, replaced the record by
    its claim, the record replaced being unheld or expired at that
    step: of two calls that both return [nil], the later claim was made
    on a record that was no longer held and unexpired. *)
Theorem Lock_mutual_exclusion (w : World) (calls : list (Routine * Local))
    (evs : list Event) (tid : nat) (i : Input) (m : Mutex) (loc : Local) :
  calls !! tid = Some (Lock m, loc) →
  let s := exec evs (boot w calls) in
  let s' := sys_step s (tid, i) in
  (∀ rec, leases (world s) !! key m = Some rec →
          leases (world s') !! key m ≠ Some rec →
          held_at (s_spec rec) (clock (world s')) = false) ∧
  (∀ t l, threads s !! tid = Some t → code t = lock_fetched m l →
          held_at (Spec l) (clock (arrive i (world s))) = true →
          leases (world s') = leases (world s) ∧
          ∃ t', threads s' !! tid = Some t' ∧ code t' = lock_retry m) ∧
  (∀ t, threads s !! tid = Some t → code t = lock_retry m →
        fire i (ctx (local t)) = None →
        leases (world s') = leases (world s) ∧
        ∃ t', threads s' !! tid = Some t' ∧ code t' = Ret Continue ∧
              resume t' = lock_iter m) ∧
  (∀ t, threads s !! tid = Some t → returned t = Some None →
        ∃ evs1 j evs2, evs = evs1 ++ (tid, j) :: evs2 ∧
          claim_landed m (world (exec evs1 (boot w calls)))
            (world (sys_step (exec evs1 (boot w calls)) (tid, j)))).
Proof.
  intros Hcall s s'.
  assert (Hok : all_threads lock_ok s) by apply lock_ok_always.
  assert (Hrt : ∀ t, threads s !! tid = Some t → routine t = lock m).
  { intros t Ht.
    destruct (exec_routine w calls evs tid _ Hcall) as (t0 & Ht0 & Hr0).
    subst s. rewrite Ht in Ht0. injection Ht0 as <-. exact Hr0. }
  split_and!.
  - intros rec Hrec Hne. subst s'. unfold sys_step in *. simpl in *.
    destruct (threads s !! tid) as [t|] eqn:Ht; [|done]. simpl in *.
    eapply lock_step_lands; eauto. apply (Hok tid t Ht). eauto.
  - intros t l Ht Hc Hheld. subst s'. unfold sys_step. simpl. rewrite Ht.
    simpl. destruct (lock_step_held m (world s) i t l Hc Hheld) as (? & ? & _).
    split; [done|]. eexists. split; [|done].
    by rewrite list_lookup_insert_eq by (by eapply lookup_lt_Some).
  - intros t Ht Hc Hfire. subst s'. unfold sys_step. simpl. rewrite Ht.
    simpl. destruct (lock_step_retry m (world s) i t Hc Hfire) as (Hc' & Hl).
    split; [done|]. eexists. split; [|split; [exact Hc'|]].
    + by rewrite list_lookup_insert_eq by (by eapply lookup_lt_Some).
    + unfold resume. rewrite Hc'. simpl. by rewrite (Hrt t Ht).
  - intros t Ht Hret. eapply exec_won; [exact Hcall|exact Ht|by right].
Qed.

(** Bob's [Lock] takes the lease Alice took eleven seconds earlier, and
    which has expired by then. *)
Lemma Lock_mutual_exclusion_witness :
  let s := exec takeover (boot (cluster 0 None) contenders) in
  let s' := sys_step s (1%nat, idle) in
  contenders !! 1%nat = Some (Lock bob, live_at 0) ∧
  ∃ rec, leases (world s) !! key bob = Some rec ∧
         HolderIdentity (s_spec rec) = Some (uniqueID alice) ∧
         leases (world s') !! key bob ≠ Some rec ∧
         held_at (s_spec rec) (clock (world s')) = false.
Proof.
  cbv zeta. split; [reflexivity|].
  exists {| s_labels := [("kubesync.jaredallard.github.com/lock", "true")];
            s_version := 2;
            s_spec := {| HolderIdentity := Some "host-a-1f0e";
                         LeaseDurationSeconds := Some 10;
                         AcquireTime := Some 0; RenewTime := None;
                         LeaseTransitions := Some 1 |} |}.
  assert (Hs : leases (world (exec takeover (boot (cluster 0 None) contenders)))
                 !! key bob =
               Some {| s_labels := [("kubesync.jaredallard.github.com/lock", "true")];
                       s_version := 2;
                       s_spec := {| HolderIdentity := Some "host-a-1f0e";
                                    LeaseDurationSeconds := Some 10;
                                    AcquireTime := Some 0; RenewTime := None;
                                    LeaseTransitions := Some 1 |} |})
    by (vm_compute; reflexivity).
  assert (Hne : leases (world (sys_step
                   (exec takeover (boot (cluster 0 None) contenders))
                   (1%nat, idle))) !! key bob ≠
               Some {| s_labels := [("kubesync.jaredallard.github.com/lock", "true")];
                       s_version := 2;
                       s_spec := {| HolderIdentity := Some "host-a-1f0e";
                                    LeaseDurationSeconds := Some 10;
                                    AcquireTime := Some 0; RenewTime := None;
                                    LeaseTransitions := Some 1 |} |})
    by (vm_compute; discriminate).
  split_and!; [exact Hs|reflexivity|exact Hne|].
  exact (proj1 (Lock_mutual_exclusion (cluster 0 None) contenders takeover
                  1 idle bob (live_at 0) eq_refl) _ Hs Hne).
Defined.

(** ** Arithmetic of the record's fields *)

Lemma int32_wrap_in_range z : is_int32 z → int32_wrap z = z.
Proof.
  unfold is_int32, int32_wrap, int32_min, int32_max. intros Hz.
  rewrite Z.mod_small by lia. lia.
Qed.

Lemma int32_wrap_succ n :
  is_int32 n → n ≠ int32_max → int32_wrap (n + 1) = n + 1.
Proof.
  unfold is_int32, int32_min, int32_max. intros Hn Hmax.
  apply int32_wrap_in_range. unfold is_int32, int32_min, int32_max. lia.
Qed.

Lemma ttl_seconds_NewMutex s n : ttl_seconds (NewMutex s n) = 10.
Proof. vm_compute. reflexivity. Qed.

Lemma nearest_second_NewMutex s n :
  nearest_second (expiration (NewMutex s n)) (ttl_seconds (NewMutex s n)).
Proof.
  rewrite ttl_seconds_NewMutex. unfold nearest_second. simpl.
  unfold time.Second. lia.
Qed.

(** ** The update [lock] submits *)

Lemma lock_update_updates m l ins loc w :
  updates (actions (run (lock_update m l) ins loc w).2)
  = updates (actions w) ++ [l].
Proof.
  rewrite run_lock_update. cbn [fst snd on_update store_update].
  destruct (update_result _ _ _ _) as [l'|e]; cbn [commit].
  - rewrite lock_exit_actions. simpl. by rewrite updates_app.
  - destruct (lock_retry_post m (tl ins)
      (at_time (fire (hd idle ins) (ctx loc))
         (record (arrive (hd idle ins) w) (ActUpdate (lease m) l)))
      (record (arrive (hd idle ins) w) (ActUpdate (lease m) l)))
      as (_ & Ha & _).
    rewrite Ha. simpl. by rewrite updates_app.
Qed.

Lemma lock_claim_updates m l ins loc w :
  updates (actions (run (lock_claim m l) ins loc w).2)
  = updates (actions w)
    ++ [claim m (clock w + Z.of_N (elapsed (hd idle ins))) l].
Proof.
  rewrite run_lock_claim. cbn [fst snd on_now]. by rewrite lock_update_updates.
Qed.

(** The decision [lock] takes on a held lease with both fields set. *)
Lemma lock_fetched_decision m l h dur acq ins loc w :
  HolderIdentity (Spec l) = Some h →
  LeaseDurationSeconds (Spec l) = Some dur →
  AcquireTime (Spec l) = Some acq →
  let now := clock w + Z.of_N (elapsed (hd idle ins)) in
  let expiration := default acq (RenewTime (Spec l)) + dur * time.Second in
  let o := run (lock_fetched m l) ins loc w in
  (now < expiration →
     leases o.2 = leases w ∧ actions o.2 = actions w ∧
     o.1.1.1 = match fire (hd idle (tl ins)) (fire (hd idle ins) (ctx loc)) with
               | Some c => Return (Some (ErrContext c))
               | None => Continue
               end) ∧
  (expiration <= now →
     updates (actions o.2) =
     updates (actions w)
       ++ [claim m (now + Z.of_N (elapsed (hd idle (tl ins)))) l]).
Proof.
  intros Hh Hd Ha. cbv zeta. rewrite run_lock_fetched, Hh, Hd, Ha.
  cbn [fst snd on_now]. unfold lease_expiry, time.Add, time.After.
  assert (Hexp : match RenewTime (Spec l) with Some r => r | None => acq end
                 = default acq (RenewTime (Spec l)))
    by (by destruct (RenewTime (Spec l))).
  rewrite Hexp. simpl clock.
  split; intros Hlt.
  - rewrite (proj2 (Z.ltb_lt _ _)) by lia.
    destruct (lock_retry_post m (tl ins)
      (at_time (fire (hd idle ins) (ctx loc)) (arrive (hd idle ins) w))
      (arrive (hd idle ins) w)) as (Hl & Hact & _ & Hr).
    by rewrite Hl, Hact, Hr.
  - rewrite (proj2 (Z.ltb_ge _ _)) by lia.
    by rewrite lock_claim_updates.
Qed.

(** C2 (amended). When [Lock] returns [nil] it has claimed the lease: the
    record now stored is the record it found (or the empty one it
    created), claimable at the time [t] that [now()] returned, with
    [holderIdentity] this mutex's identity, [acquireTime] that [t],
    [leaseDurationSeconds] the configured expiration converted by
    [int32(math.Round(expiration.Seconds()))], and [transitions] the
    previous counter (0 if absent) plus one in [int32] arithmetic. The
    counter is the previous one plus one unless that was the largest
    [int32]; for the expiration [NewMutex] configures the duration is 10,
    the whole number of seconds nearest to it; and the record submitted by
    the claiming step carries the reading of the clock at that step. *)
Theorem Lock_claims_record (m : Mutex) (fuel : nat) (ins : list Input)
    (loc : Local) (w : World) (ins' : list Input) (loc' : Local) (w' : World) :
  call fuel (Lock m) ins loc w = (Some None, ins', loc', w') →
  (∃ t, clock w <= t <= clock w' ∧
     claimable (s_spec (found m w)) t ∧
     spec_of m w' =
       Some {| HolderIdentity := Some (uniqueID m);
               LeaseDurationSeconds := Some (ttl_seconds m);
               AcquireTime := Some t;
               RenewTime := RenewTime (s_spec (found m w));
               LeaseTransitions :=
                 Some (int32_wrap
                         (default 0 (LeaseTransitions (s_spec (found m w)))
                          + 1)) |}) ∧
  (∀ n, is_int32 n → n ≠ int32_max → int32_wrap (n + 1) = n + 1) ∧
  (∀ sy n, m = NewMutex sy n →
     ttl_seconds m = 10 ∧ nearest_second (expiration m) (ttl_seconds m)) ∧
  (∀ l ins0 loc0 w0,
     updates (actions (run (lock_claim m l) ins0 loc0 w0).2)
     = updates (actions w0)
       ++ [claim m (clock w0 + Z.of_N (elapsed (hd idle ins0))) l]).
Proof.
  intros Hcall. split_and!.
  - apply Lock_success_spec in Hcall as (t & Ht & Hc & Hs).
    exists t. split; [done|]. split; [done|].
    rewrite Hs. unfold claim_spec.
    by destruct (LeaseTransitions (s_spec (found m w))).
  - apply int32_wrap_succ.
  - intros sy n ->. split; [apply ttl_seconds_NewMutex|].
    apply nearest_second_NewMutex.
  - intros. apply lock_claim_updates.
Qed.

(** Alice locks a name nobody has locked before. *)
Lemma Lock_claims_record_witness :
  let o := call 1 (Lock alice) [wait 3; wait 4] (live_at 0) (cluster 0 None) in
  o.1.1.1 = Some None ∧
  ∃ t, 0 <= t <= 7 ∧
    spec_of alice o.2 =
      Some {| HolderIdentity := Some "host-a-1f0e";
              LeaseDurationSeconds := Some 10;
              AcquireTime := Some t;
              RenewTime := None;
              LeaseTransitions := Some 1 |}.
Proof.
  cbv zeta.
  set (o := call 1 (Lock alice) [wait 3; wait 4] (live_at 0) (cluster 0 None)).
  assert (Ho : o = (Some None, o.1.1.2, o.1.2, o.2))
    by (vm_compute; reflexivity).
  split; [by rewrite Ho|].
  destruct (proj1 (Lock_claims_record alice 1 [wait 3; wait 4] (live_at 0)
                     (cluster 0 None) _ _ _ Ho)) as (t & Ht & _ & Hs).
  exists t. split.
  - assert (Hc : clock o.2 = 7) by (vm_compute; reflexivity).
    rewrite Hc in Ht. exact Ht.
  - rewrite Hs. vm_compute. reflexivity.
Defined.

(** "Transitions equal to the previous transitions plus 1" fails on a
    record whose counter is the largest [int32]: the counter written is
    the smallest [int32], not one more. *)
Lemma Lock_claims_record_counterexample :
  let o := call 1 (Lock alice) [] (live_at 0)
             (cluster 0 (Some (unheld 2147483647))) in
  o.1.1.1 = Some None ∧
  spec_of alice o.2 ≫= LeaseTransitions = Some (-2147483648) ∧
  spec_of alice o.2 ≫= LeaseTransitions ≠ Some (2147483647 + 1).
Proof.
  cbv zeta. split_and!; [vm_compute; reflexivity..|vm_compute; discriminate].
Qed.

(** C3 (amended). [lock] has fetched a lease [l] with a holder, a duration
    and an acquire time; [now] is what the clock reads at the expiry
    check and [expiration] is (renewTime if present, otherwise
    acquireTime) + leaseDurationSeconds. The lease is treated as still
    held, that is no update is submitted, exactly when [now] is
    strictly before [expiration]; the call then leaves the store alone
    and sleeps. Otherwise it submits the claim. A [Lock] call that finds
    such a record expired takes it, given a live token and no failure of
    the store, although a prior owner is still named in it, and writes
    the previous counter plus one in [int32] arithmetic, which is one more
    unless the counter was the largest [int32]. *)
Theorem Lock_expiry_decision (m : Mutex) (l : Lease) (h : string)
    (dur : Z) (acq : time.Time) (ins : list Input) (loc : Local) (w : World) :
  HolderIdentity (Spec l) = Some h →
  LeaseDurationSeconds (Spec l) = Some dur →
  AcquireTime (Spec l) = Some acq →
  let now := clock w + Z.of_N (elapsed (hd idle ins)) in
  let expiration := default acq (RenewTime (Spec l)) + dur * time.Second in
  let o := run (lock_fetched m l) ins loc w in
  (now < expiration ↔ updates (actions o.2) = updates (actions w)) ∧
  (now < expiration →
     leases o.2 = leases w ∧
     (o.1.1.1 = Continue ∨ ∃ c, o.1.1.1 = Return (Some (ErrContext c)))) ∧
  (expiration <= now →
     ∃ t, now <= t ∧
       updates (actions o.2) = updates (actions w) ++ [claim m t l]) ∧
  (∀ s fuel ins0 loc0 w0,
     leases w0 !! key m = Some s → s_spec s = Spec l →
     expiration <= clock w0 → ctx loc0 = None → Forall benign ins0 →
     ∃ t ins' loc' w',
       call (S fuel) (Lock m) ins0 loc0 w0 = (Some None, ins', loc', w') ∧
       clock w0 <= t ∧
       spec_of m w' =
         Some {| HolderIdentity := Some (uniqueID m);
                 LeaseDurationSeconds := Some (ttl_seconds m);
                 AcquireTime := Some t;
                 RenewTime := RenewTime (Spec l);
                 LeaseTransitions :=
                   Some (int32_wrap
                           (default 0 (LeaseTransitions (Spec l)) + 1)) |}) ∧
  (∀ n, is_int32 n → n ≠ int32_max → int32_wrap (n + 1) = n + 1).
Proof.
  intros Hh Hd Ha now expiration o.
  destruct (lock_fetched_decision m l h dur acq ins loc w Hh Hd Ha)
    as [Hheld Hexp].
  fold now expiration o in Hheld, Hexp.
  split_and!.
  - split.
    + intros Hlt. destruct (Hheld Hlt) as (_ & Hact & _). by rewrite Hact.
    + intros Hupd. destruct (Z.lt_ge_cases now expiration) as [|Hge]; [done|].
      rewrite (Hexp Hge) in Hupd.
      apply (f_equal length) in Hupd. rewrite length_app in Hupd.
      simpl in Hupd. lia.
  - intros Hlt. destruct (Hheld Hlt) as (Hl & _ & Hr). split; [done|].
    rewrite Hr.
    match goal with |- context [match ?x with _ => _ end] => destruct x end;
      eauto.
  - intros Hge. eexists. split; [|exact (Hexp Hge)]. lia.
  - intros s fuel ins0 loc0 w0 Hs Hspec Hge Hctx Hb.
    assert (Hfound : found m w0 = s) by (unfold found; by rewrite Hs).
    assert (Hc : claimable (s_spec (found m w0)) (clock w0)).
    { rewrite Hfound, Hspec. unfold claimable. rewrite Hh, Hd, Ha.
      unfold lease_expiry, time.Add. subst expiration.
      destruct (RenewTime (Spec l)); simpl in *; lia. }
    pose proof (Lock_takes fuel m ins0 loc0 w0 Hctx Hb Hc) as Hres.
    destruct (call (S fuel) (Lock m) ins0 loc0 w0) as [[[r ins'] loc'] w']
      eqn:Hcall.
    simpl in Hres. subst r.
    destruct (Lock_success_spec _ _ _ _ _ _ _ _ Hcall) as (t & Ht & _ & Hs').
    exists t, ins', loc', w'. split_and!; [done|lia|].
    rewrite Hs', Hfound, Hspec. unfold claim_spec.
    by destruct (LeaseTransitions (Spec l)).
  - apply int32_wrap_succ.
Qed.

(** Twenty seconds in, Bob finds the lease that expired at fifteen. *)
Lemma Lock_expiry_decision_witness :
  let w := cluster (20 * time.Second) (Some stale) in
  HolderIdentity (s_spec stale) = Some "host-z-0000" ∧
  held_at (s_spec stale) (clock w) = false ∧
  ∃ t ins' loc' w',
    call 1 (Lock bob) [] (live_at (20 * time.Second)) w
      = (Some None, ins', loc', w') ∧
    spec_of bob w' ≫= HolderIdentity = Some "host-b-77c2" ∧
    spec_of bob w' ≫= AcquireTime = Some t ∧
    spec_of bob w' ≫= LeaseTransitions = Some 2.
Proof.
  cbv zeta. split; [reflexivity|]. split; [reflexivity|].
  destruct (Lock_expiry_decision bob
              (lease_of (lease bob) (name bob) stale) "host-z-0000" 10 0
              [] (live_at (20 * time.Second))
              (cluster (20 * time.Second) (Some stale))
              eq_refl eq_refl eq_refl) as (_ & _ & _ & Htake & _).
  destruct (Htake stale 0%nat [] (live_at (20 * time.Second))
              (cluster (20 * time.Second) (Some stale)))
    as (t & ins' & loc' & w' & Hcall & _ & Hs).
  - vm_compute. reflexivity.
  - reflexivity.
  - vm_compute. discriminate.
  - reflexivity.
  - constructor.
  - exists t, ins', loc', w'. split; [exact Hcall|]. rewrite Hs.
    split_and!; vm_compute; reflexivity.
Defined.

(** "Transitions increments by exactly 1 on that reclaim" fails on an
    expired record whose counter is the largest [int32]: the reclaim
    writes the smallest [int32]. *)
Lemma Lock_expiry_decision_counterexample :
  let w := cluster (20 * time.Second) (Some worn) in
  let o := call 1 (Lock bob) [] (live_at (20 * time.Second)) w in
  spec_of bob w ≫= HolderIdentity = Some "host-z-0000" ∧
  held_at (s_spec worn) (clock w) = false ∧
  o.1.1.1 = Some None ∧
  spec_of bob o.2 ≫= HolderIdentity = Some "host-b-77c2" ∧
  spec_of bob o.2 ≫= LeaseTransitions = Some (-2147483648) ∧
  spec_of bob o.2 ≫= LeaseTransitions ≠ Some (2147483647 + 1).
Proof.
  cbv zeta. split_and!; [vm_compute; reflexivity..|vm_compute; discriminate].
Qed.

(** ** Cancellation *)

Lemma lock_iter_cancelled_at_exit m s i1 i2 i3 i4 i5 rest c loc w :
  leases w !! key m = Some s → HolderIdentity (s_spec s) = None →
  ctx loc = None → Forall benign [i1; i2; i3; i4] → cancel i5 = Some c →
  let o := run (lock_iter m) (i1 :: i2 :: i3 :: i4 :: i5 :: rest) loc w in
  o.1.1.1 = Return (Some (ErrContext c)) ∧
  ∃ t, clock w <= t ∧
    spec_of m o.2 = Some (claim_spec m t (s_spec s)) ∧
    updates (actions o.2)
    = updates (actions w) ++ [claim m t (lease_of (lease m) (name m) s)].
Proof.
  intros Hs Hh Hctx Hb Hc5.
  apply Forall_cons in Hb as [[Hf1 Hc1] Hb].
  apply Forall_cons in Hb as [[Hf2 Hc2] Hb].
  apply Forall_cons in Hb as [[Hf3 Hc3] Hb].
  apply Forall_cons in Hb as [[Hf4 Hc4] _].
  cbv zeta. rewrite run_lock_iter. cbn [fst snd on_ctx_err hd tl].
  rewrite Hctx. cbn [fire]. rewrite Hc1.
  rewrite run_lock_get. cbn [fst snd on_get store_get hd tl].
  unfold get_result. rewrite Hf2. unfold key in Hs. cbn [leases arrive set_clock].
  rewrite Hs. rewrite run_lock_fetched. cbn [Spec lease_of]. rewrite Hh.
  rewrite run_lock_claim. cbn [fst snd on_now hd tl].
  rewrite run_lock_update. cbn [fst snd on_update store_update hd tl].
  unfold update_result. rewrite Hf4.
  cbn [leases arrive set_clock record claim with_spec Meta lease_of Name
       ResourceVersion].
  rewrite Hs. rewrite decide_True by done.
  rewrite run_lock_exit. cbn [fst snd on_ctx_err hd tl ctx at_time fire].
  rewrite Hc2. cbn [fire]. rewrite Hc3. cbn [fire]. rewrite Hc4. cbn [fire].
  rewrite Hc5.
  rewrite run_lock_exit_err. cbn [fst snd on_ctx_err hd tl ctx at_time fire].
  split; [done|].
  eexists. split; [|split].
  2:{ unfold spec_of, key. simpl. rewrite lookup_insert_eq. reflexivity. }
  - simpl. lia.
  - simpl. rewrite !updates_app. simpl. by rewrite !app_nil_r.
Qed.

(** C4. A [Lock] that returns the context's error is said to have made no
    update; the code does not keep to that. Take a record [Lock] finds
    unheld (or has to create), a live token, no failure of the store,
    and the token firing after the update has gone through but before
    the check that follows the loop (the sixth call to the outside):
    [Lock] returns the context's error, although its update has been
    applied and the lease is now held by this mutex. *)
Theorem Lock_cancelled_after_claim (m : Mutex) (i0 i1 i2 i3 i4 i5 : Input)
    (rest : list Input) (c : ContextError) (loc : Local) (w : World) :
  ctx loc = None → Forall benign [i0; i1; i2; i3; i4] → cancel i5 = Some c →
  HolderIdentity (s_spec (found m w)) = None →
  let o := call 1 (Lock m) (i0 :: i1 :: i2 :: i3 :: i4 :: i5 :: rest) loc w in
  o.1.1.1 = Some (Some (ErrContext c)) ∧
  ∃ t, clock w <= t ∧
    spec_of m o.2 = Some (claim_spec m t (s_spec (found m w))) ∧
    spec_of m o.2 ≫= HolderIdentity = Some (uniqueID m) ∧
    updates (actions o.2)
    = updates (actions w)
      ++ [claim m t (lease_of (lease m) (name m) (found m w))].
Proof.
  intros Hctx Hb Hc5 Hh.
  apply Forall_cons in Hb as [H0 Hb].
  destruct (lock_create_benign m (i0 :: i1 :: i2 :: i3 :: i4 :: i5 :: rest)
              loc w (proj1 H0)) as (Hres & Hins & Hctx1 & Hs1 & Hc1).
  assert (Hact1 : updates (actions
            (run (lock_create m) (i0 :: i1 :: i2 :: i3 :: i4 :: i5 :: rest)
               loc w).2) = updates (actions w)).
  { rewrite run_lock_create. cbn [fst snd on_create store_create].
    destruct (create_result _ _ _ _); simpl; by rewrite updates_app, app_nil_r. }
  cbv zeta. unfold call, Lock, lock. cbn [entry body loop].
  rewrite Hres, Hins. cbn [tl].
  destruct (lock_iter_cancelled_at_exit m (found m w) i1 i2 i3 i4 i5 rest c
    (run (lock_create m) (i0 :: i1 :: i2 :: i3 :: i4 :: i5 :: rest) loc w).1.2
    (run (lock_create m) (i0 :: i1 :: i2 :: i3 :: i4 :: i5 :: rest) loc w).2)
    as (Hr & t & Ht & Hs & Hu); try done.
  { rewrite Hctx1. cbn [hd]. rewrite Hctx. by apply fire_benign. }
  cbv zeta in Hr, Hs, Hu. rewrite Hr. cbn [fst snd].
  split; [done|]. exists t. split; [lia|]. split; [done|].
  split; [by rewrite Hs|]. by rewrite Hu, Hact1.
Qed.

(** Alice locks a free name; her deadline passes while the update is on
    its way. *)
Lemma Lock_cancelled_after_claim_witness :
  let o := call 1 (Lock alice)
             [idle; idle; idle; idle; idle; cancelling] (live_at 0)
             (cluster 0 (Some (unheld 3))) in
  o.1.1.1 = Some (Some (ErrContext Canceled)) ∧
  spec_of alice o.2 ≫= HolderIdentity = Some "host-a-1f0e" ∧
  length (updates (actions o.2)) = 1%nat.
Proof.
  cbv zeta.
  destruct (Lock_cancelled_after_claim alice idle idle idle idle idle
              cancelling [] Canceled (live_at 0) (cluster 0 (Some (unheld 3))))
    as (Hr & t & _ & _ & Hh & Hu).
  - reflexivity.
  - repeat constructor.
  - reflexivity.
  - reflexivity.
  - split; [exact Hr|]. split; [exact Hh|]. by rewrite Hu.
Defined.

(** With a token that has already fired, and the record in place, [Lock]
    returns the token's error having made the bootstrap [Create] and
    nothing else: no fetch, no update. *)
Lemma Lock_already_cancelled (m : Mutex) (fuel : nat) (c : ContextError)
    (ins : list Input) (loc : Local) (w : World) :
  ctx loc = Some c → fault (hd idle ins) = None →
  let o := call (S fuel) (Lock m) ins loc w in
  o.1.1.1 = Some (Some (ErrContext c)) ∧
  actions o.2 = actions w ++ [ActCreate (lease m) (new_lease m)] ∧
  (is_Some (leases w !! key m) → leases o.2 = leases w).
Proof.
  intros Hctx Hf.
  destruct (lock_create_benign m ins loc w Hf)
    as (Hres & Hins & Hctx1 & Hs1 & Hc1).
  cbv zeta. unfold call, Lock, lock. cbn [entry body loop]. rewrite Hres.
  rewrite run_lock_iter. cbn [fst snd on_ctx_err]. rewrite Hctx1, Hctx.
  cbn [fire]. rewrite lock_exit_result.
  cbn [fst snd ctx at_time fire fmap option_fmap option_map].
  rewrite lock_exit_leases, lock_exit_actions.
  split; [done|].
  rewrite run_lock_create. cbn [fst snd on_create store_create].
  unfold create_result. rewrite Hf. unfold key. simpl.
  destruct (leases w !! (lease m, name m)) as [s|] eqn:Hs; simpl.
  - done.
  - split; [done|]. by intros [? ?].
Qed.

(** C5. The renew time is said to be absent after every successful
    [Lock]; the code does not keep to that. [lock] assigns the holder,
    the transitions, the acquire time and the duration and leaves
    [RenewTime] as fetched, so a lease taken over from a holder that had
    extended it keeps that holder's renew time: after a successful
    [Lock] on a record whose [renewTime] is [r], the record's [renewTime]
    is still [r], and the new holder's lease counts as held exactly
    until [r] plus the duration, whatever its own acquire time. *)
Theorem Lock_keeps_renew_time (m : Mutex) (fuel : nat) (ins : list Input)
    (loc : Local) (w : World) (ins' : list Input) (loc' : Local) (w' : World)
    (r : time.Time) :
  call fuel (Lock m) ins loc w = (Some None, ins', loc', w') →
  RenewTime (s_spec (found m w)) = Some r →
  spec_of m w' ≫= RenewTime = Some r ∧
  spec_of m w' ≫= HolderIdentity = Some (uniqueID m) ∧
  ∀ t, (spec_of m w' ≫= λ s, Some (held_at s t)) =
       Some (bool_decide (t < r + ttl_seconds m * time.Second)).
Proof.
  intros Hcall Hr.
  apply Lock_success_spec in Hcall as (t0 & _ & _ & Hs).
  rewrite Hs. simpl. rewrite Hr. split; [done|]. split; [done|].
  intros t. f_equal. unfold held_at, lease_expiry, time.After, time.Add. simpl.
  rewrite Hr. destruct (Z.ltb_spec t (r + ttl_seconds m * time.Second)).
  - by rewrite bool_decide_eq_true_2.
  - rewrite bool_decide_eq_false_2; [done|lia].
Qed.

(** Bob takes over the lease that its holder renewed at 5 s and that
    expired at 15 s: the record keeps the renew time of 5 s, and Bob's
    lease, taken at 20 s, is expired from the start. *)
Lemma Lock_keeps_renew_time_witness :
  let w := cluster (20 * time.Second) (Some stale) in
  let o := call 1 (Lock bob) [] (live_at (20 * time.Second)) w in
  o.1.1.1 = Some None ∧
  spec_of bob o.2 ≫= HolderIdentity = Some "host-b-77c2" ∧
  spec_of bob o.2 ≫= AcquireTime = Some (20 * time.Second) ∧
  spec_of bob o.2 ≫= RenewTime = Some (5 * time.Second) ∧
  (spec_of bob o.2 ≫= λ s, Some (held_at s (clock o.2))) = Some false.
Proof.
  cbv zeta.
  set (w := cluster (20 * time.Second) (Some stale)).
  set (o := call 1 (Lock bob) [] (live_at (20 * time.Second)) w).
  assert (Ho : o = (Some None, o.1.1.2, o.1.2, o.2))
    by (vm_compute; reflexivity).
  destruct (Lock_keeps_renew_time bob 1 [] (live_at (20 * time.Second)) w
              _ _ _ (5 * time.Second) Ho eq_refl) as (Hr & Hh & Hheld).
  split; [by rewrite Ho|]. split; [exact Hh|].
  split; [vm_compute; reflexivity|]. split; [exact Hr|].
  rewrite Hheld. vm_compute. reflexivity.
Defined.

(** C6. [Extend] and [Unlock] return [ErrNotLocked] exactly when the
    record is absent, the fetch fails, or the record has no holder, and
    [ErrLockedByAnother] exactly when the fetched record's holder is an
    identity other than this mutex's; in either case the store is as it
    was and the only call made is the [Get]: no update is submitted. *)
Theorem Extend_Unlock_refusals (m : Mutex) (ins : list Input) (loc : Local)
    (w : World) (o : option error * list Input * Local * World) :
  o = run (Extend m) ins loc w ∨ o = run (Unlock m) ins loc w →
  (o.1.1.1 = Some ErrNotLocked ↔
     leases w !! key m = None ∨
     fault (hd idle ins) ≠ None ∨
     ∃ s, leases w !! key m = Some s ∧ HolderIdentity (s_spec s) = None) ∧
  (o.1.1.1 = Some ErrLockedByAnother ↔
     fault (hd idle ins) = None ∧
     ∃ s h, leases w !! key m = Some s ∧
            HolderIdentity (s_spec s) = Some h ∧ h ≠ uniqueID m) ∧
  (o.1.1.1 = Some ErrNotLocked ∨ o.1.1.1 = Some ErrLockedByAnother →
     leases o.2 = leases w ∧
     actions o.2 = actions w ++ [ActGet (lease m) (name m)]).
Proof.
  intros [-> | ->]; [apply Extend_checked|apply Unlock_checked].
Qed.

(** Unlocking a name that was never locked fails with [ErrNotLocked];
    extending a lease that Alice holds fails for Bob with
    [ErrLockedByAnother]. *)
Lemma Extend_Unlock_refusals_witness :
  (run (Unlock alice) [] (live_at 0) (cluster 0 None)).1.1.1
    = Some ErrNotLocked ∧
  (run (Extend bob) [] (live_at 0)
     (cluster 0 (Some (held_by "host-a-1f0e" 0 None 1)))).1.1.1
    = Some ErrLockedByAnother.
Proof.
  split.
  - apply (Extend_Unlock_refusals alice [] (live_at 0) (cluster 0 None) _
             (or_intror eq_refl)).
    left. reflexivity.
  - apply (Extend_Unlock_refusals bob [] (live_at 0)
             (cluster 0 (Some (held_by "host-a-1f0e" 0 None 1))) _
             (or_introl eq_refl)).
    split; [reflexivity|].
    exists (held_by "host-a-1f0e" 0 None 1), "host-a-1f0e".
    split; [vm_compute; reflexivity|]. split; [reflexivity|].
    vm_compute. discriminate.
Defined.

(** C7. How [Lock] classifies errors. (1) A creation that fails with
    "already exists" counts as success: the call enters the loop with the
    store untouched. (2) Any other creation failure is returned at once,
    wrapped, after that one call. (3) In any turn of the loop a failed
    fetch is returned at once, wrapped: the turn has read the context
    and made the [Get], and nothing follows, no sleep and no retry.
    (4) So is a fetched record with a holder but without its duration or
    its acquire time: [Lock] refuses it on the spot. *)
Theorem Lock_error_classification (m : Mutex) (fuel : nat)
    (ins : list Input) (loc : Local) (w : World) :
  (create_result (lease m) (new_lease m) (fault (hd idle ins))
     (arrive (hd idle ins) w) = Fail AlreadyExists →
   let o := run (lock_create m) ins loc w in
   o.1.1.1 = Continue ∧ leases o.2 = leases w ∧
   call fuel (Lock m) ins loc w
   = loop fuel (lock_iter m) (tl ins) o.1.2 o.2) ∧
  (∀ e,
     create_result (lease m) (new_lease m) (fault (hd idle ins))
       (arrive (hd idle ins) w) = Fail e →
     e ≠ AlreadyExists →
     let o := call fuel (Lock m) ins loc w in
     o.1.1.1 = Some (Some (ErrCreateLease (namespace m) (name m) e)) ∧
     o.1.1.2 = tl ins ∧ leases o.2 = leases w ∧
     actions o.2 = actions w ++ [ActCreate (lease m) (new_lease m)]) ∧
  (∀ e,
     fire (hd idle ins) (ctx loc) = None →
     get_result (lease m) (name m) (fault (hd idle (tl ins)))
       (arrive (hd idle (tl ins)) (arrive (hd idle ins) w)) = Fail e →
     let o := loop (S fuel) (lock_iter m) ins loc w in
     o.1.1.1 = Some (Some (ErrGetLease (namespace m) (name m) e)) ∧
     o.1.1.2 = tl (tl ins) ∧ leases o.2 = leases w ∧
     actions o.2 = actions w ++ [ActGet (lease m) (name m)]) ∧
  (∀ s h,
     fire (hd idle ins) (ctx loc) = None →
     fault (hd idle (tl ins)) = None →
     leases w !! key m = Some s →
     HolderIdentity (s_spec s) = Some h →
     LeaseDurationSeconds (s_spec s) = None ∨ AcquireTime (s_spec s) = None →
     let o := loop (S fuel) (lock_iter m) ins loc w in
     o.1.1.1 = Some (Some ErrNoDuration) ∧
     o.1.1.2 = tl (tl ins) ∧ leases o.2 = leases w ∧
     actions o.2 = actions w ++ [ActGet (lease m) (name m)]).
Proof.
  split_and!.
  - intros Hcr. cbv zeta. unfold call, Lock, lock. cbn [entry body].
    rewrite run_lock_create. cbn [fst snd on_create store_create].
    rewrite Hcr. done.
  - intros e Hcr He. cbv zeta. unfold call, Lock, lock. cbn [entry body].
    rewrite run_lock_create. cbn [fst snd on_create store_create].
    rewrite Hcr. destruct e; done.
  - intros e Hfire Hg. cbv zeta. cbn [loop].
    rewrite run_lock_iter. cbn [fst snd on_ctx_err]. rewrite Hfire.
    rewrite run_lock_get. cbn [fst snd on_get store_get]. rewrite Hg. done.
  - intros s h Hfire Hf Hs Hh Hmiss. cbv zeta. cbn [loop].
    rewrite run_lock_iter. cbn [fst snd on_ctx_err]. rewrite Hfire.
    rewrite run_lock_get. cbn [fst snd on_get store_get].
    unfold get_result. rewrite Hf. unfold key in Hs.
    cbn [leases arrive set_clock]. rewrite Hs.
    rewrite run_lock_fetched. cbn [Spec lease_of]. rewrite Hh.
    destruct Hmiss as [-> | ->]; [done|].
    by destruct (LeaseDurationSeconds (s_spec s)).
Qed.

(** A store that refuses the creation; a store that cannot be read; a
    record that names a holder and nothing else. *)
Lemma Lock_error_classification_witness :
  let refused := {| elapsed := 0; fault := Some OtherFailure; cancel := None |} in
  let broken := {| s_labels := []; s_version := 1;
                   s_spec := {| HolderIdentity := Some "host-z-0000";
                                LeaseDurationSeconds := None;
                                AcquireTime := None; RenewTime := None;
                                LeaseTransitions := None |} |} in
  (call 3 (Lock alice) [refused] (live_at 0) (cluster 0 None)).1.1.1
    = Some (Some (ErrCreateLease "default" "im-a-lock" OtherFailure)) ∧
  (call 3 (Lock alice) [idle; idle; refused] (live_at 0)
     (cluster 0 (Some (unheld 0)))).1.1.1
    = Some (Some (ErrGetLease "default" "im-a-lock" OtherFailure)) ∧
  (call 3 (Lock alice) [] (live_at 0) (cluster 0 (Some broken))).1.1.1
    = Some (Some ErrNoDuration).
Proof.
  cbv zeta. split_and!.
  - apply (Lock_error_classification alice 3 _ (live_at 0) (cluster 0 None));
      [reflexivity|discriminate].
  - destruct (proj1 (Lock_error_classification alice 3
        [idle; idle; {| elapsed := 0; fault := Some OtherFailure;
                        cancel := None |}] (live_at 0)
        (cluster 0 (Some (unheld 0)))) eq_refl) as (_ & _ & Hin).
    rewrite Hin.
    apply (Lock_error_classification alice 2); reflexivity.
  - set (broken := {| s_labels := []; s_version := 1; s_spec := _ |}).
    destruct (proj1 (Lock_error_classification alice 3 [] (live_at 0)
                       (cluster 0 (Some broken))) eq_refl) as (_ & _ & Hin).
    rewrite Hin.
    eapply (Lock_error_classification alice 2); try reflexivity.
    left. reflexivity.
Defined.

(** ** What [Extend] and [Unlock] write *)

Lemma Extend_success m ins loc w ins' loc' w' :
  run (Extend m) ins loc w = (None, ins', loc', w') →
  ∃ s, leases w !! key m = Some s ∧
    HolderIdentity (s_spec s) = Some (uniqueID m) ∧
    leases w' =
      <[key m := {| s_labels := s_labels s;
                    s_version := N.succ (s_version s);
                    s_spec :=
                      renew_spec
                        (clock w + Z.of_N (elapsed (hd idle ins))
                         + Z.of_N (elapsed (hd idle (tl ins))))
                        (s_spec s) |}]> (leases w).
Proof.
  rewrite run_Extend. cbn [fst snd on_get store_get].
  destruct (get_result _ _ _ _) as [l|e] eqn:Hg; [|done].
  apply get_result_Ok in Hg as (_ & s & Hs & ->). simpl in Hs.
  cbn [Spec lease_of].
  destruct (HolderIdentity (s_spec s)) as [h|] eqn:Hh; [|done].
  destruct (decide (h ≠ uniqueID m)) as [|Heq]; [done|].
  apply dec_stable in Heq. subst h.
  cbn [fst snd on_now on_update store_update].
  destruct (update_result _ _ _ _) as [l'|e] eqn:Hu; [|done].
  apply update_result_Ok in Hu as (_ & s0 & Hs0 & Hv & ->). simpl in Hs0.
  assert (s0 = s) as -> by congruence.
  intros [= <- <- <-]. exists s. split; [done|]. split; [done|]. done.
Qed.

Lemma Extend_total m ins loc w s :
  leases w !! key m = Some s →
  HolderIdentity (s_spec s) = Some (uniqueID m) →
  fault (hd idle ins) = None → fault (hd idle (tl (tl ins))) = None →
  (run (Extend m) ins loc w).1.1.1 = None.
Proof.
  intros Hs Hh Hf0 Hf2. rewrite run_Extend. cbn [fst snd on_get store_get].
  unfold get_result. rewrite Hf0. unfold key in Hs.
  cbn [leases arrive set_clock]. rewrite Hs. cbn [Spec lease_of]. rewrite Hh.
  rewrite decide_False by (intros Hne; by apply Hne).
  cbn [fst snd on_now on_update store_update]. unfold update_result.
  rewrite Hf2. simpl. rewrite Hs. by rewrite decide_True.
Qed.

Lemma Unlock_success m ins loc w ins' loc' w' :
  run (Unlock m) ins loc w = (None, ins', loc', w') →
  ∃ s, leases w !! key m = Some s ∧
    HolderIdentity (s_spec s) = Some (uniqueID m) ∧
    leases w' =
      <[key m := {| s_labels := s_labels s;
                    s_version := N.succ (s_version s);
                    s_spec := release_spec (s_spec s) |}]> (leases w).
Proof.
  rewrite run_Unlock. cbn [fst snd on_get store_get].
  destruct (get_result _ _ _ _) as [l|e] eqn:Hg; [|done].
  apply get_result_Ok in Hg as (_ & s & Hs & ->). simpl in Hs.
  cbn [Spec lease_of].
  destruct (HolderIdentity (s_spec s)) as [h|] eqn:Hh; [|done].
  destruct (decide (h ≠ uniqueID m)) as [|Heq]; [done|].
  apply dec_stable in Heq. subst h.
  cbn [fst snd on_update store_update].
  destruct (update_result _ _ _ _) as [l'|e] eqn:Hu; [|done].
  apply update_result_Ok in Hu as (_ & s0 & Hs0 & Hv & ->). simpl in Hs0.
  assert (s0 = s) as -> by congruence.
  intros [= <- <- <-]. exists s. split; [done|]. split; [done|]. done.
Qed.

Lemma Unlock_failure m ins loc w :
  (run (Unlock m) ins loc w).1.1.1 ≠ None →
  leases (run (Unlock m) ins loc w).2 = leases w.
Proof.
  rewrite run_Unlock. cbn [fst snd on_get store_get].
  destruct (get_result _ _ _ _) as [l|e]; [|done].
  destruct (HolderIdentity (Spec l)) as [h|]; [|done].
  destruct (decide (h ≠ uniqueID m)); [done|].
  cbn [fst snd on_update store_update].
  by destruct (update_result _ _ _ _).
Qed.

Lemma Unlock_total m ins loc w s :
  leases w !! key m = Some s →
  HolderIdentity (s_spec s) = Some (uniqueID m) →
  fault (hd idle ins) = None → fault (hd idle (tl ins)) = None →
  (run (Unlock m) ins loc w).1.1.1 = None.
Proof.
  intros Hs Hh Hf0 Hf1. rewrite run_Unlock. cbn [fst snd on_get store_get].
  unfold get_result. rewrite Hf0. unfold key in Hs.
  cbn [leases arrive set_clock]. rewrite Hs. cbn [Spec lease_of]. rewrite Hh.
  rewrite decide_False by (intros Hne; by apply Hne).
  cbn [fst snd on_update store_update]. unfold update_result.
  rewrite Hf1. simpl. rewrite Hs. by rewrite decide_True.
Qed.

(** C8 (amended). A successful [Extend] sets [renewTime] to [r], the
    reading of the clock it takes, and changes nothing else in the
    record: holder, acquire time, duration and transitions stay as they
    were. When that [Extend] follows a successful [Lock], the acquire
    time [a] that [Lock] wrote is still in the record and is not later
    than [r]; it is strictly earlier than [r] as soon as the clock has
    moved on between the return of [Lock] and the reading taken by
    [Extend]; and a renew time left in the record by a previous holder
    whose duration was not negative is not later than [a]. *)
Theorem Extend_sets_renew_time (m : Mutex) (ins : list Input) (loc : Local)
    (w : World) (ins' : list Input) (loc' : Local) (w' : World) :
  run (Extend m) ins loc w = (None, ins', loc', w') →
  let r := clock w + Z.of_N (elapsed (hd idle ins))
           + Z.of_N (elapsed (hd idle (tl ins))) in
  (∃ s, leases w !! key m = Some s ∧
     HolderIdentity (s_spec s) = Some (uniqueID m) ∧
     leases w' =
       <[key m :=
           {| s_labels := s_labels s;
              s_version := N.succ (s_version s);
              s_spec :=
                {| HolderIdentity := HolderIdentity (s_spec s);
                   LeaseDurationSeconds := LeaseDurationSeconds (s_spec s);
                   AcquireTime := AcquireTime (s_spec s);
                   RenewTime := Some r;
                   LeaseTransitions := LeaseTransitions (s_spec s) |} |}]>
         (leases w)) ∧
  (∀ fuel ins0 loc0 w0,
     call fuel (Lock m) ins0 loc0 w0 = (Some None, ins, loc, w) →
     ∃ a, spec_of m w ≫= AcquireTime = Some a ∧
          spec_of m w' ≫= AcquireTime = Some a ∧
          spec_of m w' ≫= RenewTime = Some r ∧
          a <= clock w ∧ a <= r ∧ (clock w < r → a < r) ∧
          (∀ r0 h dur,
             RenewTime (s_spec (found m w0)) = Some r0 →
             HolderIdentity (s_spec (found m w0)) = Some h →
             LeaseDurationSeconds (s_spec (found m w0)) = Some dur →
             0 <= dur → r0 <= a)).
Proof.
  intros Hext r.
  destruct (Extend_success _ _ _ _ _ _ _ Hext) as (s & Hs & Hh & Hl).
  split; [by exists s|].
  intros fuel ins0 loc0 w0 Hlock.
  apply Lock_success_spec in Hlock as (a & Ha & Hc & Hspec).
  exists a.
  assert (Hsa : s_spec s = claim_spec m a (s_spec (found m w0))).
  { unfold spec_of in Hspec. rewrite Hs in Hspec. simpl in Hspec. congruence. }
  unfold spec_of. rewrite Hl, Hs, lookup_insert_eq. simpl. rewrite Hsa. simpl.
  split_and!; try done; try lia.
  intros r0 h dur Hr0 Hh0 Hd0 Hdur.
  unfold claimable in Hc. rewrite Hh0, Hd0 in Hc.
  destruct (AcquireTime (s_spec (found m w0))) as [acq|]; [|done].
  unfold lease_expiry, time.Add, time.Second in Hc. rewrite Hr0 in Hc. lia.
Qed.

(** Alice locks, 50 ms pass, Alice extends. *)
Lemma Extend_sets_renew_time_witness :
  let o1 := call 1 (Lock alice)
              (replicate 6 idle ++ [wait (50 * time.Millisecond)])
              (live_at 0) (cluster 0 None) in
  let o2 := run (Extend alice) o1.1.1.2 o1.1.2 o1.2 in
  o1.1.1.1 = Some None ∧ o2.1.1.1 = None ∧
  ∃ a, spec_of alice o2.2 ≫= AcquireTime = Some a ∧
       spec_of alice o2.2 ≫= RenewTime = Some (50 * time.Millisecond) ∧
       a < 50 * time.Millisecond.
Proof.
  cbv zeta.
  set (o1 := call 1 (Lock alice)
               (replicate 6 idle ++ [wait (50 * time.Millisecond)])
               (live_at 0) (cluster 0 None)).
  set (o2 := run (Extend alice) o1.1.1.2 o1.1.2 o1.2).
  assert (H1 : o1 = (Some None, o1.1.1.2, o1.1.2, o1.2))
    by (vm_compute; reflexivity).
  assert (H2 : o2 = (None, o2.1.1.2, o2.1.2, o2.2))
    by (vm_compute; reflexivity).
  split; [by rewrite H1|]. split; [by rewrite H2|].
  destruct (proj2 (Extend_sets_renew_time alice _ _ _ _ _ _ H2)
              1%nat _ (live_at 0) (cluster 0 None) H1)
    as (a & _ & Ha & Hr & _ & _ & Hlt & _).
  exists a. split; [exact Ha|]. split.
  - etrans; [exact Hr|]. vm_compute. reflexivity.
  - apply Hlt. vm_compute. reflexivity.
Defined.

(** "Strictly later" fails when the clock reads the same at [Lock] and at
    [Extend]: the renew time then equals the acquire time. *)
Lemma Extend_sets_renew_time_counterexample :
  let o1 := call 1 (Lock alice) [] (live_at 0) (cluster 0 None) in
  let o2 := run (Extend alice) [] o1.1.2 o1.2 in
  o1.1.1.1 = Some None ∧ o2.1.1.1 = None ∧
  spec_of alice o2.2 ≫= AcquireTime = Some 0 ∧
  spec_of alice o2.2 ≫= RenewTime = Some 0 ∧
  ¬ (0 < 0).
Proof.
  cbv zeta. split_and!; [vm_compute; reflexivity..|lia].
Qed.

(** C9. A successful [Unlock] was made by the holder: the record named
    this mutex's identity, and what is stored afterwards is that record
    with holder, acquire time, renew time and duration unset and the
    transitions as they were. An [Unlock] that fails leaves the store as
    it was; in particular one made against a record held by another
    identity fails with [ErrLockedByAnother]. With the record held by
    this mutex and no failure of the store, [Unlock] succeeds. The same
    holds with other calls running in between the fetch and the update
    of an [Unlock]: whenever a step of an [Unlock] of [m] replaces the
    stored record, the record it replaces named [m]'s identity. *)
Theorem Unlock_clears (m : Mutex) (ins : list Input) (loc : Local) (w : World) :
  let o := run (Unlock m) ins loc w in
  (o.1.1.1 = None →
     ∃ s, leases w !! key m = Some s ∧
       HolderIdentity (s_spec s) = Some (uniqueID m) ∧
       leases o.2 =
         <[key m :=
             {| s_labels := s_labels s;
                s_version := N.succ (s_version s);
                s_spec :=
                  {| HolderIdentity := None;
                     LeaseDurationSeconds := None;
                     AcquireTime := None;
                     RenewTime := None;
                     LeaseTransitions := LeaseTransitions (s_spec s) |} |}]>
           (leases w)) ∧
  (o.1.1.1 ≠ None → leases o.2 = leases w) ∧
  (∀ s h, leases w !! key m = Some s →
     HolderIdentity (s_spec s) = Some h → h ≠ uniqueID m →
     fault (hd idle ins) = None →
     o.1.1.1 = Some ErrLockedByAnother ∧ leases o.2 = leases w) ∧
  (∀ s, leases w !! key m = Some s →
     HolderIdentity (s_spec s) = Some (uniqueID m) →
     fault (hd idle ins) = None → fault (hd idle (tl ins)) = None →
     o.1.1.1 = None) ∧
  (∀ w0 calls evs tid i loc0 rec,
     calls !! tid = Some (once (Unlock m), loc0) →
     leases (world (exec evs (boot w0 calls))) !! key m = Some rec →
     leases (world (sys_step (exec evs (boot w0 calls)) (tid, i))) !! key m
       ≠ Some rec →
     HolderIdentity (s_spec rec) = Some (uniqueID m)).
Proof.
  cbv zeta. split_and!.
  - intros Hres.
    destruct (run (Unlock m) ins loc w) as [[[r ins'] loc'] w'] eqn:Hrun.
    simpl in Hres. subst r. exact (Unlock_success _ _ _ _ _ _ _ Hrun).
  - apply Unlock_failure.
  - intros s h Hs Hh Hne Hf.
    destruct (Unlock_checked m ins loc w) as (_ & Hother & Hquiet).
    assert (Hres : (run (Unlock m) ins loc w).1.1.1 = Some ErrLockedByAnother).
    { apply Hother. split; [done|]. by exists s, h. }
    split; [done|]. apply Hquiet. by right.
  - intros s. apply Unlock_total.
  - intros w0 calls evs tid i loc0 rec Hcall Hrec Hne.
    destruct (exec_routine w0 calls evs tid _ Hcall) as (t & Ht & Hr).
    pose proof (unlock_ok_always w0 calls evs tid t Ht m Hr) as Hat.
    unfold sys_step in Hne. simpl in Hne. rewrite Ht in Hne. simpl in Hne.
    eapply unlock_step_lands; [exact Hat|exact Hrec|exact Hne].
Qed.

(** Alice unlocks the lease she holds, which had been renewed; Bob's
    attempt on the same lease changes nothing. *)
Lemma Unlock_clears_witness :
  let w := cluster (7 * time.Second)
             (Some (held_by "host-a-1f0e" 0 (Some (5 * time.Second)) 3)) in
  (run (Unlock alice) [] (live_at 0) w).1.1.1 = None ∧
  spec_of alice (run (Unlock alice) [] (live_at 0) w).2 =
    Some {| HolderIdentity := None; LeaseDurationSeconds := None;
            AcquireTime := None; RenewTime := None;
            LeaseTransitions := Some 3 |} ∧
  (run (Unlock bob) [] (live_at 0) w).1.1.1 = Some ErrLockedByAnother ∧
  leases (run (Unlock bob) [] (live_at 0) w).2 = leases w.
Proof.
  cbv zeta.
  set (w := cluster (7 * time.Second)
              (Some (held_by "host-a-1f0e" 0 (Some (5 * time.Second)) 3))).
  destruct (Unlock_clears alice [] (live_at 0) w) as (Hok & _ & _ & Htot & _).
  destruct (Unlock_clears bob [] (live_at 0) w) as (_ & _ & Hother & _ & _).
  assert (Hres : (run (Unlock alice) [] (live_at 0) w).1.1.1 = None).
  { apply (Htot (held_by "host-a-1f0e" 0 (Some (5 * time.Second)) 3));
      reflexivity. }
  split; [exact Hres|]. split.
  - destruct (Hok Hres) as (s & Hs & _ & Hl).
    unfold spec_of. rewrite Hl, lookup_insert_eq. simpl.
    assert (s = held_by "host-a-1f0e" 0 (Some (5 * time.Second)) 3) as ->.
    { assert (Some s = Some (held_by "host-a-1f0e" 0 (Some (5 * time.Second)) 3))
        as Heq by (rewrite <- Hs; reflexivity).
      congruence. }
    reflexivity.
  - apply (Hother (held_by "host-a-1f0e" 0 (Some (5 * time.Second)) 3)
             "host-a-1f0e"); [reflexivity|reflexivity|discriminate|reflexivity].
Defined.

(** C10. [Extend] makes no expiration check. Whatever the times in the
    record, and so also when its expiration time is in the past, an
    [Extend] by the identity the record names, whose fetch and update
    go through, returns [nil] and sets [renewTime] to the reading of the
    clock; the rest of the record stays. *)
Theorem Extend_ignores_expiry (m : Mutex) (ins : list Input) (loc : Local)
    (w : World) (s : Stored) :
  leases w !! key m = Some s →
  HolderIdentity (s_spec s) = Some (uniqueID m) →
  fault (hd idle ins) = None → fault (hd idle (tl (tl ins))) = None →
  let o := run (Extend m) ins loc w in
  let r := clock w + Z.of_N (elapsed (hd idle ins))
           + Z.of_N (elapsed (hd idle (tl ins))) in
  o.1.1.1 = None ∧
  spec_of m o.2 =
    Some {| HolderIdentity := Some (uniqueID m);
            LeaseDurationSeconds := LeaseDurationSeconds (s_spec s);
            AcquireTime := AcquireTime (s_spec s);
            RenewTime := Some r;
            LeaseTransitions := LeaseTransitions (s_spec s) |}.
Proof.
  intros Hs Hh Hf0 Hf2. cbv zeta.
  pose proof (Extend_total m ins loc w s Hs Hh Hf0 Hf2) as Hres.
  split; [exact Hres|].
  destruct (run (Extend m) ins loc w) as [[[res ins'] loc'] w'] eqn:Hrun.
  simpl in Hres. subst res.
  destruct (Extend_success _ _ _ _ _ _ _ Hrun) as (s0 & Hs0 & _ & Hl).
  assert (s0 = s) as -> by congruence.
  unfold spec_of. simpl. rewrite Hl, lookup_insert_eq. simpl.
  unfold renew_spec. by rewrite Hh.
Qed.

(** At 60 s Alice extends the lease she took at 0 s for ten seconds and
    never renewed: it expired at 10 s, and the extension goes through. *)
Lemma Extend_ignores_expiry_witness :
  let w := cluster (60 * time.Second) (Some (held_by "host-a-1f0e" 0 None 1)) in
  let o := run (Extend alice) [] (live_at (60 * time.Second)) w in
  held_at (s_spec (held_by "host-a-1f0e" 0 None 1)) (clock w) = false ∧
  o.1.1.1 = None ∧
  spec_of alice o.2 =
    Some {| HolderIdentity := Some "host-a-1f0e";
            LeaseDurationSeconds := Some 10;
            AcquireTime := Some 0;
            RenewTime := Some (60 * time.Second);
            LeaseTransitions := Some 1 |}.
Proof.
  cbv zeta. split; [reflexivity|].
  exact (Extend_ignores_expiry alice [] (live_at (60 * time.Second))
           (cluster (60 * time.Second) (Some (held_by "host-a-1f0e" 0 None 1)))
           (held_by "host-a-1f0e" 0 None 1) eq_refl eq_refl eq_refl eq_refl).
Defined.

(* ===================================================================== *)
(** * The package's tests, replayed *)
(* ===================================================================== *)

(** [TestCanLockUnlock] *)
Example can_lock_unlock :
  let o1 := call 1 (Lock alice) [] (live_at 0) (cluster 0 None) in
  let o2 := run (Unlock alice) [] o1.1.2 o1.2 in
  o1.1.1.1 = Some None ∧ o2.1.1.1 = None.
Proof. vm_compute. done. Qed.

(** [TestShouldFailUnlockWithoutLock] *)
Example should_fail_unlock_without_lock :
  (run (Unlock alice) [] (live_at 0) (cluster 0 None)).1.1.1
  = Some ErrNotLocked.
Proof. reflexivity. Qed.

(** [TestShouldBeAbleToExtend]: no renew time after [Lock]; after 50 ms
    and [Extend] the renew time is later than the acquire time, which has
    not changed. *)
Example should_be_able_to_extend :
  let o1 := call 1 (Lock alice) [] (live_at 0) (cluster 0 None) in
  let o2 := run (Extend alice) [wait (50 * time.Millisecond)] o1.1.2 o1.2 in
  spec_of alice o1.2 ≫= RenewTime = None ∧
  o2.1.1.1 = None ∧
  spec_of alice o2.2 ≫= RenewTime = Some (50 * time.Millisecond) ∧
  spec_of alice o2.2 ≫= AcquireTime = spec_of alice o1.2 ≫= AcquireTime.
Proof. vm_compute. done. Qed.

(** [TestShouldSupportDistributedLocking]: while Alice holds the lease
    Bob's [Lock] is still polling after eight turns, two seconds on; once
    Alice has unlocked, it succeeds. *)
Example should_support_distributed_locking :
  let o1 := call 1 (Lock alice) [] (live_at 0) (cluster 0 None) in
  let o2 := call 8 (Lock bob) [] (live_at 0) o1.2 in
  let o3 := run (Unlock alice) [] o1.1.2 o2.2 in
  let o4 := call 1 (Lock bob) [] o2.1.2 o3.2 in
  o2.1.1.1 = None ∧ clock o2.2 = 2 * time.Second ∧
  spec_of bob o2.2 ≫= HolderIdentity = Some "host-a-1f0e" ∧
  o3.1.1.1 = None ∧ o4.1.1.1 = Some None ∧
  spec_of bob o4.2 ≫= HolderIdentity = Some "host-b-77c2".
Proof. vm_compute. done. Qed.

(** Lock, unlock, lock again: both succeed and the transitions end at 2. *)
Example lock_unlock_lock_again :
  let o1 := call 1 (Lock alice) [] (live_at 0) (cluster 0 None) in
  let o2 := run (Unlock alice) [] o1.1.2 o1.2 in
  let o3 := call 1 (Lock alice) [] o2.1.2 o2.2 in
  o1.1.1.1 = Some None ∧ o2.1.1.1 = None ∧ o3.1.1.1 = Some None ∧
  spec_of alice o3.2 ≫= LeaseTransitions = Some 2.
Proof. vm_compute. done. Qed.

(** [int32(math.Round(d.Seconds()))] on a few durations: halves go away
    from zero. *)
Example rounded_seconds :
  map (fun d => int32_of_float64 (math.Round (time.Seconds d)))
      [10000000000; 1500000000; 2500000000; 1499999999; 400000000;
       -1500000000; 0]
  = [10; 2; 3; 1; 0; -2; 0].
Proof. vm_compute. reflexivity. Qed.

(** What the renew time kept by a takeover costs: Bob takes the stale
    lease at 20 s, and Carol takes it from Bob at that same instant,
    because Bob's lease is measured from the renew time of 5 s. *)
Example stale_renew_time_admits_a_second_holder :
  let w := cluster (20 * time.Second) (Some stale) in
  let o1 := call 1 (Lock bob) [] (live_at (20 * time.Second)) w in
  let o2 := call 1 (Lock carol) [] (live_at (20 * time.Second)) o1.2 in
  o1.1.1.1 = Some None ∧
  spec_of bob o1.2 ≫= HolderIdentity = Some "host-b-77c2" ∧
  o2.1.1.1 = Some None ∧
  spec_of bob o2.2 ≫= HolderIdentity = Some "host-c-90ab" ∧
  clock o2.2 = 20 * time.Second.
Proof. vm_compute. done. Qed.

(** An [Unlock] overtaken by a takeover. Alice, holding a lease taken at
    0 s, starts an [Unlock] at 9 s and fetches the record; the lease
    runs out, and Bob's [Lock] takes it at 11 s; Alice's update then
    arrives with the version she had fetched, the store refuses it, and
    Bob's lease stands. *)
Example unlock_overtaken_by_a_takeover :
  let s := exec ([(0%nat, idle); (1%nat, wait (2 * time.Second))] ++
                 replicate 5 (1%nat, idle) ++
                 [(0%nat, idle); (1%nat, idle)])
             (boot (cluster (9 * time.Second)
                      (Some (held_by "host-a-1f0e" 0 None 1)))
                [(once (Unlock alice), live_at 0); (Lock bob, live_at 0)]) in
  returned <$> threads s =
    [Some (Some (ErrUnlockUpdate Conflict)); Some None] ∧
  spec_of alice (world s) =
    Some {| HolderIdentity := Some "host-b-77c2";
            LeaseDurationSeconds := Some 10;
            AcquireTime := Some (11 * time.Second);
            RenewTime := None;
            LeaseTransitions := Some 2 |}.
Proof. vm_compute. done. Qed.

(* ===================================================================== *)
(** * Further properties of the package *)
(* ===================================================================== *)

(** ** Identities *)

Lemma append_nil (b : string) : "" +:+ b = b.
Proof. reflexivity. Qed.

Lemma append_cons c (a b : string) : String c a +:+ b = String c (a +:+ b).
Proof. reflexivity. Qed.

Lemma length_append (a b : string) :
  String.length (a +:+ b) = (String.length a + String.length b)%nat.
Proof.
  induction a as [|c a IH]; [done|]. rewrite append_cons. simpl. by rewrite IH.
Qed.

Lemma append_inj_2 (a1 a2 b1 b2 : string) :
  String.length b1 = String.length b2 →
  a1 +:+ b1 = a2 +:+ b2 → a1 = a2 ∧ b1 = b2.
Proof.
  revert a2. induction a1 as [|c a1 IH]; intros [|c2 a2] Hlen Heq.
  - done.
  - apply (f_equal String.length) in Heq.
    rewrite !length_append in Heq. simpl in Heq. lia.
  - apply (f_equal String.length) in Heq.
    rewrite !length_append in Heq. simpl in Heq. lia.
  - rewrite !append_cons in Heq. injection Heq as -> Heq.
    destruct (IH a2 Hlen Heq) as [-> ->]. done.
Qed.

(** X1. [New] gives distinct processes distinct identities: with suffixes of
    one length, as the values of [uuid.NewUUID()] are, two identities
    are equal only if the instance labels are equal and the suffixes
    are equal; and every mutex of a syncer carries its identity. *)
Theorem New_identity_injective (ns1 ns2 i1 i2 u1 u2 n1 n2 : string) :
  String.length u1 = String.length u2 →
  uniqueID (NewMutex (New ns1 i1 u1) n1) = uniqueID (NewMutex (New ns2 i2 u2) n2)
  ↔ i1 = i2 ∧ u1 = u2.
Proof.
  intros Hlen. simpl. split; [|by intros [-> ->]].
  intros Heq.
  apply append_inj_2 in Heq as [-> Heq];
    [|rewrite !length_append; by rewrite Hlen].
  rewrite !append_cons, !append_nil in Heq. by injection Heq as ->.
Qed.

(** The two syncers of [TestShouldSupportDistributedLocking] are built
    from the same instance label: their identities are equal only if
    the suffixes are. *)
Lemma New_identity_injective_witness :
  String.length "0a1b" = String.length "2c3d" ∧
  (uniqueID (NewMutex (New "test-lock-namespace" "host" "0a1b") "test-lock")
   = uniqueID (NewMutex (New "test-lock-namespace" "host" "2c3d") "test-lock")
   ↔ "host" = "host" ∧ "0a1b" = "2c3d").
Proof.
  split; [reflexivity|]. apply New_identity_injective. reflexivity.
Defined.

(** ** One turn of the loop *)

(** A turn that ends at [continue] has slept: the store is as it was,
    the token is live, and the retry interval has passed. *)
Lemma lock_retry_continue m ins loc w :
  let o := run (lock_retry m) ins loc w in
  o.1.1.1 = Continue →
  leases o.2 = leases w ∧ actions o.2 = actions w ∧ ctx o.1.2 = None ∧
  o.1.1.2 = tl ins ∧ since loc + retryDur m <= clock o.2.
Proof.
  rewrite run_lock_retry. unfold on_sleep. simpl.
  destruct (fire (hd idle ins) (ctx loc)) as [c|] eqn:Hfire; simpl; [done|].
  intros _. split_and!; try done. lia.
Qed.

Lemma lock_exit_no_continue ins loc w :
  (run lock_exit ins loc w).1.1.1 ≠ Continue.
Proof. rewrite lock_exit_result. done. Qed.

Lemma lock_iter_continue m ins loc w :
  let o := run (lock_iter m) ins loc w in
  o.1.1.1 = Continue →
  leases o.2 = leases w ∧ ctx o.1.2 = None ∧
  clock w + retryDur m <= clock o.2.
Proof.
  rewrite run_lock_iter. cbn [fst snd on_ctx_err].
  destruct (fire (hd idle ins) (ctx loc)) as [c|] eqn:Hfire.
  { intros H. by apply lock_exit_no_continue in H. }
  rewrite run_lock_get. cbn [fst snd on_get store_get].
  destruct (get_result _ _ _ _) as [l|e] eqn:Hg; [|done].
  rewrite run_lock_fetched.
  assert (Hclaim : ∀ ins0 loc0 w0,
    clock w <= clock w0 → leases w0 = leases w →
    let o := run (lock_claim m l) ins0 loc0 w0 in
    o.1.1.1 = Continue →
    leases o.2 = leases w ∧ ctx o.1.2 = None ∧
    clock w + retryDur m <= clock o.2).
  { intros ins0 loc0 w0 Hsince Hl0. rewrite run_lock_claim.
    cbn [fst snd on_now]. rewrite run_lock_update.
    cbn [fst snd on_update store_update].
    destruct (update_result _ _ _ _) as [l'|e] eqn:Hu.
    { intros H. by apply lock_exit_no_continue in H. }
    intros H. apply lock_retry_continue in H as (Hl & _ & Hc & _ & Ht).
    simpl in *. split_and!; [congruence|done|lia]. }
  destruct (HolderIdentity (Spec l)) as [h|].
  - destruct (LeaseDurationSeconds (Spec l)) as [dur|]; [|done].
    destruct (AcquireTime (Spec l)) as [acq|]; [|done].
    cbn [fst snd on_now].
    destruct (time.After _ _).
    + intros H. apply lock_retry_continue in H as (Hl & _ & Hc & _ & Ht).
      simpl in *. split_and!; [done|done|lia].
    + apply Hclaim; simpl; [lia|done].
  - apply Hclaim; simpl; [lia|done].
Qed.

(** ** The loop of [lock] *)

Lemma loop_lock_polls fuel m ins loc w ins' loc' w' :
  loop fuel (lock_iter m) ins loc w = (None, ins', loc', w') →
  clock w + Z.of_nat fuel * retryDur m <= clock w' ∧ leases w' = leases w.
Proof.
  revert ins loc w. induction fuel as [|n IH]; intros ins loc w.
  - intros [= <- <- <-]. split; [lia|done].
  - cbn [loop].
    pose proof (lock_iter_continue m ins loc w) as Hturn. cbv zeta in Hturn.
    destruct ((run (lock_iter m) ins loc w).1.1.1) as [e|]; [done|].
    destruct Hturn as (Hl & _ & Hc); [done|].
    intros Hloop. apply IH in Hloop as [Hc' Hl']. split; [lia|congruence].
Qed.

(** X2. [Lock] polls no faster than its retry interval, and leaves the store
    alone while it polls: a call that is still in its loop after [fuel]
    turns has let [fuel] retry intervals pass, and the only thing it may
    have changed in the store is to have created the record, empty, if
    there was none. *)
Theorem Lock_polls_at_retry_interval (m : Mutex) (fuel : nat)
    (ins : list Input) (loc : Local) (w : World)
    (ins' : list Input) (loc' : Local) (w' : World) :
  call fuel (Lock m) ins loc w = (None, ins', loc', w') →
  clock w + Z.of_nat fuel * retryDur m <= clock w' ∧
  (leases w' = leases w ∨
   (leases w !! key m = None ∧
    leases w' = <[key m := {| s_labels := Labels (Meta (new_lease m));
                              s_version := 1;
                              s_spec := empty_spec |}]> (leases w))).
Proof.
  unfold call, Lock, lock. cbn [entry body]. rewrite run_lock_create.
  cbn [fst snd on_create store_create].
  destruct (create_result _ _ _ _) as [l'|e] eqn:Hcr; cbn [commit].
  - apply create_result_Ok in Hcr as (Hf & Hnone & ->). simpl in Hnone.
    intros Hloop. apply loop_lock_polls in Hloop as [Hc Hl]. simpl in *.
    split; [lia|]. right. split; [done|]. by rewrite Hl.
  - destruct (IsAlreadyExists e); [|done].
    intros Hloop. apply loop_lock_polls in Hloop as [Hc Hl]. simpl in *.
    split; [lia|]. by left.
Qed.

(** Bob's [Lock] against the lease Alice took at 0 s is still polling
    after eight turns, two seconds on. *)
Lemma Lock_polls_at_retry_interval_witness :
  let w := cluster 0 (Some (held_by "host-a-1f0e" 0 None 1)) in
  let o := call 8 (Lock bob) [] (live_at 0) w in
  o.1.1.1 = None ∧ 2 * time.Second <= clock o.2 ∧ leases o.2 = leases w.
Proof.
  cbv zeta.
  set (w := cluster 0 (Some (held_by "host-a-1f0e" 0 None 1))).
  set (o := call 8 (Lock bob) [] (live_at 0) w).
  assert (Ho : o = (None, o.1.1.2, o.1.2, o.2)) by (vm_compute; reflexivity).
  split; [by rewrite Ho|].
  destruct (Lock_polls_at_retry_interval bob 8 [] (live_at 0) w _ _ _ Ho)
    as [Hc [Hl|[Hnone _]]].
  - split; [|exact Hl]. etrans; [|exact Hc]. vm_compute. discriminate.
  - vm_compute in Hnone. discriminate Hnone.
Defined.

(** With a live token and no failure, a turn of the loop on a well-formed
    record either takes the lease or ends at [continue]. *)
Lemma lock_iter_turn m s ins loc w t :
  leases w !! key m = Some s → ctx loc = None → Forall benign ins →
  claimable (s_spec s) t →
  let o := run (lock_iter m) ins loc w in
  o.1.1.1 = Return None ∨ (o.1.1.1 = Continue ∧ Forall benign o.1.1.2).
Proof.
  intros Hs Hctx Hb Hc.
  pose proof (benign_hd _ Hb) as H0.
  pose proof (benign_hd _ (benign_tl _ Hb)) as H1.
  pose proof (benign_hd _ (benign_tl _ (benign_tl _ Hb))) as H2.
  pose proof (benign_hd _ (benign_tl _ (benign_tl _ (benign_tl _ Hb)))) as H3.
  rewrite run_lock_iter. cbn [fst snd on_ctx_err].
  rewrite Hctx, fire_benign by done.
  rewrite run_lock_get. cbn [fst snd on_get store_get].
  unfold get_result. rewrite (proj1 H1). simpl. unfold key in Hs. rewrite Hs.
  rewrite run_lock_fetched. simpl. unfold claimable in Hc.
  destruct (HolderIdentity (s_spec s)) as [h|] eqn:Hh.
  - destruct (LeaseDurationSeconds (s_spec s)) as [dur|] eqn:Hd; [|done].
    destruct (AcquireTime (s_spec s)) as [acq|] eqn:Ha; [|done].
    destruct (time.After _ _).
    + right. rewrite run_lock_retry. unfold on_sleep. simpl.
      rewrite (proj2 H1), !fire_benign by done. simpl.
      split; [done|]. by do 4 apply benign_tl.
    + left. apply lock_claim_benign; [done| |by do 3 apply benign_tl].
      simpl. by rewrite (proj2 H1), !fire_benign.
  - left. apply lock_claim_benign; [done| |by do 2 apply benign_tl].
    simpl. by rewrite (proj2 H1).
Qed.

Lemma loop_lock_acquires n m s ins loc w :
  leases w !! key m = Some s → ctx loc = None → Forall benign ins →
  claimable (s_spec s) (clock w + Z.of_nat n * retryDur m) →
  (loop (S n) (lock_iter m) ins loc w).1.1.1 = Some None.
Proof.
  revert ins loc w. induction n as [|n IH]; intros ins loc w Hs Hctx Hb Hc.
  - cbn [loop]. rewrite (lock_iter_benign m s); [done..|].
    eapply claimable_later; [|exact Hc]. lia.
  - change (loop (S (S n)) (lock_iter m) ins loc w)
      with (let o := run (lock_iter m) ins loc w in
            match o.1.1.1 with
            | Return e => (Some e, o.1.1.2, o.1.2, o.2)
            | Continue => loop (S n) (lock_iter m) o.1.1.2 o.1.2 o.2
            end).
    cbv zeta.
    pose proof (lock_iter_turn m s ins loc w _ Hs Hctx Hb Hc) as Hturn.
    pose proof (lock_iter_continue m ins loc w) as Hcont.
    cbv zeta in Hturn, Hcont.
    destruct Hturn as [Hres|[Hres Hb']].
    + by rewrite Hres.
    + rewrite Hres. destruct (Hcont Hres) as (Hl & Hctx' & Hclock).
      apply (IH _ _ _); [by rewrite Hl|done|done|].
      eapply claimable_later; [|exact Hc]. lia.
Qed.

(** X3. A waiting [Lock] gets the lease once it has expired. With a live
    token and no failure of the store, and whatever time the calls take,
    a [Lock] whose lease is unheld, or held with duration and acquire
    time and expiring no later than [n] retry intervals from now, has
    returned [nil] after at most [n] turns of waiting and one more.
    Whose lease it is makes no difference: the holder may be this
    mutex's own identity. *)
Theorem Lock_acquires_after_expiry (m : Mutex) (n : nat) (ins : list Input)
    (loc : Local) (w : World) :
  ctx loc = None → Forall benign ins →
  claimable (s_spec (found m w)) (clock w + Z.of_nat n * retryDur m) →
  (call (S n) (Lock m) ins loc w).1.1.1 = Some None.
Proof.
  intros Hctx Hb Hc.
  pose proof (benign_hd _ Hb) as H0.
  destruct (lock_create_benign m ins loc w (proj1 H0))
    as (Hres & Hins & Hctx1 & Hs1 & Hc1).
  unfold call, Lock, lock. cbn [entry body]. rewrite Hres.
  apply (loop_lock_acquires n m (found m w)); [done| | |].
  - by rewrite Hctx1, Hctx, fire_benign.
  - rewrite Hins. by apply benign_tl.
  - eapply claimable_later; [|exact Hc]. lia.
Qed.

(** Alice took the lease at 0 s for ten seconds and never came back;
    Bob, whose [Lock] started at 0 s too, has it after forty retry
    intervals, at 10 s. *)
Lemma Lock_acquires_after_expiry_witness :
  let w := cluster 0 (Some (held_by "host-a-1f0e" 0 None 1)) in
  ctx (live_at 0) = None ∧
  claimable (s_spec (found bob w)) (clock w + Z.of_nat 40 * retryDur bob) ∧
  (call 41 (Lock bob) [] (live_at 0) w).1.1.1 = Some None ∧
  (call 40 (Lock bob) [] (live_at 0) w).1.1.1 = None.
Proof.
  cbv zeta.
  assert (Hc : claimable
                 (s_spec (found bob (cluster 0 (Some (held_by "host-a-1f0e" 0 None 1)))))
                 (clock (cluster 0 (Some (held_by "host-a-1f0e" 0 None 1)))
                  + Z.of_nat 40 * retryDur bob))
    by (vm_compute; discriminate).
  split_and!; [reflexivity|exact Hc| |vm_compute; reflexivity].
  exact (Lock_acquires_after_expiry bob 40 [] (live_at 0)
           (cluster 0 (Some (held_by "host-a-1f0e" 0 None 1)))
           eq_refl (Forall_nil_2 _) Hc).
Defined.

Lemma loop_lock_clock fuel m ins loc w :
  clock w <= clock (loop fuel (lock_iter m) ins loc w).2.
Proof.
  revert ins loc w. induction fuel as [|n IH]; intros ins loc w; [done|].
  cbn [loop]. destruct (lock_iter_post m ins loc w) as [Hc _].
  destruct ((run (lock_iter m) ins loc w).1.1.1); [done|].
  etrans; [exact Hc|apply IH].
Qed.

(** A turn of the loop on a lease that is held does not get as far as an
    update before the lease expires. *)
Lemma lock_iter_before_expiry m s e ins loc w :
  leases w !! key m = Some s → held_until (s_spec s) e →
  let o := run (lock_iter m) ins loc w in
  clock o.2 < e →
  updates (actions o.2) = updates (actions w) ∧ leases o.2 = leases w ∧
  o.1.1.1 ≠ Return None.
Proof.
  intros Hs (h & dur & acq & Hh & Hd & Ha & ->).
  rewrite run_lock_iter. cbn [fst snd on_ctx_err].
  destruct (fire (hd idle ins) (ctx loc)) as [c|] eqn:Hfire.
  { rewrite lock_exit_result, lock_exit_leases, lock_exit_actions. done. }
  rewrite run_lock_get. cbn [fst snd on_get store_get].
  destruct (get_result _ _ _ _) as [l|err] eqn:Hg.
  2:{ simpl. rewrite updates_app. simpl. by rewrite app_nil_r. }
  apply get_result_Ok in Hg as (_ & s0 & Hs0 & ->). simpl in Hs0.
  unfold key in Hs. assert (s0 = s) as -> by congruence.
  rewrite run_lock_fetched. cbn [Spec lease_of]. rewrite Hh, Hd, Ha.
  cbn [fst snd on_now].
  destruct (time.After _ _) eqn:Hafter.
  - match goal with
    | |- context [run (lock_retry m) ?a ?b ?c] =>
        destruct (lock_retry_post m a b c) as (Hl & Hact & _ & Hr)
    end.
    intros _. cbv zeta in Hl, Hact, Hr. rewrite Hl, Hact, Hr. simpl.
    rewrite updates_app. simpl.
    rewrite app_nil_r. split_and!; try done.
    match goal with |- context [match ?x with _ => _ end] => by destruct x end.
  - unfold time.After in Hafter. apply Z.ltb_ge in Hafter.
    match goal with
    | |- context [run (lock_claim m ?l) ?a ?b ?c] =>
        destruct (lock_claim_post m s a b c) as [Hc _]
    end; [done| |].
    { unfold claimable. rewrite Hh, Hd, Ha. exact Hafter. }
    intros Hlt. simpl in *. lia.
Qed.

Lemma loop_lock_before_expiry fuel m s e ins loc w :
  leases w !! key m = Some s → held_until (s_spec s) e →
  let o := loop fuel (lock_iter m) ins loc w in
  clock o.2 < e →
  updates (actions o.2) = updates (actions w) ∧ leases o.2 = leases w ∧
  o.1.1.1 ≠ Some None.
Proof.
  revert ins loc w. induction fuel as [|n IH]; intros ins loc w Hs He; [done|].
  cbn [loop]. cbv zeta.
  pose proof (lock_iter_before_expiry m s e ins loc w Hs He) as Hturn.
  cbv zeta in Hturn.
  destruct ((run (lock_iter m) ins loc w).1.1.1) as [r|] eqn:Hres.
  - cbn [fst snd]. intros Hlt. destruct (Hturn Hlt) as (Hu & Hl & Hne).
    split_and!; [done|done|]. intros [= ->]. done.
  - intros Hlt.
    pose proof (loop_lock_clock n m (run (lock_iter m) ins loc w).1.1.2
                  (run (lock_iter m) ins loc w).1.2
                  (run (lock_iter m) ins loc w).2) as Hmono.
    destruct Hturn as (Hu & Hl & _); [lia|].
    destruct (IH (run (lock_iter m) ins loc w).1.1.2
                 (run (lock_iter m) ins loc w).1.2
                 (run (lock_iter m) ins loc w).2) as (Hu' & Hl' & Hne');
      [by rewrite Hl|done|done|].
    split_and!; [congruence|congruence|done].
Qed.

(** X4. [Lock] does not touch a lease before it expires. If the record is
    held, by whatever identity, this mutex's own included, and the call
    comes to its end (or is looked at while still polling) before the
    expiration time, then whatever the token and the store did it has
    submitted no update, the store is as it was, and it has not returned
    [nil]: [Lock] is not reentrant, and a [Lock] cancelled while it
    waits leaves no trace. *)
Theorem Lock_no_update_before_expiry (m : Mutex) (s : Stored) (e : time.Time)
    (fuel : nat) (ins : list Input) (loc : Local) (w : World) :
  leases w !! key m = Some s → held_until (s_spec s) e →
  clock (call fuel (Lock m) ins loc w).2 < e →
  updates (actions (call fuel (Lock m) ins loc w).2) = updates (actions w) ∧
  leases (call fuel (Lock m) ins loc w).2 = leases w ∧
  (call fuel (Lock m) ins loc w).1.1.1 ≠ Some None.
Proof.
  intros Hs He. unfold call, Lock, lock. cbn [entry body].
  rewrite run_lock_create. cbn [fst snd on_create store_create].
  unfold create_result. unfold key in Hs. cbn [Name Meta new_lease leases arrive set_clock].
  rewrite Hs.
  assert (Hloop : ∀ ins0 loc0 w0,
    leases w0 = leases w → updates (actions w0) = updates (actions w) →
    clock (loop fuel (lock_iter m) ins0 loc0 w0).2 < e →
    updates (actions (loop fuel (lock_iter m) ins0 loc0 w0).2)
      = updates (actions w) ∧
    leases (loop fuel (lock_iter m) ins0 loc0 w0).2 = leases w ∧
    (loop fuel (lock_iter m) ins0 loc0 w0).1.1.1 ≠ Some None).
  { intros ins0 loc0 w0 Hl Hu Hlt.
    destruct (loop_lock_before_expiry fuel m s e ins0 loc0 w0)
      as (Hu' & Hl' & Hne); [by rewrite Hl|done|done|].
    split_and!; [congruence|congruence|done]. }
  destruct (fault (hd idle ins)) as [err|]; cbn [commit fst snd].
  - destruct (IsAlreadyExists err); cbn [fst snd].
    + apply Hloop; [done|]. simpl. rewrite updates_app. simpl.
      by rewrite app_nil_r.
    + intros _. simpl. rewrite updates_app. simpl. by rewrite app_nil_r.
  - cbn [IsAlreadyExists]. apply Hloop; [done|]. simpl. rewrite updates_app.
    simpl. by rewrite app_nil_r.
Qed.

(** Alice, who took the lease at 0 s, calls [Lock] again one second
    later; her token fires while the call sleeps. The call returns the
    token's error and the store is as it was. *)
Lemma Lock_no_update_before_expiry_witness :
  let w := cluster time.Second (Some (held_by "host-a-1f0e" 0 None 1)) in
  let o := call 3 (Lock alice) (replicate 4 idle ++ [cancelling])
             (live_at time.Second) w in
  o.1.1.1 = Some (Some (ErrContext Canceled)) ∧
  updates (actions o.2) = [] ∧ leases o.2 = leases w.
Proof.
  cbv zeta.
  destruct (Lock_no_update_before_expiry alice
              (held_by "host-a-1f0e" 0 None 1) (10 * time.Second) 3
              (replicate 4 idle ++ [cancelling]) (live_at time.Second)
              (cluster time.Second (Some (held_by "host-a-1f0e" 0 None 1))))
    as (Hu & Hl & _).
  - reflexivity.
  - exists "host-a-1f0e", 10, 0. split_and!; reflexivity.
  - vm_compute. reflexivity.
  - split_and!; [vm_compute; reflexivity|exact Hu|exact Hl].
Defined.

(** ** What [Lock] returns when it fails *)

Lemma lock_claim_result m l ins loc w :
  let r := (run (lock_claim m l) ins loc w).1.1.1 in
  r = Return None ∨ r = Continue ∨ ∃ c, r = Return (Some (ErrContext c)).
Proof.
  rewrite run_lock_claim. cbn [fst snd on_now]. rewrite run_lock_update.
  cbn [fst snd on_update store_update].
  destruct (update_result _ _ _ _).
  - rewrite lock_exit_result. destruct (fire _ _); simpl; naive_solver.
  - match goal with
    | |- context [run (lock_retry m) ?a ?b ?c] =>
        destruct (lock_retry_post m a b c) as (_ & _ & _ & Hr)
    end.
    cbv zeta in Hr. rewrite Hr.
    match goal with |- context [match ?x with _ => _ end] => destruct x end;
      naive_solver.
Qed.

Lemma lock_iter_error m ins loc w e :
  let o := run (lock_iter m) ins loc w in
  o.1.1.1 = Return (Some e) →
  (∃ c, e = ErrContext c) ∨
  (leases o.2 = leases w ∧
   ((∃ err, e = ErrGetLease (namespace m) (name m) err) ∨
    (e = ErrNoDuration ∧
     ∃ s h, leases w !! key m = Some s ∧
       HolderIdentity (s_spec s) = Some h ∧
       (LeaseDurationSeconds (s_spec s) = None ∨
        AcquireTime (s_spec s) = None)))).
Proof.
  rewrite run_lock_iter. cbn [fst snd on_ctx_err].
  destruct (fire (hd idle ins) (ctx loc)) as [c|] eqn:Hfire.
  { rewrite lock_exit_result. simpl. intros [= <-]. left. eauto. }
  rewrite run_lock_get. cbn [fst snd on_get store_get].
  destruct (get_result _ _ _ _) as [l|err] eqn:Hg.
  2:{ simpl. intros [= <-]. right. split; [done|]. left. eauto. }
  apply get_result_Ok in Hg as (_ & s & Hs & ->). simpl in Hs.
  rewrite run_lock_fetched. cbn [Spec lease_of].
  assert (Hclaim : ∀ ins0 loc0 w0,
    (run (lock_claim m (lease_of (lease m) (name m) s)) ins0 loc0 w0).1.1.1
      = Return (Some e) → ∃ c, e = ErrContext c).
  { intros ins0 loc0 w0 Hr.
    destruct (lock_claim_result m (lease_of (lease m) (name m) s) ins0 loc0 w0)
      as [H|[H|[c H]]]; rewrite H in Hr; try done.
    injection Hr as <-. eauto. }
  destruct (HolderIdentity (s_spec s)) as [h|] eqn:Hh.
  - destruct (LeaseDurationSeconds (s_spec s)) as [dur|] eqn:Hd.
    2:{ simpl. intros [= <-]. right. split; [done|]. right. split; [done|].
        exists s, h. unfold key. eauto. }
    destruct (AcquireTime (s_spec s)) as [acq|] eqn:Ha.
    2:{ simpl. intros [= <-]. right. split; [done|]. right. split; [done|].
        exists s, h. unfold key. eauto. }
    cbn [fst snd on_now]. destruct (time.After _ _).
    + match goal with
      | |- context [run (lock_retry m) ?a ?b ?c] =>
          destruct (lock_retry_post m a b c) as (_ & _ & _ & Hr)
      end.
      cbv zeta in Hr. rewrite Hr.
      match goal with |- context [match ?x with _ => _ end] => destruct x end;
        [|done].
      intros [= <-]. left. eauto.
    + intros Hr. left. by eapply Hclaim.
  - intros Hr. left. by eapply Hclaim.
Qed.

Lemma loop_lock_error fuel m ins loc w ins' loc' w' e :
  loop fuel (lock_iter m) ins loc w = (Some (Some e), ins', loc', w') →
  (∃ c, e = ErrContext c) ∨
  (leases w' = leases w ∧
   ((∃ err, e = ErrGetLease (namespace m) (name m) err) ∨
    (e = ErrNoDuration ∧
     ∃ s h, leases w !! key m = Some s ∧
       HolderIdentity (s_spec s) = Some h ∧
       (LeaseDurationSeconds (s_spec s) = None ∨
        AcquireTime (s_spec s) = None)))).
Proof.
  revert ins loc w. induction fuel as [|n IH]; intros ins loc w; [done|].
  cbn [loop].
  pose proof (lock_iter_error m ins loc w e) as Herr.
  pose proof (lock_iter_continue m ins loc w) as Hcont.
  cbv zeta in Herr, Hcont.
  destruct ((run (lock_iter m) ins loc w).1.1.1) as [r|].
  - intros [= -> <- <- <-]. by apply Herr.
  - destruct Hcont as (Hl & _ & _); [done|].
    intros Hloop. apply IH in Hloop as [?|(Hl' & Hcases)]; [by left|].
    right. rewrite Hl in Hl', Hcases. done.
Qed.

(** X5. The errors of [Lock]. A [Lock] that fails returns a creation error
    whose cause is not "already exists", a fetch error, the error for a
    holder without duration or acquire time, or the token's error;
    never an error of [Update], which it answers by sleeping and trying
    again. Unless the error is the token's, the lease has not been
    taken: the store is as it was, apart from the empty record the call
    may have created. A creation error comes from the first call, and
    nothing was stored; the malformed record is the one in the store. *)
Theorem Lock_errors (m : Mutex) (fuel : nat) (ins : list Input) (loc : Local)
    (w : World) (e : error) (ins' : list Input) (loc' : Local) (w' : World) :
  call fuel (Lock m) ins loc w = (Some (Some e), ins', loc', w') →
  lock_error m e ∧
  ((∀ c, e ≠ ErrContext c) →
     leases w' = leases w ∨
     (leases w !! key m = None ∧
      leases w' = <[key m := {| s_labels := Labels (Meta (new_lease m));
                                s_version := 1;
                                s_spec := empty_spec |}]> (leases w))) ∧
  (∀ ns n cause, e = ErrCreateLease ns n cause →
     fault (hd idle ins) = Some cause ∧ leases w' = leases w ∧
     actions w' = actions w ++ [ActCreate (lease m) (new_lease m)]) ∧
  (e = ErrNoDuration →
     ∃ s h, leases w' !! key m = Some s ∧
       HolderIdentity (s_spec s) = Some h ∧
       (LeaseDurationSeconds (s_spec s) = None ∨
        AcquireTime (s_spec s) = None)).
Proof.
  unfold call, Lock, lock. cbn [entry body]. rewrite run_lock_create.
  cbn [fst snd on_create store_create].
  destruct (create_result _ _ _ _) as [l'|err] eqn:Hcr; cbn [commit].
  - apply create_result_Ok in Hcr as (Hf & Hnone & ->). simpl in Hnone.
    intros Hloop. apply loop_lock_error in Hloop as [[c ->]|(Hl & Hcases)].
    { split_and!; try done. intros Hne. by destruct (Hne c). }
    simpl in Hl. destruct Hcases as [[err ->]|(-> & s & h & Hs & Hh & Hm)].
    + split_and!; try done. intros _. right. split; [done|]. by rewrite Hl.
    + split_and!; try done.
      * intros _. right. split; [done|]. by rewrite Hl.
      * intros _. exists s, h. rewrite Hl. done.
  - unfold create_result in Hcr.
    destruct (fault (hd idle ins)) as [f|] eqn:Hf.
    + injection Hcr as <-. destruct (IsAlreadyExists f) eqn:Hae.
      * intros Hloop.
        apply loop_lock_error in Hloop as [[c ->]|(Hl & Hcases)].
        { split_and!; try done. intros Hne. by destruct (Hne c). }
        simpl in Hl.
        destruct Hcases as [[err ->]|(-> & s & h & Hs & Hh & Hm)].
        -- split_and!; try done. intros _. by left.
        -- split_and!; try done; [intros _; by left|].
           intros _. exists s, h. rewrite Hl. done.
      * intros [= <- <- <- <-]. simpl. split_and!; try done.
        -- intros _. by left.
        -- by intros ns n cause [= <- <- <-].
    + simpl in Hcr. destruct (leases w !! _) eqn:Hs; [|done].
      injection Hcr as <-. cbn [IsAlreadyExists].
      intros Hloop.
      apply loop_lock_error in Hloop as [[c ->]|(Hl & Hcases)].
      { split_and!; try done. intros Hne. by destruct (Hne c). }
      simpl in Hl.
      destruct Hcases as [[err ->]|(-> & s0 & h & Hs0 & Hh & Hm)].
      * split_and!; try done. intros _. by left.
      * split_and!; try done; [intros _; by left|].
        intros _. exists s0, h. rewrite Hl. done.
Qed.

(** Nobody has locked the name before, and Alice's fetch fails: [Lock]
    returns the fetch error and leaves behind the empty record it
    created. *)
Lemma Lock_errors_witness :
  let ins := [idle; idle; {| elapsed := 0; fault := Some OtherFailure;
                             cancel := None |}] in
  let o := call 1 (Lock alice) ins (live_at 0) (cluster 0 None) in
  o.1.1.1 = Some (Some (ErrGetLease "default" "im-a-lock" OtherFailure)) ∧
  spec_of alice o.2 = Some empty_spec.
Proof.
  cbv zeta.
  set (ins := [idle; idle; {| elapsed := 0; fault := Some OtherFailure;
                              cancel := None |}]).
  set (o := call 1 (Lock alice) ins (live_at 0) (cluster 0 None)).
  assert (Ho : o = (Some (Some (ErrGetLease "default" "im-a-lock" OtherFailure)),
                    o.1.1.2, o.1.2, o.2)) by (vm_compute; reflexivity).
  split; [by rewrite Ho|].
  destruct (Lock_errors alice 1 ins (live_at 0) (cluster 0 None) _ _ _ _ Ho)
    as (_ & Hstore & _ & _).
  destruct Hstore as [Hl|[_ Hl]]; [done| |].
  - exfalso. assert (Hin : leases o.2 !! key alice ≠ None)
      by (vm_compute; discriminate).
    apply Hin. rewrite Hl. reflexivity.
  - unfold spec_of. rewrite Hl. by rewrite lookup_insert_eq.
Defined.

(** ** [Extend] among other calls *)

Lemma extend_at_advances m w w' p :
  advances w w' → extend_at m w p → extend_at m w' p.
Proof.
  intros Hadv Hat. destruct Hat; try (constructor; fail).
  - constructor; [by eapply fresh_advances|done].
  - constructor; [by eapply fresh_advances|done|].
    destruct Hadv as [Hc _]. lia.
Qed.

Lemma extend_step_at m w i t :
  routine t = once (Extend m) → extend_at m w (code t) →
  extend_at m (thread_step i t w).2 (code (thread_step i t w).1).
Proof.
  intros Hr Hat. unfold thread_step, resume.
  assert (Hadv := @prog_step_advances Ctl).
  remember (code t) as p eqn:Hp. clear Hp.
  destruct Hat as [|l Hf Hh|l tr Hf Hh Ht|e]; simpl.
  - destruct (get_result _ _ _ _) as [l|e] eqn:Hg; simpl; [|constructor].
    apply get_result_Ok in Hg as (_ & s & Hs & ->). simpl.
    destruct (HolderIdentity (s_spec s)) as [h|] eqn:Hh; simpl; [|constructor].
    destruct (decide (h ≠ uniqueID m)) as [|Heq]; simpl; [constructor|].
    apply dec_stable in Heq. subst h.
    apply (ea_renew m _ (lease_of (lease m) (name m) s));
      [by apply fresh_fetched|done].
  - specialize (Hadv (e ← extend_renew m l; mret (Return e)) i (local t) w).
    simpl in Hadv.
    apply (ea_update m _ l); [by eapply fresh_advances|done|simpl; lia].
  - destruct (update_result _ _ _ _); constructor.
  - constructor.
Qed.

Lemma extend_step_lands m w i t rec :
  extend_at m w (code t) →
  leases w !! key m = Some rec →
  leases (thread_step i t w).2 !! key m ≠ Some rec →
  HolderIdentity (s_spec rec) = Some (uniqueID m) ∧
  ∃ r rec',
    leases (thread_step i t w).2 !! key m = Some rec' ∧
    s_spec rec' = renew_spec r (s_spec rec) ∧
    s_version rec' = N.succ (s_version rec) ∧
    r <= clock (thread_step i t w).2.
Proof.
  intros Hat Hrec. unfold thread_step, resume.
  remember (code t) as p eqn:Hp. clear Hp.
  destruct Hat as [|l Hf Hh|l tr [Hn (s & Hs & Hv)] Hh Ht|e]; simpl;
    try (intros Hne; exfalso; by apply Hne).
  destruct (update_result _ _ _ _) as [l'|e] eqn:Hu; simpl;
    [|intros Hne; exfalso; by apply Hne].
  intros _.
  apply update_result_Ok in Hu as (_ & s0 & Hs0 & Hv0 & ->). simpl in *.
  rewrite Hn in Hs0. unfold key in *.
  assert (s0 = rec) as -> by congruence.
  assert (s = rec) as -> by congruence.
  destruct Hv as [Hv|[_ Hv]]; [lia|]. split; [by rewrite Hv|].
  eexists tr, _. rewrite Hn, lookup_insert_eq. split; [done|]. simpl.
  rewrite Hv. split_and!; [done|done|lia].
Qed.

Lemma extend_ok_always w calls evs :
  all_threads extend_ok (exec evs (boot w calls)).
Proof.
  apply exec_inv, boot_inv.
  - intros w0 i t Hok m Hr. apply extend_step_at; [done|]. by apply Hok.
  - intros w0 w' t Hadv Hok m Hr. eapply extend_at_advances; [done|].
    by apply Hok.
  - intros w0 r loc m Hr. simpl in *. rewrite Hr. constructor.
Qed.

(** X6. [Extend] renews only its own lease, also when other calls run
    between its fetch and its update. Any number of calls run against
    one store, interleaved in any order; call [tid] is an [Extend] of
    [m]. Whenever a step of that call replaces the stored record, the
    record it replaces named [m]'s identity as holder, and the new
    record is the old one with [renewTime] set to a reading of the
    clock: holder, acquire time, duration and transitions are the
    stored ones, not those of an earlier fetch. *)
Theorem Extend_renews_only_its_own (w : World)
    (calls : list (Routine * Local)) (evs : list Event) (tid : nat)
    (i : Input) (m : Mutex) (loc : Local) (rec : Stored) :
  calls !! tid = Some (once (Extend m), loc) →
  leases (world (exec evs (boot w calls))) !! key m = Some rec →
  leases (world (sys_step (exec evs (boot w calls)) (tid, i))) !! key m
    ≠ Some rec →
  HolderIdentity (s_spec rec) = Some (uniqueID m) ∧
  ∃ r rec',
    leases (world (sys_step (exec evs (boot w calls)) (tid, i))) !! key m
      = Some rec' ∧
    s_spec rec' = renew_spec r (s_spec rec) ∧
    s_version rec' = N.succ (s_version rec) ∧
    r <= clock (world (sys_step (exec evs (boot w calls)) (tid, i))).
Proof.
  intros Hcall Hrec Hne.
  destruct (exec_routine w calls evs tid _ Hcall) as (t & Ht & Hr).
  pose proof (extend_ok_always w calls evs tid t Ht m Hr) as Hat.
  unfold sys_step in *. simpl in *. rewrite Ht in *. simpl in *.
  eapply extend_step_lands; [exact Hat|exact Hrec|exact Hne].
Qed.

(** Alice, who took the lease at 0 s, extends it at 5 s: the step that
    submits the update replaces her record by the same record with a
    renew time. *)
Lemma Extend_renews_only_its_own_witness :
  let calls := [(once (Extend alice), live_at 0)] in
  let w := cluster (5 * time.Second) (Some (held_by "host-a-1f0e" 0 None 1)) in
  let s := exec [(0%nat, idle); (0%nat, idle)] (boot w calls) in
  ∃ rec',
    leases (world (sys_step s (0%nat, idle))) !! key alice = Some rec' ∧
    s_spec rec' = renew_spec (5 * time.Second)
                    (s_spec (held_by "host-a-1f0e" 0 None 1)) ∧
    s_version rec' = 5%N.
Proof.
  cbv zeta.
  destruct (Extend_renews_only_its_own
              (cluster (5 * time.Second) (Some (held_by "host-a-1f0e" 0 None 1)))
              [(once (Extend alice), live_at 0)]
              [(0%nat, idle); (0%nat, idle)] 0 idle alice (live_at 0)
              (held_by "host-a-1f0e" 0 None 1))
    as (_ & r & rec' & Hrec' & Hspec & Hv & _).
  - reflexivity.
  - vm_compute. reflexivity.
  - vm_compute. discriminate.
  - exists rec'. split; [exact Hrec'|].
    assert (Heq : Some rec' =
              Some {| s_labels := []; s_version := 5;
                      s_spec := renew_spec (5 * time.Second)
                                  (s_spec (held_by "host-a-1f0e" 0 None 1)) |})
      by (rewrite <- Hrec'; vm_compute; reflexivity).
    injection Heq as ->. split; reflexivity.
Defined.

(** An [Extend] overtaken by a takeover. Alice, holding a lease taken at
    0 s, starts an [Extend] at 9 s, fetches the record and reads the
    clock; the lease runs out, and Bob's [Lock] takes it at 11 s;
    Alice's update then arrives with the version she had fetched, the
    store refuses it, and Bob's lease stands, without a renew time. *)
Example extend_overtaken_by_a_takeover :
  let s := exec ([(0%nat, idle); (0%nat, idle);
                  (1%nat, wait (2 * time.Second))] ++
                 replicate 5 (1%nat, idle) ++
                 [(0%nat, idle); (1%nat, idle)])
             (boot (cluster (9 * time.Second)
                      (Some (held_by "host-a-1f0e" 0 None 1)))
                [(once (Extend alice), live_at 0); (Lock bob, live_at 0)]) in
  returned <$> threads s =
    [Some (Some (ErrExtendUpdate Conflict)); Some None] ∧
  spec_of alice (world s) =
    Some {| HolderIdentity := Some "host-b-77c2";
            LeaseDurationSeconds := Some 10;
            AcquireTime := Some (11 * time.Second);
            RenewTime := None;
            LeaseTransitions := Some 2 |}.
Proof. vm_compute. done. Qed.

(** ** One mutex, one record *)

#[local] Transparent lock_exit lock_exit_err lock_retry lock_update lock_claim
  lock_fetched lock_get lock_iter lock_create.

Lemma lock_step_frame m w i t k :
  routine t = lock m → lock_at m w (local t) (code t) → k ≠ key m →
  leases (thread_step i t w).2 !! k = leases w !! k.
Proof.
  intros Hr Hat Hk. unfold thread_step, resume. rewrite Hr.
  destruct Hat as [ | | |l Hf|l Hf Hh|l tc Hf Hh| | |Hx|e]; simpl; try done.
  - destruct (create_result _ _ _ _) as [l'|e] eqn:Hc; simpl; [|done].
    apply create_result_Ok in Hc as (_ & _ & ->). simpl.
    by rewrite lookup_insert_ne.
  - unfold lock_fetched.
    destruct (HolderIdentity (Spec l)); simpl;
      [destruct (LeaseDurationSeconds (Spec l));
         [destruct (AcquireTime (Spec l))|]|]; simpl; done.
  - destruct Hf as [Hn _].
    destruct (update_result _ _ _ _) as [l'|e] eqn:Hu; simpl; [|done].
    apply update_result_Ok in Hu as (_ & s0 & _ & _ & ->). simpl.
    rewrite Hn. by rewrite lookup_insert_ne.
  - unfold on_sleep. by destruct (fire i (ctx (local t))).
Qed.

#[local] Opaque lock_exit lock_exit_err lock_retry lock_update lock_claim
  lock_fetched lock_get lock_iter lock_create.

Lemma unlock_step_frame m w i t k :
  unlock_at m w (code t) → k ≠ key m →
  leases (thread_step i t w).2 !! k = leases w !! k.
Proof.
  intros Hat Hk. unfold thread_step, resume.
  destruct Hat as [|l [Hn _] Hh|e]; simpl; try done.
  destruct (update_result _ _ _ _) as [l'|e] eqn:Hu; simpl; [|done].
  apply update_result_Ok in Hu as (_ & s0 & _ & _ & ->). simpl.
  rewrite Hn. by rewrite lookup_insert_ne.
Qed.

Lemma extend_step_frame m w i t k :
  extend_at m w (code t) → k ≠ key m →
  leases (thread_step i t w).2 !! k = leases w !! k.
Proof.
  intros Hat Hk. unfold thread_step, resume.
  destruct Hat as [|l Hf Hh|l tr [Hn _] Hh Ht|e]; simpl; try done.
  destruct (update_result _ _ _ _) as [l'|e] eqn:Hu; simpl; [|done].
  apply update_result_Ok in Hu as (_ & s0 & _ & _ & ->). simpl.
  rewrite Hn. by rewrite lookup_insert_ne.
Qed.

Lemma methods_write_only_their_record_frame w calls evs tid i m r loc k :
  calls !! tid = Some (r, loc) → method_of m r → k ≠ key m →
  leases (world (sys_step (exec evs (boot w calls)) (tid, i))) !! k
  = leases (world (exec evs (boot w calls))) !! k.
Proof.
  intros Hcall Hm Hk.
  destruct (exec_routine w calls evs tid _ Hcall) as (t & Ht & Hr).
  simpl in Hr. unfold sys_step. simpl. rewrite Ht. simpl.
  destruct Hm as [-> | [-> | ->]].
  - apply (lock_step_frame m); [done| |done].
    by apply (lock_ok_always w calls evs tid t Ht m).
  - apply (extend_step_frame m); [|done].
    by apply (extend_ok_always w calls evs tid t Ht m).
  - apply (unlock_step_frame m); [|done].
    by apply (unlock_ok_always w calls evs tid t Ht m).
Qed.

(** X7. A mutex writes to its own record only. Any number of calls run
    against one store, interleaved in any order; call [tid] is a [Lock],
    an [Extend] or an [Unlock] of [m]. No step of that call changes,
    creates or removes the record stored under any other name or in any
    other namespace than [m]'s. *)
Theorem methods_write_only_their_record (w : World)
    (calls : list (Routine * Local)) (evs : list Event) (tid : nat)
    (i : Input) (m : Mutex) (r : Routine) (loc : Local)
    (k : string * string) :
  calls !! tid = Some (r, loc) → method_of m r → k ≠ key m →
  leases (world (sys_step (exec evs (boot w calls)) (tid, i))) !! k
  = leases (world (exec evs (boot w calls))) !! k.
Proof. apply methods_write_only_their_record_frame. Qed.

(** Bob locks a second name while Alice holds the first: the submitting
    step of his [Lock] leaves Alice's record as it is. *)
Lemma methods_write_only_their_record_witness :
  let w := cluster 0 (Some (held_by "host-a-1f0e" 0 None 1)) in
  let s := exec (replicate 4 (0%nat, idle))
             (boot w [(Lock bob_other, live_at 0)]) in
  key alice ≠ key bob_other ∧
  spec_of bob_other (world (sys_step s (0%nat, idle)))
    ≫= HolderIdentity = Some "host-b-77c2" ∧
  leases (world (sys_step s (0%nat, idle))) !! key alice
  = leases (world s) !! key alice.
Proof.
  cbv zeta. split; [discriminate|]. split; [vm_compute; reflexivity|].
  apply (methods_write_only_their_record _ [(Lock bob_other, live_at 0)]
           _ 0 idle bob_other (Lock bob_other) (live_at 0) (key alice)).
  - reflexivity.
  - left. reflexivity.
  - discriminate.
Defined.

(** ** The methods one after another *)

(** X8. [Extend] keeps the lease alive. After a successful [Extend] of a
    lease with a duration, the lease is held until the reading of the
    clock [Extend] took plus that duration, whatever its acquire time
    and whether or not it had already expired; a [Lock] of any mutex
    that has fetched the renewed record and reads the clock before then
    leaves the store alone and sleeps. *)
Theorem Extend_prolongs (m : Mutex) (ins : list Input) (loc : Local)
    (w : World) (ins' : list Input) (loc' : Local) (w' : World)
    (s : Stored) (dur : Z) (acq : time.Time) :
  run (Extend m) ins loc w = (None, ins', loc', w') →
  leases w !! key m = Some s →
  LeaseDurationSeconds (s_spec s) = Some dur →
  AcquireTime (s_spec s) = Some acq →
  let r := clock w + Z.of_N (elapsed (hd idle ins))
           + Z.of_N (elapsed (hd idle (tl ins))) in
  ∃ s', leases w' !! key m = Some s' ∧
    (∀ t, held_at (s_spec s') t = true ↔ t < r + dur * time.Second) ∧
    (∀ m2 ins2 loc2 w2,
       clock w2 + Z.of_N (elapsed (hd idle ins2)) < r + dur * time.Second →
       let o := run (lock_fetched m2 (lease_of (lease m2) (name m2) s'))
                  ins2 loc2 w2 in
       leases o.2 = leases w2 ∧ actions o.2 = actions w2 ∧
       (o.1.1.1 = Continue ∨ ∃ c, o.1.1.1 = Return (Some (ErrContext c)))).
Proof.
  intros Hext Hs Hd Ha r.
  destruct (Extend_success _ _ _ _ _ _ _ Hext) as (s0 & Hs0 & Hh & Hl).
  assert (s0 = s) as -> by congruence.
  eexists. split; [by rewrite Hl, lookup_insert_eq|]. split.
  - intros t. unfold held_at. simpl. rewrite Hh, Hd, Ha.
    unfold time.After, lease_expiry, time.Add. fold r. apply Z.ltb_lt.
  - intros m2 ins2 loc2 w2 Hlt.
    destruct (lock_fetched_decision m2
                (lease_of (lease m2) (name m2)
                   {| s_labels := s_labels s;
                      s_version := N.succ (s_version s);
                      s_spec := renew_spec r (s_spec s) |})
                (uniqueID m) dur acq ins2 loc2 w2 Hh Hd Ha) as [Hheld _].
    destruct Hheld as (Hl2 & Ha2 & Hr2); [exact Hlt|].
    cbv zeta. split; [exact Hl2|]. split; [exact Ha2|].
    fold r. rewrite Hr2.
    match goal with |- context [match ?x with _ => _ end] => destruct x end;
      eauto.
Qed.

(** Alice extends at 60 s the lease she took at 0 s, which ran out at
    10 s: it is held again, until 70 s. *)
Lemma Extend_prolongs_witness :
  let w := cluster (60 * time.Second) (Some (held_by "host-a-1f0e" 0 None 1)) in
  let o := run (Extend alice) [] (live_at (60 * time.Second)) w in
  held_at (s_spec (held_by "host-a-1f0e" 0 None 1)) (clock w) = false ∧
  ∃ s', leases o.2 !! key alice = Some s' ∧
    held_at (s_spec s') (69 * time.Second) = true ∧
    held_at (s_spec s') (70 * time.Second) = false.
Proof.
  cbv zeta. split; [reflexivity|].
  set (w := cluster (60 * time.Second) (Some (held_by "host-a-1f0e" 0 None 1))).
  set (o := run (Extend alice) [] (live_at (60 * time.Second)) w).
  assert (Ho : o = (None, o.1.1.2, o.1.2, o.2)) by (vm_compute; reflexivity).
  destruct (Extend_prolongs alice [] (live_at (60 * time.Second)) w _ _ _
              (held_by "host-a-1f0e" 0 None 1) 10 0 Ho eq_refl eq_refl eq_refl)
    as (s' & Hs' & Hheld & _).
  exists s'. split; [exact Hs'|]. split.
  - apply Hheld. vm_compute. reflexivity.
  - destruct (held_at (s_spec s') (70 * time.Second)) eqn:Hh; [|reflexivity].
    apply Hheld in Hh. vm_compute in Hh. discriminate Hh.
Defined.

(** X9. [Lock] then [Unlock], and [Lock] again. After a successful [Lock]
    an [Unlock] by the same mutex, with no failure of the store,
    succeeds; the record is then the one [Lock] found (or created) two
    versions on, with its labels, no holder, no times, no duration, and
    the counter [Lock] wrote. A [Lock] that follows, by this or another
    mutex of the same name, takes the lease in its first turn and
    leaves no renew time, whatever renew time the record had before the
    first [Lock]. *)
Theorem Lock_Unlock_round_trip (m : Mutex) (fuel : nat) (ins : list Input)
    (loc : Local) (w : World) (ins1 : list Input) (loc1 : Local) (w1 : World) :
  call fuel (Lock m) ins loc w = (Some None, ins1, loc1, w1) →
  fault (hd idle ins1) = None → fault (hd idle (tl ins1)) = None →
  let o := run (Unlock m) ins1 loc1 w1 in
  let n := int32_wrap (default 0 (LeaseTransitions (s_spec (found m w))) + 1) in
  o.1.1.1 = None ∧
  leases o.2 =
    <[key m := {| s_labels := s_labels (found m w);
                  s_version := N.succ (N.succ (s_version (found m w)));
                  s_spec := {| HolderIdentity := None;
                               LeaseDurationSeconds := None;
                               AcquireTime := None;
                               RenewTime := None;
                               LeaseTransitions := Some n |} |}]> (leases w) ∧
  (∀ m' fuel' ins2 loc2,
     key m' = key m → ctx loc2 = None → Forall benign ins2 →
     ∃ t ins3 loc3 w3,
       call (S fuel') (Lock m') ins2 loc2 o.2 = (Some None, ins3, loc3, w3) ∧
       spec_of m w3 =
         Some {| HolderIdentity := Some (uniqueID m');
                 LeaseDurationSeconds := Some (ttl_seconds m');
                 AcquireTime := Some t;
                 RenewTime := None;
                 LeaseTransitions := Some (int32_wrap (n + 1)) |}).
Proof.
  intros Hlock Hf0 Hf1 o n.
  apply Lock_success in Hlock as (t & (Hs & Hh & Ht & Hl) & Hc).
  simpl in Hs, Hl. rewrite insert_insert_eq in Hl.
  assert (Hs1 : leases w1 !! key m =
                Some {| s_labels := s_labels (found m w);
                        s_version := N.succ (s_version (found m w));
                        s_spec := claim_spec m t (s_spec (found m w)) |})
    by (by rewrite Hl, lookup_insert_eq).
  assert (Hres : o.1.1.1 = None).
  { eapply Unlock_total; [exact Hs1|done|done|done]. }
  assert (Hleases : leases o.2 =
    <[key m := {| s_labels := s_labels (found m w);
                  s_version := N.succ (N.succ (s_version (found m w)));
                  s_spec := {| HolderIdentity := None;
                               LeaseDurationSeconds := None;
                               AcquireTime := None;
                               RenewTime := None;
                               LeaseTransitions := Some n |} |}]> (leases w)).
  { subst o. destruct (run (Unlock m) ins1 loc1 w1) as [[[res ins2] loc2] w2]
      eqn:Hrun. simpl in Hres. subst res.
    destruct (Unlock_success _ _ _ _ _ _ _ Hrun) as (s0 & Hs0 & _ & Hl2).
    assert (s0 = {| s_labels := s_labels (found m w);
                    s_version := N.succ (s_version (found m w));
                    s_spec := claim_spec m t (s_spec (found m w)) |}) as ->
      by congruence.
    simpl. rewrite Hl2, Hl, insert_insert_eq. simpl.
    subst n. unfold release_spec, claim_spec. simpl.
    by destruct (LeaseTransitions (s_spec (found m w))). }
  split; [exact Hres|]. split; [exact Hleases|].
  intros m' fuel' ins2 loc2 Hk Hctx Hb.
  assert (Hfound : found m' o.2 =
    {| s_labels := s_labels (found m w);
       s_version := N.succ (N.succ (s_version (found m w)));
       s_spec := {| HolderIdentity := None; LeaseDurationSeconds := None;
                    AcquireTime := None; RenewTime := None;
                    LeaseTransitions := Some n |} |}).
  { unfold found at 1. by rewrite Hk, Hleases, lookup_insert_eq. }
  pose proof (Lock_takes fuel' m' ins2 loc2 o.2 Hctx Hb) as Htakes.
  rewrite Hfound in Htakes. specialize (Htakes I).
  destruct (call (S fuel') (Lock m') ins2 loc2 o.2) as [[[res ins3] loc3] w3]
    eqn:Hcall.
  simpl in Htakes. subst res.
  destruct (Lock_success_spec _ _ _ _ _ _ _ _ Hcall) as (t' & _ & _ & Hspec).
  exists t', ins3, loc3, w3. split; [done|].
  unfold spec_of in *. rewrite <- Hk, Hspec, Hfound. done.
Qed.

(** The package's sequence on a lease that Alice finds left behind with a
    renew time: lock, unlock, lock again. The counter ends two higher
    and the renew time is gone. *)
Lemma Lock_Unlock_round_trip_witness :
  let w := cluster (20 * time.Second) (Some stale) in
  let o1 := call 1 (Lock alice) [] (live_at 0) w in
  let o2 := run (Unlock alice) o1.1.1.2 o1.1.2 o1.2 in
  o1.1.1.1 = Some None ∧ o2.1.1.1 = None ∧
  spec_of alice o2.2 =
    Some {| HolderIdentity := None; LeaseDurationSeconds := None;
            AcquireTime := None; RenewTime := None;
            LeaseTransitions := Some 2 |} ∧
  ∃ t w3, (call 1 (Lock alice) [] (live_at 0) o2.2).2 = w3 ∧
    spec_of alice w3 =
      Some {| HolderIdentity := Some "host-a-1f0e";
              LeaseDurationSeconds := Some 10;
              AcquireTime := Some t;
              RenewTime := None;
              LeaseTransitions := Some 3 |}.
Proof.
  cbv zeta.
  set (w := cluster (20 * time.Second) (Some stale)).
  set (o1 := call 1 (Lock alice) [] (live_at 0) w).
  assert (Ho1 : o1 = (Some None, o1.1.1.2, o1.1.2, o1.2))
    by (vm_compute; reflexivity).
  destruct (Lock_Unlock_round_trip alice 1 [] (live_at 0) w _ _ _ Ho1
              eq_refl eq_refl) as (Hres & Hl & Hagain).
  split; [by rewrite Ho1|]. split; [exact Hres|]. split.
  - unfold spec_of. rewrite Hl, lookup_insert_eq. reflexivity.
  - destruct (Hagain alice 0%nat [] (live_at 0) eq_refl eq_refl
                (Forall_nil_2 _)) as (t & ins3 & loc3 & w3 & Hcall & Hspec).
    exists t, w3. split; [by rewrite Hcall|]. exact Hspec.
Defined.

(** X10. After a successful [Unlock] nobody holds the lock: an [Unlock] or an
    [Extend] that follows, by this or any other mutex of the same name,
    returns [ErrNotLocked], whether or not its fetch succeeds, and leaves
    the store as it is. *)
Theorem Unlock_twice_not_locked (m : Mutex) (ins : list Input) (loc : Local)
    (w : World) (ins' : list Input) (loc' : Local) (w' : World) :
  run (Unlock m) ins loc w = (None, ins', loc', w') →
  ∀ m2 ins2 loc2, key m2 = key m →
    (run (Unlock m2) ins2 loc2 w').1.1.1 = Some ErrNotLocked ∧
    leases (run (Unlock m2) ins2 loc2 w').2 = leases w' ∧
    (run (Extend m2) ins2 loc2 w').1.1.1 = Some ErrNotLocked ∧
    leases (run (Extend m2) ins2 loc2 w').2 = leases w'.
Proof.
  intros Hun m2 ins2 loc2 Hk.
  destruct (Unlock_success _ _ _ _ _ _ _ Hun) as (s & Hs & _ & Hl).
  assert (Hs' : ∃ s', leases w' !! key m2 = Some s' ∧
                      HolderIdentity (s_spec s') = None).
  { eexists. split; [by rewrite Hk, Hl, lookup_insert_eq|done]. }
  destruct (Unlock_checked m2 ins2 loc2 w') as (Hnl & _ & Hq).
  destruct (Extend_checked m2 ins2 loc2 w') as (Hnl' & _ & Hq').
  assert (Hu : (run (Unlock m2) ins2 loc2 w').1.1.1 = Some ErrNotLocked)
    by (apply Hnl; right; right; exact Hs').
  assert (He : (run (Extend m2) ins2 loc2 w').1.1.1 = Some ErrNotLocked)
    by (apply Hnl'; right; right; exact Hs').
  split_and!; [exact Hu| |exact He|].
  - apply Hq. by left.
  - apply Hq'. by left.
Qed.

(** Alice unlocks the lease she holds, and unlocks again. *)
Lemma Unlock_twice_not_locked_witness :
  let w := cluster (7 * time.Second) (Some (held_by "host-a-1f0e" 0 None 3)) in
  let o := run (Unlock alice) [] (live_at 0) w in
  o.1.1.1 = None ∧
  (run (Unlock alice) [] o.1.2 o.2).1.1.1 = Some ErrNotLocked ∧
  (run (Extend alice) [] o.1.2 o.2).1.1.1 = Some ErrNotLocked.
Proof.
  cbv zeta.
  set (w := cluster (7 * time.Second) (Some (held_by "host-a-1f0e" 0 None 3))).
  set (o := run (Unlock alice) [] (live_at 0) w).
  assert (Ho : o = (None, o.1.1.2, o.1.2, o.2)) by (vm_compute; reflexivity).
  split; [by rewrite Ho|].
  destruct (Unlock_twice_not_locked alice [] (live_at 0) w _ _ _ Ho
              alice [] o.1.2 eq_refl) as (Hu & _ & He & _).
  split; [exact Hu|exact He].
Defined.

Lemma faultless_hd ins : faultless ins → fault (hd idle ins) = None.
Proof. intros [|i ins' Hi _]; [done|exact Hi]. Qed.

Lemma faultless_tl ins : faultless ins → faultless (tl ins).
Proof. intros [|i ins' _ H]; [constructor|exact H]. Qed.

Lemma Extend_inputs m ins loc w :
  faultless ins → faultless (run (Extend m) ins loc w).1.1.2.
Proof.
  intros Hf. rewrite run_Extend. cbn [fst snd on_get store_get].
  destruct (get_result _ _ _ _) as [l|e]; [|by apply faultless_tl].
  destruct (HolderIdentity (Spec l)) as [h|]; [|by apply faultless_tl].
  destruct (decide (h ≠ uniqueID m)); [by apply faultless_tl|].
  simpl. by do 3 apply faultless_tl.
Qed.

(** X11. Lock, extend, unlock, as the package's example does. After a
    successful [Lock], and with no failure of the store, [Extend]
    succeeds: the record then has the holder, duration, acquire time
    and counter that [Lock] wrote and a renew time not before the
    acquire time, and the lease runs until the renew time plus the
    duration. The [Unlock] that follows succeeds and leaves the record
    without holder, times or duration, the counter still the one
    [Lock] wrote. *)
Theorem Lock_Extend_Unlock (m : Mutex) (fuel : nat) (ins : list Input)
    (loc : Local) (w : World) (ins1 : list Input) (loc1 : Local) (w1 : World) :
  call fuel (Lock m) ins loc w = (Some None, ins1, loc1, w1) →
  faultless ins1 →
  let o2 := run (Extend m) ins1 loc1 w1 in
  let o3 := run (Unlock m) o2.1.1.2 o2.1.2 o2.2 in
  let n := int32_wrap (default 0 (LeaseTransitions (s_spec (found m w))) + 1) in
  o2.1.1.1 = None ∧
  (∃ a r s2, a <= r ∧
     spec_of m o2.2 = Some s2 ∧
     s2 = {| HolderIdentity := Some (uniqueID m);
             LeaseDurationSeconds := Some (ttl_seconds m);
             AcquireTime := Some a;
             RenewTime := Some r;
             LeaseTransitions := Some n |} ∧
     ∀ t, held_at s2 t = true ↔ t < r + ttl_seconds m * time.Second) ∧
  o3.1.1.1 = None ∧
  spec_of m o3.2 =
    Some {| HolderIdentity := None; LeaseDurationSeconds := None;
            AcquireTime := None; RenewTime := None;
            LeaseTransitions := Some n |}.
Proof.
  intros Hlock Hf o2 o3 n.
  apply Lock_success in Hlock as (a & (Hs & Hh & Ht & Hl) & Hc).
  simpl in Hs, Hl, Ht. rewrite insert_insert_eq in Hl.
  set (s1 := {| s_labels := s_labels (found m w);
                s_version := N.succ (s_version (found m w));
                s_spec := claim_spec m a (s_spec (found m w)) |}) in *.
  assert (Hs1 : leases w1 !! key m = Some s1)
    by (by rewrite Hl, lookup_insert_eq).
  assert (Hres2 : o2.1.1.1 = None).
  { eapply Extend_total; [exact Hs1|done|by apply faultless_hd|].
    by apply faultless_hd, faultless_tl, faultless_tl. }
  pose proof (Extend_inputs m ins1 loc1 w1 Hf) as Hf2. fold o2 in Hf2.
  assert (Hrun2 : o2 = (None, o2.1.1.2, o2.1.2, o2.2)).
  { destruct o2 as [[[res ?] ?] ?]. simpl in Hres2. by subst res. }
  destruct (Extend_success _ _ _ _ _ _ _ Hrun2) as (s0 & Hs0 & _ & Hl2).
  assert (s0 = s1) as -> by congruence.
  set (r := clock w1 + Z.of_N (elapsed (hd idle ins1))
            + Z.of_N (elapsed (hd idle (tl ins1)))) in *.
  set (s2 := {| s_labels := s_labels s1; s_version := N.succ (s_version s1);
                s_spec := renew_spec r (s_spec s1) |}) in *.
  assert (Hs2 : leases o2.2 !! key m = Some s2)
    by (by rewrite Hl2, lookup_insert_eq).
  assert (Hres3 : o3.1.1.1 = None).
  { eapply Unlock_total; [exact Hs2|done|by apply faultless_hd|].
    by apply faultless_hd, faultless_tl. }
  assert (Hrun3 : o3 = (None, o3.1.1.2, o3.1.2, o3.2)).
  { destruct o3 as [[[res ?] ?] ?]. simpl in Hres3. by subst res. }
  destruct (Unlock_success _ _ _ _ _ _ _ Hrun3) as (s0 & Hs0' & _ & Hl3).
  assert (s0 = s2) as -> by congruence.
  split; [exact Hres2|]. split; [|split; [exact Hres3|]].
  - exists a, r, (s_spec s2). split; [subst r; lia|].
    unfold spec_of. rewrite Hs2. simpl. split; [done|]. split.
    + unfold renew_spec, claim_spec. simpl. subst n.
      by destruct (LeaseTransitions (s_spec (found m w))).
    + intros t. unfold held_at, time.After, lease_expiry, time.Add. simpl.
      apply Z.ltb_lt.
  - unfold spec_of. rewrite Hl3, lookup_insert_eq. simpl.
    unfold release_spec, claim_spec. simpl. subst n.
    by destruct (LeaseTransitions (s_spec (found m w))).
Qed.

(** [ExampleMutex]: a fresh store, lock, extend, unlock. *)
Lemma Lock_Extend_Unlock_witness :
  let o1 := call 1 (Lock alice) [] (live_at 0) (cluster 0 None) in
  let o2 := run (Extend alice) o1.1.1.2 o1.1.2 o1.2 in
  let o3 := run (Unlock alice) o2.1.1.2 o2.1.2 o2.2 in
  o1.1.1.1 = Some None ∧ o2.1.1.1 = None ∧ o3.1.1.1 = None ∧
  spec_of alice o3.2 =
    Some {| HolderIdentity := None; LeaseDurationSeconds := None;
            AcquireTime := None; RenewTime := None;
            LeaseTransitions := Some 1 |}.
Proof.
  cbv zeta.
  set (o1 := call 1 (Lock alice) [] (live_at 0) (cluster 0 None)).
  assert (Ho1 : o1 = (Some None, o1.1.1.2, o1.1.2, o1.2))
    by (vm_compute; reflexivity).
  assert (Hf : faultless o1.1.1.2) by (vm_compute; constructor).
  destruct (Lock_Extend_Unlock alice 1 [] (live_at 0) (cluster 0 None) _ _ _
              Ho1 Hf) as (H2 & _ & H3 & Hspec).
  split; [by rewrite Ho1|]. split; [exact H2|]. split; [exact H3|exact Hspec].
Defined.

(** ** [Extend] and [Unlock] when the update fails *)

(** X12. When [Extend] or [Unlock] returns a wrapped update error, the record
    was held by this mutex when it was fetched, the error wraps what the
    store answered to the update, and the record is as it was: the
    renew time is not set, the lock is not released. *)
Theorem Extend_Unlock_update_failure (m : Mutex) (ins : list Input)
    (loc : Local) (w : World) (cause : StatusError) :
  ((run (Extend m) ins loc w).1.1.1 = Some (ErrExtendUpdate cause) →
     (∃ s, leases w !! key m = Some s ∧
           HolderIdentity (s_spec s) = Some (uniqueID m)) ∧
     fault (hd idle (tl (tl ins))) = Some cause ∧
     leases (run (Extend m) ins loc w).2 = leases w) ∧
  ((run (Unlock m) ins loc w).1.1.1 = Some (ErrUnlockUpdate cause) →
     (∃ s, leases w !! key m = Some s ∧
           HolderIdentity (s_spec s) = Some (uniqueID m)) ∧
     fault (hd idle (tl ins)) = Some cause ∧
     leases (run (Unlock m) ins loc w).2 = leases w).
Proof.
  split.
  - rewrite run_Extend. cbn [fst snd on_get store_get].
    destruct (get_result _ _ _ _) as [l|e] eqn:Hg; [|done].
    apply get_result_Ok in Hg as (_ & s & Hs & ->). simpl in Hs.
    cbn [Spec lease_of].
    destruct (HolderIdentity (s_spec s)) as [h|] eqn:Hh; [|done].
    destruct (decide (h ≠ uniqueID m)) as [|Heq]; [done|].
    apply dec_stable in Heq. subst h.
    cbn [fst snd on_now on_update store_update]. unfold update_result.
    destruct (fault (hd idle (tl (tl ins)))) as [f|]; simpl.
    + intros [= <-]. split; [by exists s|done].
    + unfold key in Hs. rewrite Hs. simpl. by rewrite decide_True.
  - rewrite run_Unlock. cbn [fst snd on_get store_get].
    destruct (get_result _ _ _ _) as [l|e] eqn:Hg; [|done].
    apply get_result_Ok in Hg as (_ & s & Hs & ->). simpl in Hs.
    cbn [Spec lease_of].
    destruct (HolderIdentity (s_spec s)) as [h|] eqn:Hh; [|done].
    destruct (decide (h ≠ uniqueID m)) as [|Heq]; [done|].
    apply dec_stable in Heq. subst h.
    cbn [fst snd on_update store_update]. unfold update_result.
    destruct (fault (hd idle (tl ins))) as [f|]; simpl.
    + intros [= <-]. split; [by exists s|done].
    + unfold key in Hs. rewrite Hs. simpl. by rewrite decide_True.
Qed.

(** The store refuses Alice's update when she extends her lease: her
    lease keeps the expiry it had. *)
Lemma Extend_Unlock_update_failure_witness :
  let w := cluster (5 * time.Second) (Some (held_by "host-a-1f0e" 0 None 1)) in
  let ins := [idle; idle; {| elapsed := 0; fault := Some OtherFailure;
                             cancel := None |}] in
  (run (Extend alice) ins (live_at 0) w).1.1.1
    = Some (ErrExtendUpdate OtherFailure) ∧
  leases (run (Extend alice) ins (live_at 0) w).2 = leases w.
Proof.
  cbv zeta.
  assert (Hr : (run (Extend alice)
                  [idle; idle; {| elapsed := 0; fault := Some OtherFailure;
                                  cancel := None |}] (live_at 0)
                  (cluster (5 * time.Second)
                     (Some (held_by "host-a-1f0e" 0 None 1)))).1.1.1
               = Some (ErrExtendUpdate OtherFailure))
    by (vm_compute; reflexivity).
  split; [exact Hr|].
  exact (proj2 (proj2 (proj1 (Extend_Unlock_update_failure alice _ _ _ _) Hr))).
Defined.

(** ** A token that has already fired *)

Lemma loop_lock_fired fuel m c ins loc w :
  ctx loc = Some c →
  let o := loop (S fuel) (lock_iter m) ins loc w in
  o.1.1.1 = Some (Some (ErrContext c)) ∧ leases o.2 = leases w ∧
  actions o.2 = actions w.
Proof.
  intros Hctx. cbv zeta. cbn [loop].
  rewrite run_lock_iter. cbn [fst snd on_ctx_err]. rewrite Hctx.
  cbn [fire]. rewrite lock_exit_result.
  cbn [fst snd ctx at_time fire fmap option_fmap option_map].
  by rewrite lock_exit_leases, lock_exit_actions.
Qed.

(** X13. [Lock] called with a token that has already fired makes the
    bootstrap [Create] all the same, and no other call to the store: no
    fetch, no update. It returns the token's error, unless the [Create]
    fails for another reason than "already exists", which it then
    returns. A record that was there is untouched; where there was none
    and the [Create] went through, the empty record stays behind. *)
Theorem Lock_with_fired_token (m : Mutex) (fuel : nat) (c : ContextError)
    (ins : list Input) (loc : Local) (w : World) :
  ctx loc = Some c →
  let o := call (S fuel) (Lock m) ins loc w in
  actions o.2 = actions w ++ [ActCreate (lease m) (new_lease m)] ∧
  (o.1.1.1 = Some (Some (ErrContext c)) ∨
   ∃ cause, fault (hd idle ins) = Some cause ∧
     IsAlreadyExists cause = false ∧
     o.1.1.1 = Some (Some (ErrCreateLease (namespace m) (name m) cause))) ∧
  (leases o.2 = leases w ∨
   (leases w !! key m = None ∧ fault (hd idle ins) = None ∧
    leases o.2 = <[key m := {| s_labels := Labels (Meta (new_lease m));
                               s_version := 1;
                               s_spec := empty_spec |}]> (leases w))).
Proof.
  intros Hctx. cbv zeta. unfold call, Lock, lock. cbn [entry body].
  rewrite run_lock_create. cbn [fst snd on_create store_create].
  assert (Hfired : ∀ w0, ctx (at_time (fire (hd idle ins) (ctx loc)) w0) = Some c)
    by (intros w0; simpl; by rewrite Hctx).
  destruct (create_result _ _ _ _) as [l'|err] eqn:Hcr; cbn [commit].
  - apply create_result_Ok in Hcr as (Hf & Hnone & ->). simpl in Hnone.
    match goal with
    | |- context [loop (S fuel) (lock_iter m) ?a ?b ?w0] =>
        destruct (loop_lock_fired fuel m c a b w0 (Hfired _)) as (Hr & Hl & Ha)
    end.
    rewrite Hr, Hl, Ha. simpl. split_and!; [done|by left|].
    right. done.
  - unfold create_result in Hcr.
    destruct (fault (hd idle ins)) as [f|] eqn:Hf.
    + injection Hcr as <-. destruct (IsAlreadyExists f) eqn:Hae.
      * match goal with
        | |- context [loop (S fuel) (lock_iter m) ?a ?b ?w0] =>
            destruct (loop_lock_fired fuel m c a b w0 (Hfired _))
              as (Hr & Hl & Ha)
        end.
        rewrite Hr, Hl, Ha. simpl. split_and!; [done|by left|by left].
      * simpl. split_and!; [done| |by left]. right. by exists f.
    + simpl in Hcr. destruct (leases w !! _) eqn:Hs; [|done].
      injection Hcr as <-. cbn [IsAlreadyExists].
      match goal with
      | |- context [loop (S fuel) (lock_iter m) ?a ?b ?w0] =>
          destruct (loop_lock_fired fuel m c a b w0 (Hfired _))
            as (Hr & Hl & Ha)
      end.
      rewrite Hr, Hl, Ha. simpl. split_and!; [done|by left|by left].
Qed.

(** Alice calls [Lock] on a name nobody has locked, with a token that was
    cancelled beforehand: she gets the token's error, and the empty
    record is in the store. *)
Lemma Lock_with_fired_token_witness :
  let o := call 1 (Lock alice) [] (cancelled_at 0) (cluster 0 None) in
  o.1.1.1 = Some (Some (ErrContext Canceled)) ∧
  length (actions o.2) = 1%nat ∧
  spec_of alice o.2 = Some empty_spec.
Proof.
  cbv zeta.
  destruct (Lock_with_fired_token alice 0 Canceled [] (cancelled_at 0)
              (cluster 0 None) eq_refl) as (Ha & Hr & Hl).
  split; [vm_compute; reflexivity|]. split; [by rewrite Ha|].
  destruct Hl as [Hl|(_ & _ & Hl)].
  - exfalso.
    assert (Hin : leases (call 1 (Lock alice) [] (cancelled_at 0)
                            (cluster 0 None)).2 !! key alice ≠ None)
      by (vm_compute; discriminate).
    apply Hin. rewrite Hl. reflexivity.
  - unfold spec_of. rewrite Hl. by rewrite lookup_insert_eq.
Defined.

(** ** Handing the lock over *)

(** X14. [Unlock] hands the lock over within one poll. After a
    successful [Unlock], a [Lock] of the same name that is waiting in
    its loop takes the lease at its next turn, given a live token and
    no failure of the store; a [Lock] called afresh does so in its
    first turn. The new holder's record counts one transition more and
    has no renew time. *)
Theorem Unlock_hands_over (m : Mutex) (ins : list Input) (loc : Local)
    (w : World) (ins' : list Input) (loc' : Local) (w' : World) :
  run (Unlock m) ins loc w = (None, ins', loc', w') →
  ∀ m2 fuel ins2 loc2,
    key m2 = key m → ctx loc2 = None → Forall benign ins2 →
    (loop (S fuel) (lock_iter m2) ins2 loc2 w').1.1.1 = Some None ∧
    (call (S fuel) (Lock m2) ins2 loc2 w').1.1.1 = Some None ∧
    ∃ t, spec_of m (call (S fuel) (Lock m2) ins2 loc2 w').2 =
      Some {| HolderIdentity := Some (uniqueID m2);
              LeaseDurationSeconds := Some (ttl_seconds m2);
              AcquireTime := Some t;
              RenewTime := None;
              LeaseTransitions :=
                Some (int32_wrap
                        (default 0 (spec_of m w ≫= LeaseTransitions) + 1)) |}.
Proof.
  intros Hun m2 fuel ins2 loc2 Hk Hctx Hb.
  destruct (Unlock_success _ _ _ _ _ _ _ Hun) as (s & Hs & _ & Hl).
  set (s' := {| s_labels := s_labels s; s_version := N.succ (s_version s);
                s_spec := release_spec (s_spec s) |}) in *.
  assert (Hs' : leases w' !! key m2 = Some s')
    by (by rewrite Hk, Hl, lookup_insert_eq).
  assert (Hfound : found m2 w' = s') by (unfold found; by rewrite Hs').
  split_and!.
  - cbn [loop]. by rewrite (lock_iter_benign m2 s').
  - apply Lock_takes; [done|done|]. by rewrite Hfound.
  - pose proof (Lock_takes fuel m2 ins2 loc2 w' Hctx Hb) as Htakes.
    rewrite Hfound in Htakes. specialize (Htakes I).
    destruct (call (S fuel) (Lock m2) ins2 loc2 w') as [[[res ins3] loc3] w3]
      eqn:Hcall.
    simpl in Htakes. subst res.
    destruct (Lock_success_spec _ _ _ _ _ _ _ _ Hcall) as (t & _ & _ & Hspec).
    exists t. simpl. unfold spec_of in *. rewrite Hs. rewrite <- Hk, Hspec, Hfound.
    simpl. unfold claim_spec. simpl.
    by destruct (LeaseTransitions (s_spec s)).
Qed.

(** [TestShouldSupportDistributedLocking]: Bob's [Lock] has been polling
    for two seconds against Alice's lease; Alice unlocks, and Bob's next
    turn takes the lease. *)
Lemma Unlock_hands_over_witness :
  let w := cluster 0 (Some (held_by "host-a-1f0e" 0 None 1)) in
  let o1 := call 8 (Lock bob) [] (live_at 0) w in
  let o2 := run (Unlock alice) [] (live_at 0) o1.2 in
  o1.1.1.1 = None ∧ o2.1.1.1 = None ∧
  (loop 1 (lock_iter bob) [] o1.1.2 o2.2).1.1.1 = Some None.
Proof.
  cbv zeta.
  set (w := cluster 0 (Some (held_by "host-a-1f0e" 0 None 1))).
  set (o1 := call 8 (Lock bob) [] (live_at 0) w).
  set (o2 := run (Unlock alice) [] (live_at 0) o1.2).
  assert (Ho2 : o2 = (None, o2.1.1.2, o2.1.2, o2.2))
    by (vm_compute; reflexivity).
  split; [vm_compute; reflexivity|]. split; [by rewrite Ho2|].
  assert (Hctx : ctx o1.1.2 = None) by (vm_compute; reflexivity).
  exact (proj1 (Unlock_hands_over alice [] (live_at 0) o1.2 _ _ _ Ho2
                  bob 0%nat [] o1.1.2 eq_refl Hctx (Forall_nil_2 _))).
Defined.

(** ** [Unlock] among other calls *)

Lemma unlock_step_writes m w i t rec :
  unlock_at m w (code t) →
  leases w !! key m = Some rec →
  leases (thread_step i t w).2 !! key m ≠ Some rec →
  ∃ rec',
    leases (thread_step i t w).2 !! key m = Some rec' ∧
    s_spec rec' = release_spec (s_spec rec) ∧
    s_version rec' = N.succ (s_version rec).
Proof.
  intros Hat Hrec. unfold thread_step, resume.
  remember (code t) as p eqn:Hp. clear Hp.
  destruct Hat as [|l [Hn (s & Hs & Hv)] Hh|e]; simpl;
    try (intros Hne; exfalso; by apply Hne).
  destruct (update_result _ _ _ _) as [l'|e] eqn:Hu; simpl;
    [|intros Hne; exfalso; by apply Hne].
  intros _.
  apply update_result_Ok in Hu as (_ & s0 & Hs0 & Hv0 & ->). simpl in *.
  rewrite Hn in Hs0. unfold key in *.
  assert (s0 = rec) as -> by congruence.
  assert (s = rec) as -> by congruence.
  destruct Hv as [Hv|[_ Hv]]; [lia|].
  eexists. rewrite Hn, lookup_insert_eq. split; [done|]. simpl.
  by rewrite Hv.
Qed.

(** X15. What [Unlock] writes when other calls run between its fetch and
    its update. Any number of calls run against one store, interleaved
    in any order; call [tid] is an [Unlock] of [m]. Whenever a step of
    that call replaces the stored record, the new record is the stored
    one, not an earlier fetch of it, with holder, acquire time, renew
    time and duration unset and the transitions kept. *)
Theorem Unlock_clears_what_is_stored (w : World)
    (calls : list (Routine * Local)) (evs : list Event) (tid : nat)
    (i : Input) (m : Mutex) (loc : Local) (rec : Stored) :
  calls !! tid = Some (once (Unlock m), loc) →
  leases (world (exec evs (boot w calls))) !! key m = Some rec →
  leases (world (sys_step (exec evs (boot w calls)) (tid, i))) !! key m
    ≠ Some rec →
  ∃ rec',
    leases (world (sys_step (exec evs (boot w calls)) (tid, i))) !! key m
      = Some rec' ∧
    s_spec rec' =
      {| HolderIdentity := None; LeaseDurationSeconds := None;
         AcquireTime := None; RenewTime := None;
         LeaseTransitions := LeaseTransitions (s_spec rec) |} ∧
    s_version rec' = N.succ (s_version rec).
Proof.
  intros Hcall Hrec Hne.
  destruct (exec_routine w calls evs tid _ Hcall) as (t & Ht & Hr).
  pose proof (unlock_ok_always w calls evs tid t Ht m Hr) as Hat.
  unfold sys_step in *. simpl in *. rewrite Ht in *. simpl in *.
  eapply unlock_step_writes; [exact Hat|exact Hrec|exact Hne].
Qed.

(** Alice unlocks the lease she renewed at 5 s: the step that submits
    the update leaves the record without holder and times. *)
Lemma Unlock_clears_what_is_stored_witness :
  let calls := [(once (Unlock alice), live_at 0)] in
  let w := cluster (7 * time.Second)
             (Some (held_by "host-a-1f0e" 0 (Some (5 * time.Second)) 3)) in
  let s := exec [(0%nat, idle)] (boot w calls) in
  ∃ rec',
    leases (world (sys_step s (0%nat, idle))) !! key alice = Some rec' ∧
    s_spec rec' =
      {| HolderIdentity := None; LeaseDurationSeconds := None;
         AcquireTime := None; RenewTime := None;
         LeaseTransitions := Some 3 |}.
Proof.
  cbv zeta.
  destruct (Unlock_clears_what_is_stored
              (cluster (7 * time.Second)
                 (Some (held_by "host-a-1f0e" 0 (Some (5 * time.Second)) 3)))
              [(once (Unlock alice), live_at 0)]
              [(0%nat, idle)] 0 idle alice (live_at 0)
              (held_by "host-a-1f0e" 0 (Some (5 * time.Second)) 3))
    as (rec' & Hrec' & Hspec & _).
  - reflexivity.
  - vm_compute. reflexivity.
  - vm_compute. discriminate.
  - exists rec'. split; [exact Hrec'|exact Hspec].
Defined.

(** ** Who may change a lease *)

(** X16. A lease that is running is changed by its holder only. Any
    number of calls run against one store, interleaved in any order;
    call [tid] is a [Lock], an [Extend] or an [Unlock] of [m]. If a
    step of that call replaces a record, under whatever name, that is
    held with its expiration time still ahead at that step, then the
    record is [m]'s, its holder is [m]'s identity, and the call is an
    [Extend] or an [Unlock]: a [Lock] never replaces a running lease,
    not even its own identity's, and no method replaces the running
    lease of another identity. *)
Theorem running_lease_changed_by_holder_only (w : World)
    (calls : list (Routine * Local)) (evs : list Event) (tid : nat)
    (i : Input) (m : Mutex) (r : Routine) (loc : Local)
    (k : string * string) (rec : Stored) :
  calls !! tid = Some (r, loc) → method_of m r →
  leases (world (exec evs (boot w calls))) !! k = Some rec →
  held_at (s_spec rec)
    (clock (world (sys_step (exec evs (boot w calls)) (tid, i)))) = true →
  leases (world (sys_step (exec evs (boot w calls)) (tid, i))) !! k
    ≠ Some rec →
  k = key m ∧ HolderIdentity (s_spec rec) = Some (uniqueID m) ∧
  (r = once (Extend m) ∨ r = once (Unlock m)).
Proof.
  intros Hcall Hm Hrec Hheld Hne.
  destruct (decide (k = key m)) as [->|Hk].
  2:{ exfalso. apply Hne. rewrite <- Hrec.
      by eapply methods_write_only_their_record_frame. }
  split; [done|].
  destruct (exec_routine w calls evs tid _ Hcall) as (t & Ht & Hr).
  simpl in Hr. unfold sys_step in Hheld, Hne. cbn [fst snd] in Hheld, Hne.
  rewrite Ht in Hheld, Hne. cbn [world] in Hheld, Hne.
  destruct Hm as [-> | [-> | ->]].
  - exfalso.
    pose proof (lock_ok_always w calls evs tid t Ht m Hr) as Hat.
    rewrite (lock_step_lands m _ i t rec Hr Hat Hrec Hne) in Hheld. done.
  - pose proof (extend_ok_always w calls evs tid t Ht m Hr) as Hat.
    split; [|by left].
    by destruct (extend_step_lands m _ i t rec Hat Hrec Hne).
  - pose proof (unlock_ok_always w calls evs tid t Ht m Hr) as Hat.
    split; [|by right]. by eapply unlock_step_lands.
Qed.

(** Alice's lease runs until 10 s. At 9 s she unlocks it: the step that
    replaces the running lease is hers. *)
Lemma running_lease_changed_by_holder_only_witness :
  let calls := [(once (Unlock alice), live_at 0); (Lock bob, live_at 0)] in
  let w := cluster (9 * time.Second) (Some (held_by "host-a-1f0e" 0 None 1)) in
  let s := exec [(0%nat, idle)] (boot w calls) in
  held_at (s_spec (held_by "host-a-1f0e" 0 None 1))
    (clock (world (sys_step s (0%nat, idle)))) = true ∧
  HolderIdentity (s_spec (held_by "host-a-1f0e" 0 None 1))
    = Some (uniqueID alice).
Proof.
  cbv zeta. split; [vm_compute; reflexivity|].
  apply (running_lease_changed_by_holder_only
           (cluster (9 * time.Second) (Some (held_by "host-a-1f0e" 0 None 1)))
           [(once (Unlock alice), live_at 0); (Lock bob, live_at 0)]
           [(0%nat, idle)] 0 idle alice (once (Unlock alice)) (live_at 0)
           (key alice) (held_by "host-a-1f0e" 0 None 1)).
  - reflexivity.
  - right. right. reflexivity.
  - vm_compute. reflexivity.
  - vm_compute. reflexivity.
  - vm_compute. discriminate.
Defined.

(** ** The records the package writes *)

Lemma well_formed_insert w w' k s :
  store_well_formed w → well_formed (s_spec s) →
  leases w' = <[k := s]> (leases w) → store_well_formed w'.
Proof.
  intros Hw Hs Hl k' rec. rewrite Hl. destruct (decide (k' = k)) as [->|Hne].
  - rewrite lookup_insert_eq. by intros [= <-].
  - rewrite lookup_insert_ne by done. apply Hw.
Qed.

Lemma well_formed_claim m t s : well_formed (claim_spec m t s).
Proof. intros _. done. Qed.

Lemma well_formed_release s : well_formed (release_spec s).
Proof. intros H. done. Qed.

Lemma well_formed_renew t s : well_formed s → well_formed (renew_spec t s).
Proof. intros H. exact H. Qed.

#[local] Transparent lock_exit lock_exit_err lock_retry lock_update lock_claim
  lock_fetched lock_get lock_iter lock_create.

Lemma lock_step_well_formed m w i t :
  routine t = lock m → lock_at m w (local t) (code t) →
  store_well_formed w →
  store_well_formed (thread_step i t w).2 ∧
  (returned t ≠ Some (Some ErrNoDuration) →
   returned (thread_step i t w).1 ≠ Some (Some ErrNoDuration)).
Proof.
  intros Hr Hat Hw. unfold returned, thread_step, resume. rewrite Hr.
  destruct Hat as [ | | |l Hf|l Hf Hh|l tc Hf Hh| | |Hx|e]; simpl.
  - destruct (create_result _ _ _ _) as [l'|e] eqn:Hc; simpl.
    + apply create_result_Ok in Hc as (_ & _ & ->). simpl.
      split; [|done].
      eapply well_formed_insert; [exact Hw| |reflexivity]. by intros H.
    + split; [done|]. by destruct (IsAlreadyExists e).
  - split; [done|]. by destruct (fire i (ctx (local t))).
  - split; [done|]. intros _.
    destruct (get_result _ _ _ _) as [l|e] eqn:Hg; simpl; [|done].
    apply get_result_Ok in Hg as (_ & s & Hs & ->). simpl in Hs.
    pose proof (Hw _ _ Hs) as Hwf. unfold well_formed in Hwf.
    unfold lock_fetched. simpl.
    destruct (HolderIdentity (s_spec s)); simpl; [|done].
    destruct Hwf as [Hd Ha]; [done|].
    destruct (LeaseDurationSeconds (s_spec s)); [|done].
    destruct (AcquireTime (s_spec s)); [|done]. done.
  - split.
    + unfold lock_fetched.
      destruct (HolderIdentity (Spec l)); simpl;
        [destruct (LeaseDurationSeconds (Spec l));
           [destruct (AcquireTime (Spec l))|]|]; simpl; done.
    + unfold lock_fetched.
      destruct (HolderIdentity (Spec l)); simpl;
        [destruct (LeaseDurationSeconds (Spec l));
           [destruct (AcquireTime (Spec l))|]|]; simpl; try done.
      intros _. by destruct (time.After (lease_expiry _ _ _) _).
  - done.
  - split; [|by destruct (update_result _ _ _ _)].
    destruct (update_result _ _ _ _) as [l'|e] eqn:Hu; simpl; [|done].
    apply update_result_Ok in Hu as (_ & s0 & _ & _ & ->). simpl.
    eapply well_formed_insert; [exact Hw| |reflexivity].
    apply well_formed_claim.
  - unfold on_sleep. by destruct (fire i (ctx (local t))).
  - split; [done|]. by destruct (fire i (ctx (local t))).
  - split; [done|]. by destruct (fire i (ctx (local t))).
  - done.
Qed.

#[local] Opaque lock_exit lock_exit_err lock_retry lock_update lock_claim
  lock_fetched lock_get lock_iter lock_create.

Lemma extend_step_well_formed m w i t :
  extend_at m w (code t) → store_well_formed w →
  store_well_formed (thread_step i t w).2 ∧
  (returned t ≠ Some (Some ErrNoDuration) →
   returned (thread_step i t w).1 ≠ Some (Some ErrNoDuration)).
Proof.
  intros Hat Hw. unfold returned, thread_step, resume.
  destruct Hat as [|l Hf Hh|l tr [Hn (s & Hs & Hv)] Hh Ht|e]; simpl.
  - split; [done|]. intros _.
    destruct (get_result _ _ _ _) as [l|e]; simpl; [|done].
    destruct (HolderIdentity (Spec l)) as [h|]; simpl; [|done].
    by destruct (decide (h ≠ uniqueID m)).
  - done.
  - split; [|by destruct (update_result _ _ _ _)].
    destruct (update_result _ _ _ _) as [l'|e] eqn:Hu; simpl; [|done].
    apply update_result_Ok in Hu as (_ & s0 & Hs0 & Hv0 & ->). simpl in *.
    rewrite Hn in Hs0. unfold key in Hs.
    assert (s0 = s) as -> by congruence.
    destruct Hv as [Hv|[_ Hv]]; [lia|].
    eapply well_formed_insert; [exact Hw| |reflexivity]. simpl.
    apply well_formed_renew. rewrite <- Hv. by eapply Hw.
  - done.
Qed.

Lemma unlock_step_well_formed m w i t :
  unlock_at m w (code t) → store_well_formed w →
  store_well_formed (thread_step i t w).2 ∧
  (returned t ≠ Some (Some ErrNoDuration) →
   returned (thread_step i t w).1 ≠ Some (Some ErrNoDuration)).
Proof.
  intros Hat Hw. unfold returned, thread_step, resume.
  destruct Hat as [|l Hf Hh|e]; simpl.
  - split; [done|]. intros _.
    destruct (get_result _ _ _ _) as [l|e]; simpl; [|done].
    destruct (HolderIdentity (Spec l)) as [h|]; simpl; [|done].
    by destruct (decide (h ≠ uniqueID m)).
  - split; [|by destruct (update_result _ _ _ _)].
    destruct (update_result _ _ _ _) as [l'|e] eqn:Hu; simpl; [|done].
    apply update_result_Ok in Hu as (_ & s0 & _ & _ & ->). simpl.
    eapply well_formed_insert; [exact Hw| |reflexivity].
    apply well_formed_release.
  - done.
Qed.

Lemma exec_threads_length w calls evs :
  length (threads (exec evs (boot w calls))) = length calls.
Proof.
  induction evs as [|ev evs IH] using rev_ind.
  - simpl. by rewrite length_fmap.
  - rewrite exec_app. simpl. unfold sys_step.
    destruct (threads (exec evs (boot w calls)) !! ev.1); [|done].
    simpl. by rewrite length_insert.
Qed.

(** X17. The package keeps the records well-formed. Where every call
    running against the store is a [Lock], an [Extend] or an [Unlock] of
    some mutex, in any number and interleaved in any order, and every
    record that names a holder has a duration and an acquire time to
    begin with, this stays so whatever happens; and no call ever
    returns the error [lock] has for a holder without duration or
    acquire time. *)
Theorem records_stay_well_formed (w : World)
    (calls : list (Routine * Local)) (evs : list Event) :
  only_methods calls → store_well_formed w →
  store_well_formed (world (exec evs (boot w calls))) ∧
  ∀ tid t, threads (exec evs (boot w calls)) !! tid = Some t →
    returned t ≠ Some (Some ErrNoDuration).
Proof.
  intros Hcalls Hw. induction evs as [|ev evs [IHw IHt]] using rev_ind.
  - split; [done|]. intros tid t Ht. simpl in Ht.
    rewrite list_lookup_fmap in Ht.
    destruct (calls !! tid) as [[r loc]|] eqn:Hc; [|done].
    injection Ht as <-. destruct (Hcalls _ _ _ Hc) as (m & [-> | [-> | ->]]);
      done.
  - rewrite exec_app. simpl. unfold sys_step.
    destruct (threads (exec evs (boot w calls)) !! ev.1) as [t1|] eqn:Ht1;
      [|done].
    simpl.
    assert (Hstep : store_well_formed
                      (thread_step ev.2 t1 (world (exec evs (boot w calls)))).2 ∧
                    returned (thread_step ev.2 t1
                                (world (exec evs (boot w calls)))).1
                    ≠ Some (Some ErrNoDuration)).
    { destruct (lookup_lt_is_Some_2 calls ev.1) as [[r loc] Hc].
      { rewrite <- (exec_threads_length w calls evs).
        by eapply lookup_lt_Some. }
      destruct (exec_routine w calls evs ev.1 _ Hc) as (t0 & Ht0 & Hr0).
      rewrite Ht1 in Ht0. injection Ht0 as <-. simpl in Hr0.
      destruct (Hcalls _ _ _ Hc) as (m & [-> | [-> | ->]]).
      - destruct (lock_step_well_formed m (world (exec evs (boot w calls)))
                    ev.2 t1 Hr0) as [H1 H2]; [|done|].
        { by apply (lock_ok_always w calls evs ev.1 t1 Ht1 m). }
        split; [done|]. apply H2. by eapply IHt.
      - destruct (extend_step_well_formed m (world (exec evs (boot w calls)))
                    ev.2 t1) as [H1 H2]; [|done|].
        { by apply (extend_ok_always w calls evs ev.1 t1 Ht1 m). }
        split; [done|]. apply H2. by eapply IHt.
      - destruct (unlock_step_well_formed m (world (exec evs (boot w calls)))
                    ev.2 t1) as [H1 H2]; [|done|].
        { by apply (unlock_ok_always w calls evs ev.1 t1 Ht1 m). }
        split; [done|]. apply H2. by eapply IHt. }
    destruct Hstep as [Hw' Hret]. split; [done|].
    intros tid t Ht. destruct (decide (tid = ev.1)) as [->|Hne].
    + rewrite list_lookup_insert_eq in Ht by (by eapply lookup_lt_Some).
      by injection Ht as <-.
    + rewrite list_lookup_insert_ne in Ht by done. by eapply IHt.
Qed.

(** Alice extends and then unlocks her lease while Bob waits for it:
    the record stays well-formed throughout; after these ten steps
    Alice's two calls have returned [nil] and Bob's is still polling. *)
Lemma records_stay_well_formed_witness :
  let calls := [(Lock bob, live_at 0); (once (Extend alice), live_at 0);
                (once (Unlock alice), live_at 0)] in
  let w := cluster 0 (Some (held_by "host-a-1f0e" 0 None 1)) in
  let evs := [(0%nat, idle); (1%nat, idle); (0%nat, idle); (1%nat, idle);
              (0%nat, idle); (1%nat, idle); (2%nat, idle); (0%nat, idle);
              (0%nat, idle); (2%nat, idle)] in
  store_well_formed (world (exec evs (boot w calls))) ∧
  returned <$> threads (exec evs (boot w calls)) =
    [None; Some None; Some None].
Proof.
  cbv zeta. split; [|vm_compute; reflexivity].
  apply records_stay_well_formed.
  - intros [|[|[|tid]]] r loc Hc; simpl in Hc; [..|done];
      injection Hc as <- <-.
    + exists bob. by left.
    + exists alice. right. by left.
    + exists alice. right. by right.
  - intros k rec Hk. simpl in Hk. apply lookup_singleton_Some in Hk as [_ <-].
    intros _. split; discriminate.
Defined.
